(** * Digital filter (GROOPS): boundary handling, ARMA engine, filter chain

    A shallow embedding of [source/classes/digitalFilter/digitalFilter.cpp]:
    [DigitalFilterBase::pad] and [trim], [DigitalFilterARMA::warmup],
    [filter] and [frequencyResponse], and the chain [DigitalFilter].

    Conventions.
    - [UInt] values are integers in [Z]; every [+], [-] and [*] the source
      performs on them is written with its 64-bit wrap-around ([UInt.add],
      [UInt.sub], [UInt.mul]).
    - A [Matrix] is its column count and the list of its rows; a [Vector]
      is the list of its entries.  A matrix written through a slice is
      threaded explicitly: every mutating call returns the new matrix.
    - C++ exceptions are the [Err] results of an error monad.
    - [Double] is an abstract scalar type [T] with its operations (class
      [Scalar]), [std::complex<Double>] and the Fourier transform pair an
      abstract type [C] (class [Spectral]); nothing is assumed about them
      except where a theorem names the law it uses.  The integers
      instantiate [Scalar] for evaluation, the real numbers with the
      discrete Fourier transform instantiate both, and so do the binary64
      numbers, on which infinities and NaN can be observed. *)

From Stdlib Require Import ZArith Lia Bool Reals Lra.
From Stdlib Require PrimFloat Uint63.
From stdpp Require Import base list.

Local Open Scope Z_scope.

(** ** Unsigned 64-bit arithmetic *)

Module UInt.

Definition modulus : Z := 2 ^ 64.

Definition wrap (z : Z) : Z := z mod modulus.

Definition add (a b : Z) : Z := wrap (a + b).

Definition sub (a b : Z) : Z := wrap (a - b).

Definition mul (a b : Z) : Z := wrap (a * b).

End UInt.

(** ** Errors and the error monad *)

(** The first five kinds are the exceptions thrown in digitalFilter.cpp
    itself; the others are raised by the collaborators it calls (matrix
    slices, [copy], [std::vector::at]) or mark behaviour the language
    leaves undefined. *)
Inductive Error : Type :=
| ZeroLengthInput
| InvalidPadding
| InsufficientInputLength
| UnknownPadType
| ResponseLengthTooShort
| SliceOutOfRange
| DimensionMismatch
| VectorAtOutOfRange
| OutOfBoundsAccess (index : Z)
| LoopDiverges.

Inductive result (A : Type) : Type :=
| Ok (a : A)
| Err (e : Error).

Arguments Ok {A} a.
Arguments Err {A} e.

Definition bind {A B} (m : result A) (k : A -> result B) : result B :=
  match m with
  | Ok a => k a
  | Err e => Err e
  end.

Notation "'let*' x ':=' m 'in' k" := (bind m (fun x => k))
  (at level 10, x name, m at level 100, k at level 200).

(** [for(UInt k=lo; k<lo+count; k++) body] with the loop state threaded. *)
Fixpoint for_from {St} (count : nat) (k : Z) (body : Z -> St -> result St) (s : St)
  : result St :=
  match count with
  | O => Ok s
  | S c => let* s' := body k s in for_from c (k + 1) body s'
  end.

(** [for(UInt k=0; k<n; k++) body]. *)
Definition for_range {St} (n : Z) (body : Z -> St -> result St) (s : St) : result St :=
  for_from (Z.to_nat n) 0 body s.

(** [for(UInt idx=start; idx<stop; idx+=step) body].  [fuel] bounds the
    number of iterations; running out of it is reported as [LoopDiverges],
    never as a result. *)
Fixpoint for_stride {St} (fuel : nat) (idx stop step : Z)
  (body : Z -> St -> result St) (s : St) : result St :=
  if idx <? stop then
    match fuel with
    | O => Err LoopDiverges
    | S f => let* s' := body idx s in for_stride f (UInt.add idx step) stop step body s'
    end
  else Ok s.

Inductive PadType : Type := NONE | ZERO | CONSTANT | PERIODIC | SYMMETRIC.

(** ** Numbers *)

(** [Double]: the constants [0.], [1.], the arithmetic the source uses and
    the comparison [>]. *)
Class Scalar (T : Type) : Type := {
  zero : T;
  one : T;
  add : T -> T -> T;
  mul : T -> T -> T;
  sub : T -> T -> T;
  div : T -> T -> T;
  opp : T -> T;
  gtb : T -> T -> bool
}.

(** [std::complex<Double>] with [std::abs], its zero, [1.], [*=] and [/],
    and the Fourier collaborator.

    Modelled from the spec: base/fourier.h is not part of the sources at
    hand; by section 6, [Fourier::fft] maps a real vector to its one-sided
    spectrum and [Fourier::synthesis] maps a spectrum back, told whether
    the signal length is even. *)
Class Spectral (T C : Type) : Type := {
  cabs : C -> T;
  czero : C;
  cone : C;
  cmul : C -> C -> C;
  cdiv : C -> C -> C;
  fft : list T -> list C;
  synthesis : list C -> bool -> list T
}.

(** ** Matrices *)

Section Matrices.

Context {T : Type} `{!Scalar T}.

Record Matrix : Type := mkMatrix { columns : nat; data : list (list T) }.

Definition rows (m : Matrix) : Z := Z.of_nat (length (data m)).

Definition cols (m : Matrix) : Z := Z.of_nat (columns m).

(** Every stored row has [columns] entries. *)
Definition wf (m : Matrix) : Prop := Forall (fun r => length r = columns m) (data m).

(** Modelled from the spec: the dense-matrix collaborator of section 6 is
    not part of the sources at hand.  [Matrix(r,c)] is an [r] by [c]
    matrix of zeros ("left at zero", section 4.1). *)
Definition Matrix_new (r c : Z) : Matrix :=
  mkMatrix (Z.to_nat c) (replicate (Z.to_nat r) (replicate (Z.to_nat c) zero)).

Definition in_view (m : Matrix) (r c h w : Z) : bool :=
  (r + h <=? rows m) && (c + w <=? cols m).

(** Modelled from the spec: [m.slice(r,c,h,w)] read as a value, "row/column
    slicing"; a slice that leaves the matrix raises. *)
Definition slice (m : Matrix) (r c h w : Z) : result Matrix :=
  if in_view m r c h w then
    Ok (mkMatrix (Z.to_nat w)
          ((fun row => take (Z.to_nat w) (drop (Z.to_nat c) row))
             <$> take (Z.to_nat h) (drop (Z.to_nat r) (data m))))
  else Err SliceOutOfRange.

(** [m.row(r,h)] is [m.slice(r,0,h,m.columns())]. *)
Definition row (m : Matrix) (r h : Z) : result Matrix := slice m r 0 h (cols m).

(** [m.column(c)] is [m.slice(0,c,m.rows(),1)]. *)
Definition column (m : Matrix) (c : Z) : result Matrix := slice m 0 c (rows m) 1.

(** The rows of [m] after the entries of the view [(r,c,h,w)] are replaced
    by those of [blk]. *)
Definition overwrite (m : Matrix) (r c h : Z) (blk : list (list T)) : Matrix :=
  mkMatrix (columns m)
    (imap (fun i old =>
             if (r <=? Z.of_nat i) && (Z.of_nat i <? r + h)
             then list_inserts (Z.to_nat c) (default [] (blk !! (Z.to_nat (Z.of_nat i - r)))) old
             else old)
          (data m)).

(** Modelled from the spec: [copy(src, dst.slice(r,c,h,w))]; the slice must
    lie in [dst] and have the dimensions of [src]. *)
Definition copy (src dst : Matrix) (r c h w : Z) : result Matrix :=
  if in_view dst r c h w then
    if (rows src =? h) && (cols src =? w)
    then Ok (overwrite dst r c h (data src))
    else Err DimensionMismatch
  else Err SliceOutOfRange.

(** ** Boundary handling: [DigitalFilterBase::pad] and [trim] *)

Definition pad (input : Matrix) (length timeShift : Z) (padType : PadType)
  : result Matrix :=
  match padType with
  | NONE =>
      if 0 <? timeShift then
        let padded := Matrix_new (UInt.add (rows input) timeShift) (cols input) in
        copy input padded 0 0 (rows input) (cols padded)
      else Ok input
  | _ =>
      if rows input <? 1 then Err ZeroLengthInput else
      let padded :=
        Matrix_new (UInt.add (UInt.add (UInt.mul 2 length) (rows input)) timeShift)
                   (cols input) in
      let* padded := copy input padded length 0 (rows input) (cols padded) in
      match padType with
      | ZERO => Ok padded
      | CONSTANT =>
          for_range length (fun k padded =>
            let* first := row input 0 1 in
            let* padded := copy first padded k 0 1 (cols padded) in
            let* last := row input (UInt.sub (rows input) 1) 1 in
            copy last padded (UInt.add (UInt.add (rows input) length) k) 0 1 (cols padded))
            padded
      | PERIODIC =>
          if rows input <? length then Err InvalidPadding else
          for_range length (fun k padded =>
            let* src := row input (UInt.add (UInt.sub (rows input) length) k) 1 in
            let* padded := copy src padded k 0 1 (cols padded) in
            let* src := row input k 1 in
            copy src padded (UInt.add (UInt.add (rows input) length) k) 0 1 (cols padded))
            padded
      | SYMMETRIC =>
          if rows input <? UInt.add length 1 then Err InvalidPadding else
          for_range length (fun k padded =>
            let* src := row input (UInt.add k 1) 1 in
            let* padded := copy src padded (UInt.sub (UInt.sub length 1) k) 0 1 (cols padded) in
            let* src := row input (UInt.sub (UInt.sub (rows input) 2) k) 1 in
            copy src padded (UInt.add (UInt.add (rows input) length) k) 0 1 (cols padded))
            padded
      | NONE => Err UnknownPadType
      end
  end.

Definition trim (input : Matrix) (length timeShift : Z) (padType : PadType)
  : result Matrix :=
  match padType with
  | NONE =>
      if 0 <? timeShift
      then row input timeShift (UInt.sub (rows input) timeShift)
      else Ok input
  | _ =>
      row input (UInt.add length timeShift)
          (UInt.sub (UInt.sub (rows input) (UInt.mul 2 length)) timeShift)
  end.

End Matrices.

Arguments Matrix T : clear implicits.
Arguments mkMatrix {T} columns data.


(** ** The ARMA engine and the filter chain *)

Section Engine.

Context {T C : Type} `{!Scalar T} `{!Spectral T C}.

Local Notation "'Matrix'" := (Matrix T).
Local Notation "'Vector'" := (list T).

Definition zlen {A} (l : list A) : Z := Z.of_nat (length l).

(** A [Vector] seen as the one-column matrix it is. *)
Definition as_matrix (v : Vector) : Matrix := mkMatrix 1 ((fun x => [x]) <$> v).

(** The entries of a one-column slice, as a [Vector]. *)
Definition as_vector (m : Matrix) : Vector := concat (data m).

Definition Vector_new (n : Z) : Vector := replicate (Z.to_nat n) zero.

(** [v.row(r,h)] on a [Vector]. *)
Definition Vector_row (v : Vector) (r h : Z) : result Vector :=
  if r + h <=? zlen v
  then Ok (take (Z.to_nat h) (drop (Z.to_nat r) v))
  else Err SliceOutOfRange.

(** [copy(src, dst.row(r,h))] on [Vector]s. *)
Definition Vector_copy (src dst : Vector) (r h : Z) : result Vector :=
  if r + h <=? zlen dst then
    if zlen src =? h
    then Ok (list_inserts (Z.to_nat r) src dst)
    else Err DimensionMismatch
  else Err SliceOutOfRange.

(** [v(i)]: element access without an exception of its own; outside the
    storage the behaviour is undefined, reported as [OutOfBoundsAccess]. *)
Definition elem (v : Vector) (i : Z) : result T :=
  match v !! Z.to_nat i with
  | Some x => Ok x
  | None => Err (OutOfBoundsAccess i)
  end.

(** [std::swap(v(i), v(j))]. *)
Definition swap_elems (v : Vector) (i j : Z) : result Vector :=
  let* x := elem v i in
  let* y := elem v j in
  Ok (<[Z.to_nat j := x]> (<[Z.to_nat i := y]> v)).

(** [v.at(k)] on a [std::vector]. *)
Definition vec_at {A} (v : list A) (k : Z) : result A :=
  match v !! Z.to_nat k with
  | Some x => Ok x
  | None => Err VectorAtOutOfRange
  end.

(** [v.at(k) = x]. *)
Definition vec_set {A} (v : list A) (k : Z) (x : A) : result (list A) :=
  if (Z.to_nat k <? length v)%nat then Ok (<[Z.to_nat k := x]> v) else Err VectorAtOutOfRange.

Definition vadd (u v : Vector) : Vector := zip_with add u v.

Definition vsub (u v : Vector) : Vector := zip_with sub u v.

Definition vscale (a : T) (v : Vector) : Vector := mul a <$> v.

(** The row vector [a] times the matrix with rows [B], [w] columns wide. *)
Fixpoint vecmat (a : Vector) (B : list Vector) (w : nat) : Vector :=
  match a, B with
  | x :: a', r :: B' => vadd (vscale x r) (vecmat a' B' w)
  | _, _ => replicate w zero
  end.

(** Modelled from the spec: [matMult(c, A, B, dst.slice(r,c0,h,w))] of the
    matrix collaborator, "matrix multiplication": the view is incremented
    by [c*A*B]. *)
Definition matMult (c : T) (A B dst : Matrix) (r c0 h w : Z) : result Matrix :=
  let* Cv := slice dst r c0 h w in
  if (cols A =? rows B) && (rows A =? h) && (cols B =? w) then
    Ok (overwrite dst r c0 h
          (zip_with (fun crow arow => vadd crow (vscale c (vecmat arow (data B) (columns B))))
                    (data Cv) (data A)))
  else Err DimensionMismatch.

(** Forward substitution with the lower triangle of [L]: the rows solved so
    far are [solved], the next one has index [i]. *)
Fixpoint forward_subst (c : T) (L B : list Vector) (i : nat) (solved : list Vector)
  (w : nat) : list Vector :=
  match L, B with
  | lrow :: L', brow :: B' =>
      let s := vecmat (take i lrow) solved w in
      let x := (fun v => div v (nth i lrow zero)) <$> vsub (vscale c brow) s in
      forward_subst c L' B' (S i) (solved ++ [x]) w
  | _, _ => solved
  end.

(** Modelled from the spec: [triangularSolve(c, L, dst.slice(r,c0,h,w))]
    with [L] typed lower triangular, "solving a triangular linear system
    in place": the view [X] becomes the solution of [L*X' = c*X]. *)
Definition triangularSolve (c : T) (L dst : Matrix) (r c0 h w : Z) : result Matrix :=
  let* Bv := slice dst r c0 h w in
  if (rows L =? h) && (cols L =? h) then
    Ok (overwrite dst r c0 h (forward_subst c (data L) (data Bv) 0 [] (Z.to_nat w)))
  else Err DimensionMismatch.

(** [swap(m.row(i), m.row(j))]. *)
Definition swap_rows (m : Matrix) (i j : Z) : result Matrix :=
  let* ri := row m i 1 in
  let* rj := row m j 1 in
  let* m := copy rj m i 0 1 (cols m) in
  copy ri m j 0 1 (cols m).

(** [for(k=0; k<m.rows()/2; k++) swap(m.row(k), m.row(m.rows()-k-1))]. *)
Definition reverse_rows (m : Matrix) : result Matrix :=
  for_range (rows m / 2)
    (fun k m => swap_rows m k (UInt.sub (UInt.sub (rows m) k) 1)) m.

Record DigitalFilterARMA : Type := mkARMA {
  bn : Vector;
  an : Vector;
  bnStartIndex : Z;
  backward : bool;
  inFrequencyDomain : bool;
  padType : PadType
}.

Definition warmup (f : DigitalFilterARMA) : Z :=
  Z.max (Z.max (UInt.sub (UInt.sub (zlen (bn f)) (bnStartIndex f)) 1) (bnStartIndex f))
        (UInt.mul 3 (zlen (an f))).

(** *** [DigitalFilterARMA::frequencyResponse] *)

(** The indices the reflection loop touches in one padded vector of
    [length] entries, in program order. *)
Definition reflection_indices (f : DigitalFilterARMA) (length : Z) : list Z :=
  mjoin ((fun k => [UInt.add k 1; UInt.sub (UInt.sub length 1) k])
           <$> seqZ 0 (Z.max (zlen (bn f)) (zlen (an f)))).

(** The two zero-padded coefficient vectors [(aPad, bPad)], after the
    reflection when [backward]. *)
Definition padded_coefficients (f : DigitalFilterARMA) (length : Z)
  : result (Vector * Vector) :=
  let bPad := Vector_new length in
  let* src := Vector_row (bn f) (bnStartIndex f) (UInt.sub (zlen (bn f)) (bnStartIndex f)) in
  let* bPad := Vector_copy src bPad 0 (UInt.sub (zlen (bn f)) (bnStartIndex f)) in
  let* src := Vector_row (bn f) 0 (bnStartIndex f) in
  let* bPad := Vector_copy src bPad (UInt.sub (zlen bPad) (bnStartIndex f)) (bnStartIndex f) in
  let aPad := Vector_new length in
  let* aPad := Vector_copy (an f) aPad 0 (zlen (an f)) in
  if backward f then
    for_range (Z.max (zlen (bn f)) (zlen (an f)))
      (fun k ab =>
         let* aPad := swap_elems (fst ab) (UInt.add k 1)
                        (UInt.sub (UInt.sub (zlen (fst ab)) 1) k) in
         let* bPad := swap_elems (snd ab) (UInt.add k 1)
                        (UInt.sub (UInt.sub (zlen (snd ab)) 1) k) in
         Ok (aPad, bPad))
      (aPad, bPad)
  else Ok (aPad, bPad).

(** The bin-wise quotient of two spectra. *)
Definition response_of_spectra (A B : list C) : result (list C) :=
  for_range (zlen A)
    (fun k F =>
       let* a := vec_at A k in
       let* v := if gtb (cabs a) zero
                 then (let* b := vec_at B k in let* a' := vec_at A k in Ok (cdiv b a'))
                 else Ok cone in
       vec_set F k v)
    (replicate (length A) czero).

Definition frequencyResponse (f : DigitalFilterARMA) (length : Z) : result (list C) :=
  if (zlen (bn f) >? length) || (zlen (an f) >? length) then Err ResponseLengthTooShort else
  let* ab := padded_coefficients f length in
  response_of_spectra (fft (fst ab)) (fft (snd ab)).

(** *** [DigitalFilterARMA::filter] *)

(** The banded matrix [M(coef.rows()+blockSize-1, blockSize)] with [coef]
    copied down every column, starting on the diagonal. *)
Definition banded (coef : Vector) (blockSize : Z) : result Matrix :=
  let M := Matrix_new (UInt.sub (UInt.add (zlen coef) blockSize) 1) blockSize in
  for_range (cols M) (fun k M => copy (as_matrix coef) M k k (zlen coef) 1) M.

Definition filter_frequency_domain (f : DigitalFilterARMA) (input : Matrix)
  : result Matrix :=
  let* padded := pad input (warmup f) (bnStartIndex f) (padType f) in
  let* H := frequencyResponse f (rows padded) in
  let* padded :=
    for_range (cols padded)
      (fun k padded =>
         let* col := column padded k in
         let F := fft (as_vector col) in
         let* F := for_range (zlen F)
                     (fun i F =>
                        let* x := vec_at F i in
                        let* h := vec_at H i in
                        vec_set F i (cmul x h)) F in
         copy (as_matrix (synthesis F (rows padded mod 2 =? 0))) padded 0 k (rows padded) 1)
      padded in
  trim padded (warmup f) (bnStartIndex f) (padType f).

Definition feed_forward (f : DigitalFilterARMA) (blockSize : Z) (padded output : Matrix)
  : result Matrix :=
  let* B := banded (bn f) blockSize in
  for_stride (Z.to_nat (rows output)) 0 (rows output) blockSize
    (fun idxStart output =>
       let columnCount := Z.min (UInt.sub (rows output) idxStart) blockSize in
       let rowCount := Z.min (UInt.sub (rows output) idxStart) (rows B) in
       let* Bs := slice B 0 0 rowCount columnCount in
       let* P := row padded idxStart columnCount in
       matMult one Bs P output idxStart 0 rowCount (cols output))
    output.

Definition feed_back (f : DigitalFilterARMA) (blockSize : Z) (output : Matrix)
  : result Matrix :=
  let* A := banded (an f) blockSize in
  for_stride (Z.to_nat (rows output)) 0 (rows output) blockSize
    (fun idxStart output =>
       let columnCount := Z.min (UInt.sub (rows output) idxStart) blockSize in
       let* output :=
         if 0 <? idxStart then
           let m := Z.min (UInt.sub (zlen (an f)) 1) columnCount in
           let* Ar := row A blockSize m in
           let* prev := row output (UInt.sub idxStart blockSize) blockSize in
           matMult (opp one) Ar prev output idxStart 0 m (cols output)
         else Ok output in
       let* A1 := slice A 0 0 columnCount columnCount in
       triangularSolve one A1 output idxStart 0 columnCount (cols output))
    output.

Definition filter_time_domain (f : DigitalFilterARMA) (input : Matrix) : result Matrix :=
  let* padded := pad input (warmup f) (bnStartIndex f) (padType f) in
  let* padded := if backward f then reverse_rows padded else Ok padded in
  let output := Matrix_new (rows padded) (cols padded) in
  let blockSize := Z.min 64 (rows padded) in
  let* output := feed_forward f blockSize padded output in
  let* output := if 1 <? zlen (an f) then feed_back f blockSize output else Ok output in
  let* output := if backward f then reverse_rows output else Ok output in
  trim output (warmup f) (bnStartIndex f) (padType f).

Definition filter (f : DigitalFilterARMA) (input : Matrix) : result Matrix :=
  if rows input <? warmup f then Err InsufficientInputLength else
  if inFrequencyDomain f then filter_frequency_domain f input
  else filter_time_domain f input.

(** *** The chain [DigitalFilter] *)

(** The capability every member of a chain offers ([DigitalFilterBase]). *)
Record DigitalFilterBase : Type := mkBase {
  base_filter : Matrix -> result Matrix;
  base_frequencyResponse : Z -> result (list C)
}.

Definition ARMA_member (f : DigitalFilterARMA) : DigitalFilterBase :=
  mkBase (filter f) (frequencyResponse f).

Fixpoint DigitalFilter_filter (filters : list DigitalFilterBase) (output : Matrix)
  : result Matrix :=
  match filters with
  | [] => Ok output
  | f :: rest => let* output := base_filter f output in DigitalFilter_filter rest output
  end.

(** [for(k=0; k<H.size(); k++) F.at(k) *= H.at(k)]. *)
Definition multiply_into (F H : list C) : result (list C) :=
  for_range (zlen H)
    (fun k F =>
       let* x := vec_at F k in
       let* h := vec_at H k in
       vec_set F k (cmul x h))
    F.

Fixpoint chain_response (filters : list DigitalFilterBase) (length : Z) (F : list C)
  : result (list C) :=
  match filters with
  | [] => Ok F
  | f :: rest =>
      let* H := base_frequencyResponse f length in
      let* F := multiply_into F H in
      chain_response rest length F
  end.

Definition DigitalFilter_frequencyResponse (filters : list DigitalFilterBase)
  (length : Z) : result (list C) :=
  chain_response filters length (replicate (Z.to_nat (UInt.add length 2 / 2)) cone).

End Engine.


(** ** Specification-level notions *)

Section Notions.

Context {T C : Type} `{!Scalar T} `{!Spectral T C}.

(** "Enough rows for that policy" (section 4.1). *)
Definition enough_rows (padType : PadType) (input : Matrix T) (len : Z) : Prop :=
  match padType with
  | NONE => True
  | ZERO | CONSTANT => 1 <= rows input
  | PERIODIC => 1 <= rows input /\ len <= rows input
  | SYMMETRIC => len + 1 <= rows input
  end.

(** What the loops of [pad] maintain: [m] is a well-formed matrix of
    [2*len + rows input + timeShift] rows that holds the rows of [input]
    from row [len] on. *)
Definition holds_input (input : Matrix T) (len timeShift : Z) (m : Matrix T) : Prop :=
  columns m = columns input /\ wf m /\
  rows m = 2 * len + rows input + timeShift /\
  forall i, (i < length (data input))%nat ->
            data m !! (Z.to_nat len + i)%nat = data input !! i.

(** The identity filter of the spec: [bn = [1]], [an = [1]],
    [bnStartIndex = 0], forward, in the time domain. *)
Definition identity_ARMA (p : PadType) : @DigitalFilterARMA T :=
  mkARMA [one] [one] 0 false false p.

(** Row [i] of the [n] by [n] identity matrix. *)
Definition unit_row (n i : nat) : list T := <[i := one]> (replicate n zero).

Definition identity_rows (n : nat) : list (list T) := unit_row n <$> seq 0 n.

(** What the block loop of the feed-forward pass maintains for the
    identity filter: the rows before [idx] are those of [padded], the
    others are still zero. *)
Definition copied_up_to (padded : Matrix T) (idx : Z) (output : Matrix T) : Prop :=
  columns output = columns padded /\ length (data output) = length (data padded) /\
  forall i, (i < length (data padded))%nat ->
            data output !! i
            = if Z.of_nat i <? idx then data padded !! i
              else Some (replicate (columns padded) zero).

(** The row count [pad] produces. *)
Definition padded_rows (n len ts : Z) (p : PadType) : Z :=
  match p with
  | NONE => if 0 <? ts then UInt.add n ts else n
  | _ => UInt.add (UInt.add (UInt.mul 2 len) n) ts
  end.

(** The row count [trim] leaves. *)
Definition trimmed_rows (n len ts : Z) (p : PadType) : Z :=
  match p with
  | NONE => if 0 <? ts then UInt.sub n ts else n
  | _ => UInt.sub (UInt.sub n (UInt.mul 2 len)) ts
  end.

(** Two matrices with the same number of rows and of columns. *)
Definition same_shape (a b : Matrix T) : Prop :=
  rows a = rows b /\ columns a = columns b.

(** The exceptions of the matrix collaborator. *)
Definition library_error (e : Error) : Prop :=
  e = SliceOutOfRange \/ e = DimensionMismatch.

(** "Multiplied element-wise by every member's response", starting from a
    vector of [n] ones (section 4.3). *)
Definition elementwise_product (n : nat) (responses : list (list C)) : list C :=
  foldl (zip_with cmul) (replicate n cone) responses.

End Notions.

(** ** Integer instance, for evaluation *)

Module ZInst.

#[export] Instance Z_scalar : Scalar Z := {|
  zero := 0; one := 1; add := Z.add; mul := Z.mul; sub := Z.sub; div := Z.div;
  opp := Z.opp; gtb := Z.gtb
|}.

Definition ex3 : Matrix Z := mkMatrix 1 [[1]; [2]; [3]].

Definition ex4 : Matrix Z := mkMatrix 2 [[1; 2]; [3; 4]; [5; 6]; [7; 8]].

(** The input column 1, 2, ..., 10 of the end-to-end example (section 8). *)
Definition ramp10 : Matrix Z := mkMatrix 1 ((fun i => [i]) <$> seqZ 1 10).

(** Three times the centred three-tap mean of section 8: the taps are
    [1, 1, 1] instead of [1/3, 1/3, 1/3], to stay in the integers. *)
Definition moving_sum : @DigitalFilterARMA Z :=
  mkARMA [1; 1; 1] [1] 1 false false CONSTANT.

(** A running sum: [y(n) = x(n) + y(n-1)]. *)
Definition running_sum : @DigitalFilterARMA Z :=
  mkARMA [1] [1; -1] 0 false false ZERO.

(** A column of [n] ones. *)
Definition ones (n : nat) : Matrix Z := mkMatrix 1 (replicate n [1]).

(** [bn = [1]], [an = [1]], [bnStartIndex = 0], time domain, forward. *)
Definition identity_filter (p : PadType) : @DigitalFilterARMA Z := identity_ARMA p.

(** The identity coefficients, run backward. *)
Definition backward_identity : @DigitalFilterARMA Z :=
  mkARMA [1] [1] 0 true false ZERO.

(** The configuration of the warmup example of section 8. *)
Definition five_taps : @DigitalFilterARMA Z :=
  mkARMA [1; 1; 1; 1; 1] [1] 2 false false ZERO.

End ZInst.

(** ** Exact real instance *)

(** [Double] read as exact real numbers, complex numbers as pairs, and the
    discrete Fourier transform pair written out.  Rounding, infinities and
    NaN are outside this model. *)
Module RInst.

Local Open Scope R_scope.

#[export] Instance R_scalar : Scalar R := {|
  zero := 0; one := 1; add := Rplus; mul := Rmult; sub := Rminus; div := Rdiv;
  opp := Ropp; gtb := fun x y => if Rlt_dec y x then true else false
|}.

Definition Cx : Type := R * R.

Definition Cx_abs (z : Cx) : R := sqrt (fst z * fst z + snd z * snd z).

Definition Cx_add (x y : Cx) : Cx := (fst x + fst y, snd x + snd y).

Definition Cx_mul (x y : Cx) : Cx :=
  (fst x * fst y - snd x * snd y, fst x * snd y + snd x * fst y).

Definition Cx_div (x y : Cx) : Cx :=
  let d := fst y * fst y + snd y * snd y in
  ((fst x * fst y + snd x * snd y) / d, (snd x * fst y - fst x * snd y) / d).

(** [exp(-2 pi i j k / n)]. *)
Definition twiddle (n j k : nat) : Cx :=
  let phi := 2 * PI * INR j * INR k / INR n in (cos phi, - sin phi).

(** Bin [k] of the transform of [v]. *)
Definition dft_bin (v : list R) (k : nat) : Cx :=
  foldr Cx_add (0, 0) (imap (fun j x => Cx_mul (x, 0) (twiddle (length v) j k)) v).

(** Forward analysis: the [n/2 + 1] bins of the one-sided spectrum. *)
Definition dft (v : list R) : list Cx := dft_bin v <$> seq 0 (length v / 2 + 1).

(** Synthesis of a real signal of [n] samples from its one-sided spectrum;
    [n] is even or odd as told. *)
Definition idft (F : list Cx) (even : bool) : list R :=
  let n := (if even then 2 * (length F - 1) else 2 * length F - 1)%nat in
  (fun t =>
     foldr Rplus 0
       (imap (fun k z =>
                let w := if (k =? 0)%nat || (even && (2 * k =? n)%nat) then 1 else 2 in
                let phi := 2 * PI * INR k * INR t / INR n in
                w * (fst z * cos phi - snd z * sin phi)) F)
     / INR n) <$> seq 0 n.

#[export] Instance R_spectral : Spectral R Cx := {|
  cabs := Cx_abs; czero := (0, 0); cone := (1, 0); cmul := Cx_mul; cdiv := Cx_div;
  fft := dft; synthesis := idft
|}.

(** The identity filter over the reals. *)
Definition identity_filter (p : PadType) : @DigitalFilterARMA R := identity_ARMA p.

Definition ramp4 : Matrix R := mkMatrix 1 [[1]; [2]; [3]; [4]].

Definition ramp2 : Matrix R := mkMatrix 1 [[1]; [2]].

Definition ramp3 : Matrix R := mkMatrix 1 [[1]; [2]; [3]].

(** A two-tap filter whose current sample is the second tap, without
    padding: the output is shifted by [bnStartIndex = 1]. *)
Definition lead_filter : @DigitalFilterARMA R :=
  mkARMA [1; 2] [1] 1%Z false false NONE.

(** The identity coefficients, run backward. *)
Definition backward_identity : @DigitalFilterARMA R :=
  mkARMA [1] [1] 0%Z true false ZERO.

(** A running sum: [y(n) = x(n) + y(n-1)]; its feedback spectrum vanishes
    at frequency zero. *)
Definition integrator : @DigitalFilterARMA R :=
  mkARMA [1] [1; -1] 0%Z false false ZERO.

(** A chain member that is not an ARMA filter: it passes the signal on and
    answers every [frequencyResponse] with the same vector. *)
Definition fixed_member (H : list Cx) : @DigitalFilterBase R Cx :=
  mkBase (fun m => Ok m) (fun _ => Ok H).

Definition chain2 : list (@DigitalFilterBase R Cx) :=
  [fixed_member [(2, 0); (0, 1)]; fixed_member [(1, 1); (3, 0)]].

(** A three-tap sum centred on the current sample. *)
Definition sum3 : @DigitalFilterARMA R :=
  mkARMA [1; 1; 1] [1] 1%Z false false CONSTANT.

(** The same taps, run backward in the frequency domain. *)
Definition spectral_sum3 : @DigitalFilterARMA R :=
  mkARMA [1; 1; 1] [1] 1%Z true true SYMMETRIC.

(** [bnStartIndex] one past the only tap of [bn]. *)
Definition misplaced : @DigitalFilterARMA R :=
  mkARMA [1] [1] 1%Z false false ZERO.

(** Two taps, run backward. *)
Definition backward_pair : @DigitalFilterARMA R :=
  mkARMA [1; 2] [1] 0%Z true false ZERO.

(** Three taps with the current sample first, run backward. *)
Definition backward_taps : @DigitalFilterARMA R :=
  mkARMA [1; 2; 3] [1] 0%Z true false ZERO.

Definition ramp6 : Matrix R := mkMatrix 1 [[1]; [2]; [3]; [4]; [5]; [6]].

(** Taps run backward in the frequency domain, without padding. *)
Definition unpadded (taps : list R) : @DigitalFilterARMA R :=
  mkARMA taps [1] 0%Z true true NONE.

End RInst.

(** ** Binary64 instance *)

(** [Double] as the binary64 numbers of the machine, with their signed
    zeros, infinities and NaN; [x > y] is the IEEE comparison, false as
    soon as an operand is NaN.  The transform pair is the discrete Fourier
    transform in binary64 arithmetic. *)
Module FInst.

Local Notation "'float'" := (PrimFloat.float).
Local Notation "x + y" := (PrimFloat.add x y) : float_scope.
Local Notation "x - y" := (PrimFloat.sub x y) : float_scope.
Local Notation "x * y" := (PrimFloat.mul x y) : float_scope.
Local Notation "x / y" := (PrimFloat.div x y) : float_scope.
Local Notation "- x" := (PrimFloat.opp x) : float_scope.
Local Open Scope float_scope.

#[global] Instance F_scalar : Scalar float := {|
  zero := PrimFloat.zero; one := PrimFloat.one; add := PrimFloat.add;
  mul := PrimFloat.mul; sub := PrimFloat.sub; div := PrimFloat.div;
  opp := PrimFloat.opp; gtb := fun x y => PrimFloat.ltb y x
|}.

Definition of_nat (n : nat) : float := PrimFloat.of_uint63 (Uint63.of_Z (Z.of_nat n)).

Definition Cx : Type := float * float.

Definition Cx_abs (z : Cx) : float := PrimFloat.sqrt (fst z * fst z + snd z * snd z).

Definition Cx_add (x y : Cx) : Cx := (fst x + fst y, snd x + snd y).

Definition Cx_mul (x y : Cx) : Cx :=
  (fst x * fst y - snd x * snd y, fst x * snd y + snd x * fst y).

Definition Cx_div (x y : Cx) : Cx :=
  let d := fst y * fst y + snd y * snd y in
  ((fst x * fst y + snd x * snd y) / d, (snd x * fst y - fst x * snd y) / d).

(** The binary64 number nearest to pi. *)
Definition pi : float :=
  PrimFloat.of_uint63 (Uint63.of_Z 884279719003555)
  / PrimFloat.of_uint63 (Uint63.of_Z 281474976710656).

(** Partial sums of the power series of the cosine (from [m = 0] and
    [term = 1]) and of the sine (from [m = 1] and [term = x]). *)
Fixpoint series (fuel m : nat) (term acc x2 : float) : float :=
  match fuel with
  | O => acc
  | S fuel' =>
      let term' := - (term * x2 / (of_nat (m + 1) * of_nat (m + 2))) in
      series fuel' (m + 2) term' (acc + term') x2
  end.

Definition cos (x : float) : float := series 20 0 PrimFloat.one PrimFloat.one (x * x).

Definition sin (x : float) : float := series 20 1 x x (x * x).

(** [exp(-2 pi i j k / n)]: exact at the quarter turns, elsewhere by the
    power series at an angle between [-pi] and [pi]. *)
Definition twiddle (n j k : nat) : Cx :=
  let r := ((j * k) mod n)%nat in
  if (r =? 0)%nat then (PrimFloat.one, PrimFloat.zero)
  else if (4 * r =? n)%nat then (PrimFloat.zero, - PrimFloat.one)
  else if (2 * r =? n)%nat then (- PrimFloat.one, PrimFloat.zero)
  else if (4 * r =? 3 * n)%nat then (PrimFloat.zero, PrimFloat.one)
  else
    let phi := if (2 * r <=? n)%nat
               then PrimFloat.two * pi * of_nat r / of_nat n
               else - (PrimFloat.two * pi * of_nat (n - r) / of_nat n) in
    (cos phi, - sin phi).

Definition dft_bin (v : list float) (k : nat) : Cx :=
  foldr Cx_add (PrimFloat.zero, PrimFloat.zero)
        (imap (fun j x => Cx_mul (x, PrimFloat.zero) (twiddle (length v) j k)) v).

Definition dft (v : list float) : list Cx := dft_bin v <$> seq 0 (length v / 2 + 1).

Definition idft (F : list Cx) (even : bool) : list float :=
  let n := (if even then 2 * (length F - 1) else 2 * length F - 1)%nat in
  (fun t =>
     foldr PrimFloat.add PrimFloat.zero
       (imap (fun k z =>
                let w := if (k =? 0)%nat || (even && (2 * k =? n)%nat)
                         then PrimFloat.one else PrimFloat.two in
                let c := twiddle n k t in
                w * (fst z * fst c + snd z * snd c)) F)
     / of_nat n) <$> seq 0 n.

#[global] Instance F_spectral : Spectral float Cx := {|
  cabs := Cx_abs; czero := (PrimFloat.zero, PrimFloat.zero);
  cone := (PrimFloat.one, PrimFloat.zero); cmul := Cx_mul; cdiv := Cx_div;
  fft := dft; synthesis := idft
|}.

(** A feedback vector that holds a NaN. *)
Definition nan_feedback : @DigitalFilterARMA float :=
  mkARMA [PrimFloat.one] [PrimFloat.nan; PrimFloat.one] 0%Z false false ZERO.

(** The samples 1, infinity, 3, 4. *)
Definition spike : Matrix float :=
  mkMatrix 1 [[PrimFloat.one]; [PrimFloat.infinity];
              [PrimFloat.one + PrimFloat.two]; [PrimFloat.two + PrimFloat.two]].

End FInst.

(** ** The layout of a padded sequence *)

Section Layout.

Context {T : Type} `{!Scalar T}.

(** The input row that row [i] of the padded sequence holds after [k]
    iterations of the padding loop of policy [p]; [None] stands for a row
    that is (still) zero.  [n] is the number of input rows. *)
Definition pad_source_after (p : PadType) (n len k i : Z) : option Z :=
  if i <? len then
    match p with
    | CONSTANT => if i <? k then Some 0 else None
    | PERIODIC => if i <? k then Some (n - len + i) else None
    | SYMMETRIC => if len - k <=? i then Some (len - i) else None
    | _ => None
    end
  else if i <? len + n then Some (i - len)
  else if i <? len + n + k then
    match p with
    | CONSTANT => Some (n - 1)
    | PERIODIC => Some (i - len - n)
    | SYMMETRIC => Some (2 * n + len - 2 - i)
    | _ => None
    end
  else None.

(** The layout [pad] is to produce: [len] rows of head, the input, [len]
    rows of tail, and zero rows after them. *)
Definition pad_source (p : PadType) (n len i : Z) : option Z :=
  if i <? len then
    match p with
    | CONSTANT => Some 0
    | PERIODIC => Some (n - len + i)
    | SYMMETRIC => Some (len - i)
    | _ => None
    end
  else if i <? len + n then Some (i - len)
  else if i <? 2 * len + n then
    match p with
    | CONSTANT => Some (n - 1)
    | PERIODIC => Some (i - len - n)
    | SYMMETRIC => Some (2 * n + len - 2 - i)
    | _ => None
    end
  else None.

Definition source_row (input : Matrix T) (s : option Z) : option (list T) :=
  match s with
  | Some j => data input !! Z.to_nat j
  | None => Some (replicate (columns input) zero)
  end.

(** [m] is a well-formed matrix of the padded size whose rows are those
    [src] tells. *)
Definition laid_out (input : Matrix T) (len ts : Z) (src : Z -> option Z)
  (m : Matrix T) : Prop :=
  columns m = columns input /\ wf m /\
  rows m = 2 * len + rows input + ts /\
  forall i, 0 <= i < rows m -> data m !! Z.to_nat i = source_row input (src i).

End Layout.

(** ** When the frequency response of an ARMA filter is defined *)

Section ResponseDomain.

Context {T : Type} `{!Scalar T}.

(** The lengths [frequencyResponse] can serve: the coefficient vectors fit,
    [bnStartIndex] points into [bn], and a backward filter leaves room for
    the reflection. *)
Definition response_defined (f : @DigitalFilterARMA T) (len : Z) : Prop :=
  zlen (bn f) <= len /\ zlen (an f) <= len /\
  0 <= bnStartIndex f <= zlen (bn f) /\
  (backward f = true -> Z.max (zlen (bn f)) (zlen (an f)) < len).

(** The reflection loop of [padded_coefficients], on its own. *)
Definition reflect (n : Z) (ab : list T * list T) : result (list T * list T) :=
  for_range n
    (fun k ab =>
       let* aPad := swap_elems (fst ab) (UInt.add k 1)
                      (UInt.sub (UInt.sub (zlen (fst ab)) 1) k) in
       let* bPad := swap_elems (snd ab) (UInt.add k 1)
                      (UInt.sub (UInt.sub (zlen (snd ab)) 1) k) in
       Ok (aPad, bPad))
    ab.

(** A padded vector after [n] rounds of the reflection loop: entry
    [i >= 1] holds the former entry [len - i] when exactly one of the two
    positions was swapped, that is lies within [n] of its end. *)
Definition mirrored (n : Z) (v : list T) : list T :=
  imap (fun i x =>
          if (1 <=? Z.of_nat i)
             && xorb (Z.of_nat i <=? n) (zlen v - Z.of_nat i <=? n)
          then default x (v !! (length v - i)%nat) else x) v.

End ResponseDomain.

(** ** The frequency-domain path, column by column *)

Section Columns.

Context {T C : Type} `{!Scalar T} `{!Spectral T C}.




End Columns.

(** ** The feed-forward pass as one banded product *)

Section Band.

Context {T : Type} `{!Scalar T}.

(** Entry [(r,c)] of the lower banded (Toeplitz) matrix of [coef]:
    [coef(r-c)] on the band, zero off it. *)
Definition band_entry (coef : list T) (r c : nat) : T :=
  if (c <=? r)%nat then default zero (coef !! (r - c)%nat) else zero.

(** The first [w] entries of row [r] of that matrix. *)
Definition band_row (coef : list T) (r w : nat) : list T :=
  (fun c => band_entry coef r c) <$> seq 0 w.

(** Row [m] of the product of the banded matrix of [coef] with the rows
    [P]: the sum of [coef(m-j) * P(j)] over the rows [j <= m] on the band,
    taken in the order of [j]. *)
Definition convolved_row (coef : list T) (P : list (list T)) (w m : nat) : list T :=
  vecmat (band_row coef m (length P)) P w.

(** The same sum over the first [J] rows only. *)
Definition partial_row (coef : list T) (P : list (list T)) (w m J : nat) : list T :=
  vecmat (band_row coef m J) (take J P) w.

(** What the block loop of the feed-forward pass maintains: every output
    row holds its sum over the input rows before [idx]. *)
Definition convolved_up_to (coef : list T) (padded : Matrix T) (idx : Z)
  (output : Matrix T) : Prop :=
  columns output = columns padded /\ length (data output) = length (data padded) /\
  forall m, (m < length (data padded))%nat ->
            data output !! m
            = Some (partial_row coef (data padded) (columns padded) m
                      (Z.to_nat (Z.min idx (rows padded)))).

(** The first row [trim] keeps. *)
Definition trim_offset (p : PadType) (len ts : Z) : Z :=
  match p with
  | NONE => ts
  | _ => len + ts
  end.

(** What the block loop of the feedback pass maintains, [U] being the
    output of the feed-forward pass: the rows before [idx] solve the
    banded system of [coef], the rows from [idx] on are those of [U]. *)
Definition solved_up_to (coef : list T) (U : Matrix T) (idx : Z) (output : Matrix T)
  : Prop :=
  columns output = columns U /\ length (data output) = length (data U) /\
  (forall m r, (m < Z.to_nat idx)%nat -> data U !! m = Some r ->
               partial_row coef (data output) (columns U) m (S m) = r) /\
  (forall m, (Z.to_nat idx <= m)%nat -> data output !! m = data U !! m).

(** The block starting at row [idx] after the rows of the block before it
    are carried over: each row [b] of the block, together with the sum
    over the rows before [idx], gives the row of [U]. *)
Definition carried (coef : list T) (U : Matrix T) (idx cc : nat) (out out1 : Matrix T)
  : Prop :=
  wf out1 /\ columns out1 = columns U /\ length (data out1) = length (data U) /\
  (forall j, (j < idx)%nat -> data out1 !! j = data out !! j) /\
  (forall j, (idx + cc <= j)%nat -> data out1 !! j = data U !! j) /\
  (forall t r, (t < cc)%nat -> data U !! (idx + t)%nat = Some r ->
     exists b, data out1 !! (idx + t)%nat = Some b /\
               vadd (partial_row coef (data out) (columns U) (idx + t) idx) b = r).

End Band.

(** ** Basic facts: arithmetic, the monad, the loops *)

Lemma wrap_small z : 0 <= z < UInt.modulus -> UInt.wrap z = z.
Proof. intros H. unfold UInt.wrap. now apply Z.mod_small. Qed.

Lemma wrap_range z : 0 <= UInt.wrap z < UInt.modulus.
Proof. unfold UInt.wrap. apply Z.mod_pos_bound. reflexivity. Qed.

Lemma modulus_eq : UInt.modulus = 18446744073709551616.
Proof. reflexivity. Qed.

Lemma add_small a b : 0 <= a + b < UInt.modulus -> UInt.add a b = a + b.
Proof. apply wrap_small. Qed.

Lemma sub_small a b : 0 <= a - b < UInt.modulus -> UInt.sub a b = a - b.
Proof. apply wrap_small. Qed.

Lemma mul_small a b : 0 <= a * b < UInt.modulus -> UInt.mul a b = a * b.
Proof. apply wrap_small. Qed.

Lemma add_nonneg a b : 0 <= UInt.add a b.
Proof. apply wrap_range. Qed.

Lemma sub_nonneg a b : 0 <= UInt.sub a b.
Proof. apply wrap_range. Qed.

Lemma bind_Ok {A B} (m : result A) (k : A -> result B) b :
  bind m k = Ok b -> exists a, m = Ok a /\ k a = Ok b.
Proof. destruct m as [a|e]; simpl; [eauto | discriminate]. Qed.

Lemma bind_Err {A B} (m : result A) (k : A -> result B) e :
  bind m k = Err e -> m = Err e \/ exists a, m = Ok a /\ k a = Err e.
Proof. destruct m as [a|e']; simpl; [eauto | intros [= ->]; auto]. Qed.

(** Split a hypothesis [let* x := m in k = Ok b] into its two steps. *)
Ltac bind_inv H :=
  let a := fresh "a" in
  let H1 := fresh H "_l" in
  apply bind_Ok in H; destruct H as (a & H1 & H).

Section LoopFacts.

Context {St : Type}.
Implicit Types body : Z -> St -> result St.

Lemma for_from_inv (Inv : Z -> St -> Prop) body count lo s :
  Inv lo s ->
  (forall k s, lo <= k < lo + Z.of_nat count -> Inv k s ->
     exists s', body k s = Ok s' /\ Inv (k + 1) s') ->
  exists s', for_from count lo body s = Ok s' /\ Inv (lo + Z.of_nat count) s'.
Proof.
  revert lo s. induction count as [|c IH]; intros lo s H0 Hstep.
  - exists s. split; [reflexivity|]. now replace (lo + Z.of_nat 0) with lo by lia.
  - destruct (Hstep lo s) as (s1 & Hb & H1); [lia|assumption|].
    destruct (IH (lo + 1) s1) as (s2 & Hf & H2); [assumption| |].
    { intros k s' Hk. apply Hstep. lia. }
    exists s2. split.
    + simpl. rewrite Hb. exact Hf.
    + now replace (lo + Z.of_nat (S c)) with (lo + 1 + Z.of_nat c) by lia.
Qed.

Lemma for_range_inv (Inv : Z -> St -> Prop) body n s :
  0 <= n ->
  Inv 0 s ->
  (forall k s, 0 <= k < n -> Inv k s -> exists s', body k s = Ok s' /\ Inv (k + 1) s') ->
  exists s', for_range n body s = Ok s' /\ Inv n s'.
Proof.
  intros Hn H0 Hstep. unfold for_range.
  destruct (for_from_inv Inv body (Z.to_nat n) 0 s H0) as (s' & Hf & Hi).
  - intros k s0 Hk. apply Hstep. lia.
  - exists s'. split; [assumption|]. now replace n with (0 + Z.of_nat (Z.to_nat n)) by lia.
Qed.

Lemma for_from_preserved (P : St -> Prop) body count lo s s' :
  (forall k s s', body k s = Ok s' -> P s -> P s') ->
  P s -> for_from count lo body s = Ok s' -> P s'.
Proof.
  intros Hstep. revert lo s. induction count as [|c IH]; intros lo s Hs Hf; simpl in Hf.
  - now injection Hf as <-.
  - bind_inv Hf. eapply IH; [|exact Hf]. eauto.
Qed.

Lemma for_from_error (E : Error -> Prop) body count lo s e :
  (forall k s e, body k s = Err e -> E e) ->
  for_from count lo body s = Err e -> E e.
Proof.
  intros Hstep. revert lo s. induction count as [|c IH]; intros lo s Hf; simpl in Hf.
  - discriminate.
  - apply bind_Err in Hf as [Hf | (s1 & _ & Hf)]; eauto.
Qed.

Lemma for_stride_preserved (P : St -> Prop) body fuel idx stop step s s' :
  (forall k s s', body k s = Ok s' -> P s -> P s') ->
  P s -> for_stride fuel idx stop step body s = Ok s' -> P s'.
Proof.
  intros Hstep. revert idx s.
  induction fuel as [|f IH]; intros idx s Hs Hf; simpl in Hf;
    destruct (idx <? stop); try discriminate; try (now injection Hf as <-).
  bind_inv Hf. eapply IH; [|exact Hf]. eauto.
Qed.

(** A strided loop with a positive step and a counter that cannot wrap
    terminates within [stop - idx] iterations. *)
Lemma for_stride_inv (Inv : Z -> St -> Prop) body fuel idx stop step s :
  0 < step -> 0 <= idx -> stop + step <= UInt.modulus ->
  stop - idx <= Z.of_nat fuel ->
  Inv idx s ->
  (forall i s, idx <= i < stop -> Inv i s ->
     exists s', body i s = Ok s' /\ Inv (i + step) s') ->
  exists s' i', for_stride fuel idx stop step body s = Ok s' /\ stop <= i' /\ Inv i' s'.
Proof.
  intros Hpos. revert idx s.
  induction fuel as [|f IH]; intros idx s Hidx Hwrap Hfuel H0 Hstep; simpl;
    destruct (Z.ltb_spec idx stop) as [Hlt|Hge]; try lia;
    try (exists s, idx; repeat split; [lia | assumption]).
  destruct (Hstep idx s) as (s1 & Hb & H1); [lia|assumption|].
  rewrite Hb. simpl. rewrite add_small by lia.
  apply IH; [lia|lia|lia|assumption|].
  intros i s0 Hi. apply Hstep. lia.
Qed.

End LoopFacts.

(** ** Facts about matrices and slices *)

Lemma list_inserts_0_full {A} (k l : list A) :
  length k = length l -> list_inserts 0 k l = k.
Proof.
  intros Hlen. apply list_eq. intros j.
  destruct (decide (j < length l)%nat) as [Hj|Hj].
  - rewrite list_lookup_inserts by lia. f_equal. lia.
  - rewrite (proj2 (lookup_ge_None _ _)) by (rewrite length_inserts; lia).
    symmetry. apply lookup_ge_None. lia.
Qed.

Section MatrixFacts.

Context {T : Type} `{!Scalar T}.
Implicit Types m src dst : Matrix T.
Implicit Types x : list T.

Lemma rows_nonneg m : 0 <= rows m.
Proof. unfold rows. lia. Qed.

Lemma overwrite_rows m r c h blk : rows (overwrite m r c h blk) = rows m.
Proof. unfold rows. simpl. now rewrite length_imap. Qed.

Lemma copy_shape src dst r c h w m :
  copy src dst r c h w = Ok m -> rows m = rows dst /\ columns m = columns dst.
Proof.
  unfold copy. destruct (in_view dst r c h w); [|discriminate].
  destruct (_ && _); [|discriminate].
  intros [= <-]. split; [apply overwrite_rows | reflexivity].
Qed.

Lemma copy_error src dst r c h w e :
  copy src dst r c h w = Err e -> e = SliceOutOfRange \/ e = DimensionMismatch.
Proof.
  unfold copy. destruct (in_view dst r c h w); [|intros [= <-]; auto].
  destruct (_ && _); [discriminate|intros [= <-]; auto].
Qed.

Lemma slice_error m r c h w e : slice m r c h w = Err e -> e = SliceOutOfRange.
Proof. unfold slice. destruct (in_view m r c h w); [discriminate|now intros [= <-]]. Qed.

Lemma slice_shape m r c h w s :
  0 <= r -> 0 <= h -> slice m r c h w = Ok s ->
  rows s = h /\ columns s = Z.to_nat w.
Proof.
  intros Hr Hh. unfold slice, in_view.
  destruct (Z.leb_spec (r + h) (rows m)) as [Hv|]; [|discriminate]. simpl.
  destruct (_ <=? _); [|discriminate].
  intros [= <-]. split; [|reflexivity].
  unfold rows in *. simpl. rewrite length_fmap, length_take, length_drop. lia.
Qed.

Lemma row_shape m r h s :
  0 <= r -> 0 <= h -> row m r h = Ok s -> rows s = h /\ columns s = columns m.
Proof.
  intros Hr Hh Hs. apply slice_shape in Hs as [H1 H2]; [|assumption..].
  split; [assumption|]. rewrite H2. unfold cols. lia.
Qed.

Lemma wf_lookup m i r : wf m -> data m !! i = Some r -> length r = columns m.
Proof. unfold wf. rewrite Forall_lookup. eauto. Qed.

Lemma Matrix_new_wf r c : wf (Matrix_new r c).
Proof.
  unfold wf, Matrix_new. simpl. apply Forall_replicate. apply length_replicate.
Qed.

Lemma Matrix_new_rows r c : 0 <= r -> rows (Matrix_new r c) = r.
Proof. intros. unfold rows, Matrix_new. simpl. rewrite length_replicate. lia. Qed.

(** On a well-formed matrix a row slice is a run of whole rows. *)
Lemma row_wf m r h :
  wf m -> 0 <= r -> 0 <= h -> r + h <= rows m ->
  row m r h = Ok (mkMatrix (columns m) (take (Z.to_nat h) (drop (Z.to_nat r) (data m)))).
Proof.
  intros Hwf Hr Hh Hv. unfold row, slice, in_view.
  destruct (Z.leb_spec (r + h) (rows m)); [|lia].
  destruct (Z.leb_spec (0 + cols m) (cols m)); [|lia]. simpl.
  f_equal. unfold cols. rewrite Nat2Z.id. f_equal.
  rewrite <- (list_fmap_id (take _ _)) at 2.
  apply Forall_fmap_ext. apply Forall_take, Forall_drop.
  eapply Forall_impl; [exact Hwf|]. intros l Hl. simpl in *.
  change (Z.to_nat 0) with 0%nat. rewrite drop_0. apply take_ge. lia.
Qed.

Lemma row1_lookup m i x :
  wf m -> 0 <= i -> data m !! Z.to_nat i = Some x ->
  row m i 1 = Ok (mkMatrix (columns m) [x]).
Proof.
  intros Hwf Hi Hx.
  assert (Z.to_nat i < length (data m))%nat by (apply lookup_lt_is_Some; eauto).
  rewrite row_wf; [|assumption|lia|lia|unfold rows; lia].
  do 2 f_equal. apply list_eq. intros [|j].
  - rewrite lookup_take_lt by (simpl; lia). rewrite lookup_drop.
    now rewrite Nat.add_0_r.
  - rewrite lookup_take_ge by (simpl; lia). reflexivity.
Qed.

(** Overwriting whole rows of a well-formed matrix replaces them. *)
Lemma overwrite_whole_rows dst r (blk : list (list T)) :
  wf dst -> Forall (fun x => length x = columns dst) blk -> 0 <= r ->
  overwrite dst r 0 (Z.of_nat (length blk)) blk
  = mkMatrix (columns dst) (list_inserts (Z.to_nat r) blk (data dst)).
Proof.
  intros Hd Hb Hr. unfold overwrite. f_equal. apply list_eq. intros i.
  rewrite list_lookup_imap.
  destruct (data dst !! i) as [old|] eqn:Hold; simpl.
  - assert (i < length (data dst))%nat by (apply lookup_lt_is_Some; eauto).
    destruct (Z.leb_spec r (Z.of_nat i)); simpl.
    + destruct (Z.ltb_spec (Z.of_nat i) (r + Z.of_nat (length blk))).
      * rewrite list_lookup_inserts by lia.
        replace (Z.to_nat (Z.of_nat i - r)) with (i - Z.to_nat r)%nat by lia.
        destruct (blk !! (i - Z.to_nat r)%nat) as [new|] eqn:Hnew.
        -- simpl. f_equal. apply list_inserts_0_full.
           rewrite (wf_lookup _ _ _ Hd Hold).
           eapply (proj1 (Forall_lookup _ _) Hb); eassumption.
        -- apply lookup_ge_None in Hnew. lia.
      * rewrite list_lookup_inserts_ge by lia. now rewrite Hold.
    + rewrite list_lookup_inserts_lt by lia. now rewrite Hold.
  - apply lookup_ge_None in Hold.
    symmetry. apply lookup_ge_None. rewrite length_inserts. lia.
Qed.

(** Copying whole rows into a well-formed matrix replaces them. *)
Lemma copy_rows src dst r :
  wf src -> wf dst -> columns src = columns dst ->
  0 <= r -> r + rows src <= rows dst ->
  copy src dst r 0 (rows src) (cols dst)
  = Ok (mkMatrix (columns dst) (list_inserts (Z.to_nat r) (data src) (data dst))).
Proof.
  intros Hs Hd Hc Hr Hv. unfold copy, in_view.
  destruct (Z.leb_spec (r + rows src) (rows dst)); [|lia].
  destruct (Z.leb_spec (0 + cols dst) (cols dst)); [|lia].
  rewrite Z.eqb_refl. unfold cols at 1 2. rewrite Hc, Z.eqb_refl. simpl.
  f_equal. unfold rows. apply overwrite_whole_rows; try assumption.
  unfold wf in Hs. now rewrite <- Hc.
Qed.

Lemma copy_row1 dst k x :
  wf dst -> length x = columns dst -> 0 <= k < rows dst ->
  copy (mkMatrix (columns dst) [x]) dst k 0 1 (cols dst)
  = Ok (mkMatrix (columns dst) (<[Z.to_nat k := x]> (data dst))).
Proof.
  intros Hd Hx Hk.
  pose proof (copy_rows (mkMatrix (columns dst) [x]) dst k) as H.
  unfold rows at 1 3 in H. simpl in H. apply H; try lia; try reflexivity; try assumption.
  unfold wf. simpl. constructor; [assumption|constructor].
Qed.

Lemma wf_insert m k x :
  wf m -> length x = columns m -> wf (mkMatrix (columns m) (<[k := x]> (data m))).
Proof. unfold wf. simpl. intros. now apply Forall_insert. Qed.

End MatrixFacts.

(** ** Facts about [pad] and [trim] *)

(** Replace the wrapping operations whose operands are known not to wrap. *)
Ltac uint_norm :=
  repeat match goal with
    | |- context [UInt.mul ?a ?b] => rewrite (mul_small a b) by lia
    | |- context [UInt.add ?a ?b] => rewrite (add_small a b) by lia
    | |- context [UInt.sub ?a ?b] => rewrite (sub_small a b) by lia
    end.

Section PadFacts.

Context {T : Type} `{!Scalar T}.
Implicit Types m input : Matrix T.

Lemma pad_write input len ts m i k :
  wf input -> holds_input input len ts m -> 0 <= len ->
  0 <= i < rows input -> 0 <= k < rows m ->
  k < len \/ len + rows input <= k ->
  exists src m',
    row input i 1 = Ok src /\ copy src m k 0 1 (cols m) = Ok m' /\
    holds_input input len ts m'.
Proof.
  intros Hwf (Hc & Hm & Hrows & Hin) Hlen Hi Hk Hout.
  destruct (data input !! Z.to_nat i) as [xi|] eqn:Hxi.
  2: { apply lookup_ge_None in Hxi. unfold rows in Hi. lia. }
  assert (length xi = columns m) as Hxl
    by (rewrite Hc; eapply wf_lookup; eassumption).
  exists (mkMatrix (columns m) [xi]), (mkMatrix (columns m) (<[Z.to_nat k := xi]> (data m))).
  split; [|split].
  - rewrite Hc. now apply row1_lookup; [|lia|].
  - now apply copy_row1.
  - split; [exact Hc|]. split; [now apply wf_insert|]. split.
    + unfold rows in *. simpl. now rewrite length_insert.
    + intros j Hj. simpl. rewrite list_lookup_insert_ne; [now apply Hin|].
      unfold rows in *. lia.
Qed.

(** One row copy of a padding loop: rewrite it to its result [m']. *)
Ltac pad_step input len ts m i k m' :=
  let s := fresh "s" in
  let Hr := fresh "Hr" in
  let Hc := fresh "Hc" in
  let Hrm := fresh "Hrm" in
  assert (rows m = 2 * len + rows input + ts) as Hrm
    by (match goal with H : holds_input input len ts m |- _ => apply H end);
  destruct (pad_write input len ts m i k) as (s & m' & Hr & Hc & ?);
  try assumption; try lia;
  [rewrite Hr; cbn [bind]; rewrite Hc; cbn [bind]; clear Hr Hc].

Lemma pad_initial input len ts :
  wf input -> 0 <= len -> 0 <= ts ->
  exists m0,
    copy input (Matrix_new (2 * len + rows input + ts) (cols input))
         len 0 (rows input) (cols (Matrix_new (2 * len + rows input + ts) (cols input)))
    = Ok m0 /\ holds_input input len ts m0.
Proof.
  intros Hwf Hlen Hts.
  pose proof (rows_nonneg input) as Hn.
  set (dst := Matrix_new (2 * len + rows input + ts) (cols input)).
  assert (columns dst = columns input) as Hc
    by (unfold dst, cols; simpl; lia).
  assert (rows dst = 2 * len + rows input + ts) as Hr
    by (apply Matrix_new_rows; lia).
  rewrite copy_rows; [|assumption|apply Matrix_new_wf|now rewrite Hc|lia|lia].
  eexists. split; [reflexivity|].
  split; [exact Hc|]. split; [|split].
  - unfold wf. simpl. apply Forall_lookup. intros i r Hi.
    apply list_lookup_inserts_Some in Hi as [[_ Hi]|(_ & _ & Hi)].
    + eapply (wf_lookup dst); [apply Matrix_new_wf|exact Hi].
    + change (length r = columns dst). rewrite Hc. eapply wf_lookup; eassumption.
  - unfold rows in *. simpl. now rewrite length_inserts.
  - intros i Hi. simpl. unfold rows in *.
    rewrite list_lookup_inserts by (rewrite ?length_replicate; lia). f_equal. lia.
Qed.

(** [pad] succeeds on a well-formed input with enough rows, and the padded
    sequence holds the input from row [len] on. *)
Lemma pad_ok input len ts p :
  wf input -> p <> NONE -> 0 <= len -> 0 <= ts ->
  2 * len + rows input + ts < UInt.modulus ->
  enough_rows p input len ->
  exists m, pad input len ts p = Ok m /\ holds_input input len ts m.
Proof.
  intros Hwf Hp Hlen Hts Hfit Hrows.
  pose proof (rows_nonneg input) as Hn.
  destruct (pad_initial input len ts Hwf Hlen Hts) as (m0 & H0 & Hinv0).
  assert (forall body,
    (forall k m, 0 <= k < len -> holds_input input len ts m ->
       exists m', body k m = Ok m' /\ holds_input input len ts m') ->
    exists m, for_range len body m0 = Ok m /\ holds_input input len ts m) as Hloop.
  { intros body Hbody.
    apply (for_range_inv (fun _ m => holds_input input len ts m)); assumption. }
  assert (1 <= rows input) as Hn1 by (destruct p; simpl in Hrows; try lia; congruence).
  destruct p; [congruence|..]; unfold pad;
    (destruct (Z.ltb_spec (rows input) 1); [lia|]);
    uint_norm; rewrite H0; cbn [bind]; simpl in Hrows.
  - eauto.
  - apply Hloop. intros k m Hk Hinv. uint_norm.
    pad_step input len ts m 0 k m1.
    pad_step input len ts m1 (rows input - 1) (rows input + len + k) m2.
    eauto.
  - destruct (Z.ltb_spec (rows input) len); [lia|].
    apply Hloop. intros k m Hk Hinv. uint_norm.
    pad_step input len ts m (rows input - len + k) k m1.
    pad_step input len ts m1 k (rows input + len + k) m2.
    eauto.
  - destruct (Z.ltb_spec (rows input) (len + 1)); [lia|].
    apply Hloop. intros k m Hk Hinv. uint_norm.
    pad_step input len ts m (k + 1) (len - 1 - k) m1.
    pad_step input len ts m1 (rows input - 2 - k) (rows input + len + k) m2.
    eauto.
Qed.

(** Trimming a padded sequence returns the rows of the input, read
    [timeShift] rows later. *)
Lemma trim_holds_input input len ts p m :
  holds_input input len ts m -> p <> NONE -> 0 <= len -> 0 <= ts ->
  2 * len + rows input + ts < UInt.modulus ->
  exists y,
    trim m len ts p = Ok y /\ rows y = rows input /\ columns y = columns input /\
    (forall i, (i + Z.to_nat ts < length (data input))%nat ->
               data y !! i = data input !! (i + Z.to_nat ts)%nat) /\
    (ts = 0 -> y = input).
Proof.
  intros (Hc & Hm & Hrows & Hin) Hp Hlen Hts Hfit.
  pose proof (rows_nonneg input) as Hn.
  assert (trim m len ts p
          = row m (len + ts) (rows input)) as ->.
  { destruct p; [congruence|..]; unfold trim; rewrite Hrows; uint_norm;
      f_equal; lia. }
  rewrite row_wf by (assumption || lia).
  eexists. split; [reflexivity|].
  assert (forall i, (i + Z.to_nat ts < length (data input))%nat ->
            take (Z.to_nat (rows input)) (drop (Z.to_nat (len + ts)) (data m)) !! i
            = data input !! (i + Z.to_nat ts)%nat) as Hlook.
  { intros i Hi. unfold rows in *.
    rewrite lookup_take_lt by lia. rewrite lookup_drop, <- Hin by lia.
    f_equal. lia. }
  split; [|split; [exact Hc|split; [exact Hlook|]]].
  - unfold rows in *. simpl. rewrite length_take, length_drop. lia.
  - intros ->. destruct input as [c d]. simpl in *. f_equal; [exact Hc|].
    apply list_eq. intros i. unfold rows in *. simpl in *.
    destruct (decide (i < length d)%nat) as [Hi|Hi].
    + rewrite Hlook by (simpl; lia). f_equal. simpl. lia.
    + rewrite lookup_take_ge by lia. symmetry. apply lookup_ge_None. lia.
Qed.

End PadFacts.

(** ** Claims about [pad] and [trim] *)

(** Every exception raised below the explicit checks of [pad] comes from
    the matrix collaborator. *)
Ltac library_errors H :=
  repeat (apply bind_Err in H as [H | (? & _ & H)]);
  first [ apply slice_error in H; left; exact H
        | apply copy_error in H; exact H ].

Section PadClaims.

Context {T : Type} `{!Scalar T}.
Implicit Types m input : Matrix T.

Lemma pad_loop_error (body : Z -> Matrix T -> result (Matrix T)) n m e :
  (forall k m e, body k m = Err e -> library_error e) ->
  for_range n body m = Err e -> e <> InvalidPadding /\ e <> ZeroLengthInput.
Proof.
  intros Hbody Hf.
  apply (for_from_error library_error) in Hf; [|exact Hbody].
  destruct Hf as [-> | ->]; split; discriminate.
Qed.

(** The first copy of [pad] succeeds whenever the padded row count does
    not wrap. *)
Lemma pad_initial_copy input len ts :
  0 <= len -> 0 <= ts -> 2 * len + rows input + ts < UInt.modulus ->
  exists padded,
    copy input (Matrix_new (2 * len + rows input + ts) (cols input))
         len 0 (rows input) (cols (Matrix_new (2 * len + rows input + ts) (cols input)))
    = Ok padded.
Proof.
  intros Hlen Hts Hfit. pose proof (rows_nonneg input) as Hn.
  assert (cols (Matrix_new (2 * len + rows input + ts) (cols input)) = cols input)
    as Hc by (unfold cols; simpl; lia).
  unfold copy, in_view. rewrite Hc, Matrix_new_rows by lia.
  destruct (Z.leb_spec (len + rows input) (2 * len + rows input + ts)); [|lia].
  destruct (Z.leb_spec (0 + cols input) (cols input)); [|lia].
  rewrite !Z.eqb_refl. simpl. eauto.
Qed.

(** C1 (amended): for every policy other than [NONE] and every input with
    enough rows for it, [pad] followed by [trim] succeeds and returns a
    matrix of the shape of the input whose row [i] is row [i + timeShift]
    of the input (while that row exists); with [timeShift = 0] it returns
    the input exactly. *)
Theorem trim_pad_shifted input len ts p :
  wf input -> p <> NONE -> 0 <= len -> 0 <= ts ->
  2 * len + rows input + ts < UInt.modulus ->
  enough_rows p input len ->
  exists padded y,
    pad input len ts p = Ok padded /\ trim padded len ts p = Ok y /\
    rows y = rows input /\ columns y = columns input /\
    (forall i, (i + Z.to_nat ts < length (data input))%nat ->
               data y !! i = data input !! (i + Z.to_nat ts)%nat) /\
    (ts = 0 -> y = input).
Proof.
  intros Hwf Hp Hlen Hts Hfit Hrows.
  destruct (pad_ok input len ts p) as (padded & Hpad & Hinv); try assumption.
  destruct (trim_holds_input input len ts p padded) as (y & Htrim & Hy); try assumption.
  exists padded, y. auto.
Qed.

(** C7 (amended): [pad] with a policy other than [NONE] raises
    [ZeroLengthInput] on an input without rows; periodic padding raises
    [InvalidPadding] exactly when [1 <= rows input < len], symmetric
    padding exactly when [1 <= rows input < len + 1]; zero and constant
    padding raise neither on a non-empty input. *)
Theorem pad_error_kinds input len ts :
  0 <= len -> 0 <= ts -> 2 * len + rows input + ts < UInt.modulus ->
  (forall p, p <> NONE -> rows input = 0 ->
             pad input len ts p = Err ZeroLengthInput) /\
  (pad input len ts PERIODIC = Err InvalidPadding <-> 1 <= rows input < len) /\
  (pad input len ts SYMMETRIC = Err InvalidPadding <-> 1 <= rows input < len + 1) /\
  (forall p, p = ZERO \/ p = CONSTANT -> 1 <= rows input ->
             pad input len ts p <> Err ZeroLengthInput /\
             pad input len ts p <> Err InvalidPadding).
Proof.
  intros Hlen Hts Hfit. pose proof (rows_nonneg input) as Hn.
  destruct (pad_initial_copy input len ts Hlen Hts Hfit) as (padded & Hcopy).
  split; [|split; [|split]].
  - intros p Hp Hz. destruct p; [congruence|..]; unfold pad;
      (destruct (Z.ltb_spec (rows input) 1); [reflexivity|lia]).
  - unfold pad. destruct (Z.ltb_spec (rows input) 1) as [H1|H1].
    { split; [discriminate|lia]. }
    uint_norm. rewrite Hcopy. cbn [bind].
    destruct (Z.ltb_spec (rows input) len) as [H2|H2].
    { split; [lia|reflexivity]. }
    split; [|lia]. intros Hf. exfalso.
    apply pad_loop_error in Hf; [now destruct Hf|].
    intros k m e He. library_errors He.
  - unfold pad. destruct (Z.ltb_spec (rows input) 1) as [H1|H1].
    { split; [discriminate|lia]. }
    uint_norm. rewrite Hcopy. cbn [bind].
    destruct (Z.ltb_spec (rows input) (len + 1)) as [H2|H2].
    { split; [lia|reflexivity]. }
    split; [|lia]. intros Hf. exfalso.
    apply pad_loop_error in Hf; [now destruct Hf|].
    intros k m e He. library_errors He.
  - intros p Hp H1.
    assert (forall e, pad input len ts p = Err e -> library_error e) as Hlib.
    { intros e. destruct Hp as [-> | ->]; unfold pad;
        (destruct (Z.ltb_spec (rows input) 1); [lia|]);
        uint_norm; rewrite Hcopy; cbn [bind].
      - discriminate.
      - intros Hf. apply (for_from_error library_error) in Hf; [exact Hf|].
        intros k m e0 He. library_errors He. }
    split; intros He; apply Hlib in He as [?|?]; discriminate.
Qed.

End PadClaims.

Import ZInst.

Lemma trim_pad_shifted_witness :
  wf ex3 /\ SYMMETRIC <> NONE /\ enough_rows SYMMETRIC ex3 2 /\
  exists padded y,
    pad ex3 2 0 SYMMETRIC = Ok padded /\ trim padded 2 0 SYMMETRIC = Ok y /\
    rows y = rows ex3 /\ columns y = columns ex3 /\
    (forall i, (i + Z.to_nat 0 < length (data ex3))%nat ->
               data y !! i = data ex3 !! (i + Z.to_nat 0)%nat) /\
    (0 = 0 -> y = ex3).
Proof.
  assert (wf ex3) as Hwf by (repeat constructor).
  assert (enough_rows SYMMETRIC ex3 2) as Hrows by (vm_compute; discriminate).
  split; [exact Hwf|]. split; [discriminate|]. split; [exact Hrows|].
  apply (trim_pad_shifted ex3 2 0 SYMMETRIC);
    [exact Hwf | discriminate | lia | lia | reflexivity | exact Hrows].
Defined.

(** C1 as stated fails once [timeShift > 0]: constant padding of the rows
    1, 2, 3 by one row with a time shift of one row gives 1, 1, 2, 3, 3, 0,
    and trimming it returns 2, 3, 3. *)
Lemma trim_pad_not_identity :
  wf ex3 /\ enough_rows CONSTANT ex3 1 /\
  pad ex3 1 1 CONSTANT = Ok (mkMatrix 1 [[1]; [1]; [2]; [3]; [3]; [0]]) /\
  trim (mkMatrix 1 [[1]; [1]; [2]; [3]; [3]; [0]]) 1 1 CONSTANT
  = Ok (mkMatrix 1 [[2]; [3]; [3]]) /\
  mkMatrix 1 [[2]; [3]; [3]] <> ex3.
Proof.
  split; [repeat constructor|]. split; [vm_compute; discriminate|].
  split; [reflexivity|]. split; [reflexivity|]. discriminate.
Qed.

Lemma pad_error_kinds_witness :
  0 <= 5 /\ 0 <= 0 /\ 2 * 5 + rows ex3 + 0 < UInt.modulus /\
  (forall p, p <> NONE -> rows ex3 = 0 -> pad ex3 5 0 p = Err ZeroLengthInput) /\
  (pad ex3 5 0 PERIODIC = Err InvalidPadding <-> 1 <= rows ex3 < 5) /\
  (pad ex3 5 0 SYMMETRIC = Err InvalidPadding <-> 1 <= rows ex3 < 5 + 1) /\
  (forall p, p = ZERO \/ p = CONSTANT -> 1 <= rows ex3 ->
             pad ex3 5 0 p <> Err ZeroLengthInput /\
             pad ex3 5 0 p <> Err InvalidPadding).
Proof.
  split; [lia|]. split; [lia|]. split; [reflexivity|].
  apply (pad_error_kinds ex3 5 0); [lia | lia | reflexivity].
Defined.

(** C7 as stated fails on an input without rows: periodic padding then
    raises [ZeroLengthInput], not [InvalidPadding], although
    [rows input < len]; and likewise for symmetric padding. *)
Lemma pad_empty_not_invalid_padding :
  rows (mkMatrix 1 ([] : list (list Z))) < 1 /\
  pad (mkMatrix 1 []) 1 0 PERIODIC = Err ZeroLengthInput /\
  pad (mkMatrix 1 []) 1 0 PERIODIC <> Err InvalidPadding /\
  pad (mkMatrix 1 []) 1 0 SYMMETRIC = Err ZeroLengthInput /\
  pad (mkMatrix 1 []) 1 0 SYMMETRIC <> Err InvalidPadding.
Proof. repeat split; try reflexivity; discriminate. Qed.

(** ** Warmup length and the input check of [filter] *)

Section WarmupClaims.

Context {T C : Type} `{!Scalar T} `{!Spectral T C}.
Implicit Types f : @DigitalFilterARMA T.

Lemma zlen_nonneg {A} (l : list A) : 0 <= zlen l.
Proof. unfold zlen. lia. Qed.

Lemma zlen_pos {A} (l : list A) : l <> [] -> 1 <= zlen l.
Proof. destruct l; [congruence|]. unfold zlen. simpl. lia. Qed.

(** C3: with non-empty coefficient vectors (of a size that fits a [UInt])
    and [0 <= bnStartIndex < length bn], [warmup] is the maximum of
    [length bn - bnStartIndex - 1], [bnStartIndex] and [3 * length an]. *)
Theorem warmup_formula f :
  bn f <> [] -> an f <> [] -> 0 <= bnStartIndex f < zlen (bn f) ->
  zlen (bn f) < UInt.modulus -> 3 * zlen (an f) < UInt.modulus ->
  warmup f
  = Z.max (Z.max (zlen (bn f) - bnStartIndex f - 1) (bnStartIndex f)) (3 * zlen (an f)).
Proof.
  intros Hb Ha Hs Hbfit Hafit. apply zlen_pos in Hb, Ha.
  unfold warmup. uint_norm. reflexivity.
Qed.

(** C2 (amended): for [bn] of length 5, [bnStartIndex = 2] and [an] of
    length 1, [warmup] returns 3, the maximum of 5-2-1, 2 and 3*1. *)
Theorem warmup_five_taps f :
  zlen (bn f) = 5 -> bnStartIndex f = 2 -> zlen (an f) = 1 -> warmup f = 3.
Proof.
  intros Hb Hs Ha. unfold warmup. rewrite Hb, Hs, Ha. reflexivity.
Qed.

(** C8: an input with fewer rows than [warmup] is rejected with
    [InsufficientInputLength]; the check is the first thing [filter] does,
    so neither [pad] nor a filtering path is entered. *)
Theorem filter_rejects_short f (input : Matrix T) :
  rows input < warmup f -> filter f input = Err InsufficientInputLength.
Proof.
  intros Hshort. unfold filter.
  now destruct (Z.ltb_spec (rows input) (warmup f)); [|lia].
Qed.

End WarmupClaims.

Lemma warmup_formula_witness :
  bn ZInst.five_taps <> [] /\ an ZInst.five_taps <> [] /\
  warmup ZInst.five_taps
  = Z.max (Z.max (zlen (bn ZInst.five_taps) - bnStartIndex ZInst.five_taps - 1)
                 (bnStartIndex ZInst.five_taps))
          (3 * zlen (an ZInst.five_taps)).
Proof.
  split; [discriminate|]. split; [discriminate|].
  apply (warmup_formula ZInst.five_taps);
    [discriminate | discriminate | split; reflexivity || discriminate
    | reflexivity | reflexivity].
Defined.

Lemma warmup_five_taps_witness :
  zlen (bn ZInst.five_taps) = 5 /\ warmup ZInst.five_taps = 3.
Proof.
  split; [reflexivity|].
  apply (warmup_five_taps ZInst.five_taps); reflexivity.
Defined.

(** C2 as stated fails: the configuration of the example has a warmup of 3,
    not 2, because [3 * length an] is 3 for a single feedback tap. *)
Lemma warmup_five_taps_not_2 :
  zlen (bn ZInst.five_taps) = 5 /\ bnStartIndex ZInst.five_taps = 2 /\
  zlen (an ZInst.five_taps) = 1 /\ warmup ZInst.five_taps = 3 /\
  warmup ZInst.five_taps <> 2.
Proof. repeat split; try reflexivity. discriminate. Qed.

Import RInst.

Lemma filter_rejects_short_witness :
  rows RInst.ramp2 < warmup (RInst.identity_filter ZERO) /\
  filter (RInst.identity_filter ZERO) RInst.ramp2 = Err InsufficientInputLength.
Proof.
  assert (rows RInst.ramp2 < warmup (RInst.identity_filter ZERO)) as H by reflexivity.
  split; [exact H|].
  exact (filter_rejects_short (RInst.identity_filter ZERO) RInst.ramp2 H).
Defined.

(** ** The frequency response of a chain *)

Section ChainFacts.

Context {T C : Type} `{!Scalar T} `{!Spectral T C}.
Implicit Types F H : list C.

Lemma vec_at_lookup {A} (v : list A) k x :
  0 <= k -> v !! Z.to_nat k = Some x -> vec_at v k = Ok x.
Proof. intros _ Hx. unfold vec_at. now rewrite Hx. Qed.

Lemma vec_set_ok {A} (v : list A) k x :
  0 <= k < zlen v -> vec_set v k x = Ok (<[Z.to_nat k := x]> v).
Proof.
  intros Hk. unfold vec_set, zlen in *.
  destruct (Nat.ltb_spec (Z.to_nat k) (length v)); [reflexivity|lia].
Qed.

(** The multiplication loop of the chain is the element-wise product on the
    first [length H] entries. *)
Lemma multiply_into_ok F H :
  (length H <= length F)%nat ->
  multiply_into F H = Ok (zip_with cmul F H ++ drop (length H) F).
Proof.
  intros Hlen. unfold multiply_into.
  set (Z := zip_with cmul F H).
  assert (length Z = length H) as HZ
    by (unfold Z; rewrite length_zip_with; lia).
  destruct (for_range_inv
              (fun k F' => F' = take (Z.to_nat k) Z ++ drop (Z.to_nat k) F)
              (fun k F0 => let* x := vec_at F0 k in
                           let* h := vec_at H k in vec_set F0 k (cmul x h))
              (zlen H) F) as (F' & Hrun & Hinv).
  - apply zlen_nonneg.
  - reflexivity.
  - intros k F0 Hk ->. unfold zlen in Hk.
    destruct (F !! Z.to_nat k) as [x|] eqn:Hx.
    2: { apply lookup_ge_None in Hx. lia. }
    destruct (H !! Z.to_nat k) as [h|] eqn:Hh.
    2: { apply lookup_ge_None in Hh. lia. }
    assert (Z !! Z.to_nat k = Some (cmul x h)) as Hz
      by (unfold Z; rewrite lookup_zip_with, Hx, Hh; reflexivity).
    assert (length (take (Z.to_nat k) Z) = Z.to_nat k) as Htk
      by (rewrite length_take; lia).
    rewrite (vec_at_lookup _ k x); [|lia|].
    2: { rewrite lookup_app_r by lia. rewrite Htk, Nat.sub_diag, lookup_drop.
         now rewrite Nat.add_0_r. }
    cbn [bind]. rewrite (vec_at_lookup _ k h) by (lia || assumption). cbn [bind].
    rewrite vec_set_ok.
    2: { unfold zlen. rewrite length_app, length_drop. lia. }
    eexists. split; [reflexivity|].
    replace (Z.to_nat (k + 1)) with (S (Z.to_nat k)) by lia.
    rewrite (take_S_r _ _ _ Hz), <- app_assoc. simpl.
    rewrite insert_app_r_alt by lia. rewrite Htk, Nat.sub_diag.
    now rewrite (drop_S _ _ _ Hx).
  - rewrite Hrun, Hinv. f_equal. unfold zlen. rewrite Nat2Z.id.
    now rewrite take_ge by lia.
Qed.

Lemma multiply_into_same_length F H :
  length H = length F -> multiply_into F H = Ok (zip_with cmul F H).
Proof.
  intros Hlen. rewrite multiply_into_ok by lia.
  rewrite drop_ge by lia. now rewrite app_nil_r.
Qed.

Lemma chain_response_ok (filters : list (@DigitalFilterBase T C)) Hs len n F :
  length F = n ->
  Forall2 (fun f H => base_frequencyResponse f len = Ok H /\ length H = n) filters Hs ->
  chain_response filters len F = Ok (foldl (zip_with cmul) F Hs) /\
  length (foldl (zip_with cmul) F Hs) = n.
Proof.
  intros HF Hall. revert F HF.
  induction Hall as [|f H filters Hs (Hf & HH) _ IH]; intros F HF.
  - now split.
  - simpl. rewrite Hf. cbn [bind].
    rewrite multiply_into_same_length by lia. cbn [bind].
    apply IH. rewrite length_zip_with. lia.
Qed.

(** C6: when every member answers [frequencyResponse(length)] with a vector
    of [(length+2)/2] values, the chain returns the element-wise product of
    these vectors, starting from the constant one, and it has
    [(length+2)/2] values; for the empty chain it is the vector of ones. *)
Theorem chain_frequencyResponse (filters : list (@DigitalFilterBase T C)) Hs len :
  0 <= len -> len + 2 < UInt.modulus ->
  Forall2 (fun f H => base_frequencyResponse f len = Ok H /\ zlen H = (len + 2) / 2)
          filters Hs ->
  DigitalFilter_frequencyResponse filters len
  = Ok (elementwise_product (Z.to_nat ((len + 2) / 2)) Hs) /\
  zlen (elementwise_product (Z.to_nat ((len + 2) / 2)) Hs) = (len + 2) / 2 /\
  (filters = [] ->
   DigitalFilter_frequencyResponse filters len
   = Ok (replicate (Z.to_nat ((len + 2) / 2)) cone)).
Proof.
  intros Hlen Hfit Hall.
  assert (0 <= (len + 2) / 2) as Hn by (apply Z.div_pos; lia).
  unfold DigitalFilter_frequencyResponse, elementwise_product. uint_norm.
  destruct (chain_response_ok filters Hs len (Z.to_nat ((len + 2) / 2))
              (replicate (Z.to_nat ((len + 2) / 2)) cone)) as (Hrun & Hl).
  { apply length_replicate. }
  { eapply Forall2_impl; [exact Hall|]. intros f H (Hf & HH). split; [exact Hf|].
    unfold zlen in HH. lia. }
  split; [exact Hrun|]. split.
  - unfold zlen. rewrite Hl. lia.
  - intros ->. reflexivity.
Qed.

End ChainFacts.

Lemma chain_frequencyResponse_witness :
  0 <= 2 /\ 2 + 2 < UInt.modulus /\
  DigitalFilter_frequencyResponse RInst.chain2 2
  = Ok (elementwise_product (Z.to_nat ((2 + 2) / 2))
          [[(2, 0); (0, 1)]; [(1, 1); (3, 0)]]%R) /\
  zlen (elementwise_product (Z.to_nat ((2 + 2) / 2))
          [[(2, 0); (0, 1)]; [(1, 1); (3, 0)]]%R) = (2 + 2) / 2 /\
  (RInst.chain2 = [] ->
   DigitalFilter_frequencyResponse RInst.chain2 2
   = Ok (replicate (Z.to_nat ((2 + 2) / 2)) cone)).
Proof.
  split; [lia|]. split; [reflexivity|].
  apply (chain_frequencyResponse RInst.chain2 [[(2, 0); (0, 1)]; [(1, 1); (3, 0)]]%R 2);
    [lia | reflexivity |].
  repeat constructor.
Defined.

(** ** The frequency response of an ARMA filter *)

Section ResponseFacts.

Context {T C : Type} `{!Scalar T} `{!Spectral T C}.
Implicit Types f : @DigitalFilterARMA T.
Implicit Types v src dst : list T.

Lemma Vector_row_ok v r h :
  0 <= r -> 0 <= h -> r + h <= zlen v ->
  Vector_row v r h = Ok (take (Z.to_nat h) (drop (Z.to_nat r) v)) /\
  zlen (take (Z.to_nat h) (drop (Z.to_nat r) v)) = h.
Proof.
  intros Hr Hh Hv. unfold Vector_row.
  destruct (Z.leb_spec (r + h) (zlen v)); [|lia]. split; [reflexivity|].
  unfold zlen in *. rewrite length_take, length_drop. lia.
Qed.

Lemma Vector_copy_ok src dst r h :
  0 <= r -> r + h <= zlen dst -> zlen src = h ->
  Vector_copy src dst r h = Ok (list_inserts (Z.to_nat r) src dst) /\
  zlen (list_inserts (Z.to_nat r) src dst) = zlen dst.
Proof.
  intros Hr Hv Hs. unfold Vector_copy.
  destruct (Z.leb_spec (r + h) (zlen dst)); [|lia].
  rewrite Hs, Z.eqb_refl. split; [reflexivity|].
  unfold zlen. now rewrite length_inserts.
Qed.

Lemma elem_ok v i : 0 <= i < zlen v -> exists x, elem v i = Ok x.
Proof.
  intros Hi. unfold elem, zlen in *.
  destruct (v !! Z.to_nat i) as [x|] eqn:Hx; [eauto|].
  apply lookup_ge_None in Hx. lia.
Qed.

Lemma swap_elems_ok v i j :
  0 <= i < zlen v -> 0 <= j < zlen v ->
  exists v', swap_elems v i j = Ok v' /\ zlen v' = zlen v.
Proof.
  intros Hi Hj. unfold swap_elems.
  destruct (elem_ok v i Hi) as (x & ->). destruct (elem_ok v j Hj) as (y & ->).
  cbn [bind]. eexists. split; [reflexivity|].
  unfold zlen. now rewrite !length_insert.
Qed.

(** Every index of the reflection loop is in bounds when the coefficient
    support is strictly shorter than the padded vectors. *)
Lemma reflection_indices_in_bounds f len :
  Z.max (zlen (bn f)) (zlen (an f)) < len -> len < UInt.modulus ->
  Forall (fun i => 0 <= i < len) (reflection_indices f len).
Proof.
  intros Hmax Hfit. unfold reflection_indices.
  apply Forall_forall. intros i Hi.
  apply list_elem_of_join in Hi as (l & Hi & Hl).
  apply list_elem_of_fmap in Hl as (k & -> & Hk).
  apply elem_of_seqZ in Hk.
  rewrite add_small, sub_small in Hi by (rewrite ?sub_small; lia).
  rewrite sub_small in Hi by lia.
  apply elem_of_cons in Hi as [-> | Hi]; [lia|].
  apply list_elem_of_singleton in Hi as ->. lia.
Qed.

(** When the coefficient support is as long as the padded vectors, the
    loop touches index [len], one past their end. *)
Lemma reflection_index_past_the_end f len :
  Z.max (zlen (bn f)) (zlen (an f)) = len -> 1 <= len < UInt.modulus ->
  len ∈ reflection_indices f len.
Proof.
  intros Hmax Hlen. unfold reflection_indices.
  apply list_elem_of_join. exists [UInt.add (len - 1) 1; UInt.sub (UInt.sub len 1) (len - 1)].
  split.
  - rewrite add_small by lia. replace (len - 1 + 1) with len by lia. apply list_elem_of_here.
  - apply list_elem_of_fmap. exists (len - 1). split; [reflexivity|].
    apply elem_of_seqZ. lia.
Qed.

(** The construction of the padded coefficient vectors succeeds; both have
    [len] entries. *)
Lemma padded_coefficients_ok f len :
  zlen (bn f) <= len -> zlen (an f) <= len ->
  0 <= bnStartIndex f <= zlen (bn f) -> len < UInt.modulus ->
  (backward f = true -> Z.max (zlen (bn f)) (zlen (an f)) < len) ->
  exists aPad bPad,
    padded_coefficients f len = Ok (aPad, bPad) /\ zlen aPad = len /\ zlen bPad = len.
Proof.
  intros Hb Ha Hs Hfit Hback.
  pose proof (zlen_nonneg (bn f)) as Hbn. pose proof (zlen_nonneg (an f)) as Han.
  assert (zlen (Vector_new len) = len) as Hnew
    by (unfold zlen, Vector_new; rewrite length_replicate; lia).
  unfold padded_coefficients. uint_norm.
  destruct (Vector_row_ok (bn f) (bnStartIndex f) (zlen (bn f) - bnStartIndex f))
    as (-> & Hl1); try lia. cbn [bind].
  match goal with |- context [Vector_copy ?s ?d ?r ?h] =>
    destruct (Vector_copy_ok s d r h) as (-> & Hl2); try lia;
    set (b1 := list_inserts (Z.to_nat r) s d) in * end.
  cbn [bind].
  destruct (Vector_row_ok (bn f) 0 (bnStartIndex f)) as (-> & Hl3); try lia.
  cbn [bind]. rewrite Hl2, Hnew. uint_norm.
  match goal with |- context [Vector_copy ?s ?d ?r ?h] =>
    destruct (Vector_copy_ok s d r h) as (-> & Hl4); try lia;
    set (b2 := list_inserts (Z.to_nat r) s d) in * end.
  cbn [bind].
  match goal with |- context [Vector_copy ?s ?d ?r ?h] =>
    destruct (Vector_copy_ok s d r h) as (-> & Hl5); try lia;
    set (a1 := list_inserts (Z.to_nat r) s d) in * end.
  cbn [bind].
  assert (zlen a1 = len /\ zlen b2 = len) as Hinit by lia.
  clearbody a1 b2. clear Hl1 Hl2 Hl3 Hl4 Hl5 b1.
  destruct (backward f) eqn:Hbw; [|exists a1, b2; tauto].
  specialize (Hback eq_refl).
  destruct (for_range_inv
    (fun _ (ab : list T * list T) => zlen (fst ab) = len /\ zlen (snd ab) = len)
    (fun k ab =>
       let* aPad := swap_elems (fst ab) (UInt.add k 1)
                      (UInt.sub (UInt.sub (zlen (fst ab)) 1) k) in
       let* bPad := swap_elems (snd ab) (UInt.add k 1)
                      (UInt.sub (UInt.sub (zlen (snd ab)) 1) k) in
       Ok (aPad, bPad))
    (Z.max (zlen (bn f)) (zlen (an f))) (a1, b2))
    as ([a b] & Hrun & Ha' & Hb'); [lia|exact Hinit| |eauto].
  intros k [a b] Hk (Ha' & Hb'). simpl in *. rewrite Ha', Hb'. uint_norm.
  destruct (swap_elems_ok a (k + 1) (len - 1 - k)) as (a' & -> & Hla); try lia.
  cbn [bind].
  destruct (swap_elems_ok b (k + 1) (len - 1 - k)) as (b' & -> & Hlb); try lia.
  cbn [bind]. eexists. split; [reflexivity|]. simpl. lia.
Qed.

(** The quotient loop: bin by bin [B/A] where [|A| > 0], and one
    elsewhere. *)
Lemma response_of_spectra_ok (A B : list C) :
  length B = length A ->
  response_of_spectra A B
  = Ok (zip_with (fun a b => if gtb (cabs a) zero then cdiv b a else cone) A B).
Proof.
  intros Hlen. unfold response_of_spectra.
  set (Z := zip_with (fun a b => if gtb (cabs a) zero then cdiv b a else cone) A B).
  assert (length Z = length A) as HZ
    by (unfold Z; rewrite length_zip_with; lia).
  destruct (for_range_inv
              (fun k F => F = take (Z.to_nat k) Z
                              ++ drop (Z.to_nat k) (replicate (length A) czero))
              (fun k F =>
                 let* a := vec_at A k in
                 let* v := if gtb (cabs a) zero
                           then (let* b := vec_at B k in
                                 let* a' := vec_at A k in Ok (cdiv b a'))
                           else Ok cone in
                 vec_set F k v)
              (zlen A) (replicate (length A) czero)) as (F & Hrun & Hinv).
  - apply zlen_nonneg.
  - reflexivity.
  - intros k F Hk ->. unfold zlen in Hk.
    destruct (A !! Z.to_nat k) as [a|] eqn:Hxa.
    2: { apply lookup_ge_None in Hxa. lia. }
    destruct (B !! Z.to_nat k) as [b|] eqn:Hxb.
    2: { apply lookup_ge_None in Hxb. lia. }
    assert (Z !! Z.to_nat k = Some (if gtb (cabs a) zero then cdiv b a else cone)) as Hz
      by (unfold Z; rewrite lookup_zip_with, Hxa, Hxb; reflexivity).
    assert (length (take (Z.to_nat k) Z) = Z.to_nat k) as Htk
      by (rewrite length_take; lia).
    assert (replicate (length A) czero !! Z.to_nat k = Some czero) as Hzero
      by (apply lookup_replicate_2; lia).
    rewrite (vec_at_lookup A k a), (vec_at_lookup B k b) by (lia || assumption).
    cbn [bind].
    assert ((if gtb (cabs a) zero then Ok (cdiv b a) else Ok cone)
            = Ok (if gtb (cabs a) zero then cdiv b a else cone)) as ->
      by (now destruct (gtb (cabs a) zero)).
    cbn [bind]. rewrite vec_set_ok.
    2: { unfold zlen. rewrite length_app, length_drop, length_replicate. lia. }
    eexists. split; [reflexivity|].
    replace (Z.to_nat (k + 1)) with (S (Z.to_nat k)) by lia.
    rewrite (take_S_r _ _ _ Hz), <- app_assoc. simpl.
    rewrite insert_app_r_alt by lia. rewrite Htk, Nat.sub_diag.
    now rewrite (drop_S _ _ _ Hzero).
  - rewrite Hrun, Hinv. f_equal. unfold zlen. rewrite Nat2Z.id.
    rewrite take_ge by lia. rewrite drop_ge by (rewrite length_replicate; lia).
    apply app_nil_r.
Qed.

(** C5 (amended): when the response is computed (the length covers the
    coefficient vectors, and the reflection of a backward filter stays in
    its vectors), no error is raised, and the value at bin [k] is
    [B(k)/A(k)] where the modulus of the feedback spectrum [A(k)] is [> 0],
    and 1 at every other bin: where the modulus is zero, and where the
    comparison fails for another reason (a NaN modulus).  The test is the
    [std::abs(A.at(k)) > 0.] of the source; of [Double] only [0 > 0 = false]
    is used, for the bins of modulus zero. *)
Theorem frequencyResponse_bins f len :
  gtb zero zero = false ->
  (forall u v : list T, length u = length v -> length (fft u) = length (fft v)) ->
  zlen (bn f) <= len -> zlen (an f) <= len ->
  0 <= bnStartIndex f <= zlen (bn f) -> len < UInt.modulus ->
  (backward f = true -> Z.max (zlen (bn f)) (zlen (an f)) < len) ->
  exists aPad bPad F,
    padded_coefficients f len = Ok (aPad, bPad) /\
    frequencyResponse f len = Ok F /\
    length F = length (fft aPad) /\
    forall k a b, fft aPad !! k = Some a -> fft bPad !! k = Some b ->
      (gtb (cabs a) zero = true -> F !! k = Some (cdiv b a)) /\
      (gtb (cabs a) zero = false -> F !! k = Some cone) /\
      (cabs a = zero -> F !! k = Some cone).
Proof.
  intros Hirr Hfft Hb Ha Hs Hfit Hback.
  destruct (padded_coefficients_ok f len) as (aPad & bPad & Hpc & Hla & Hlb);
    try assumption.
  assert (length (fft bPad) = length (fft aPad)) as Hlen
    by (apply Hfft; unfold zlen in *; lia).
  exists aPad, bPad. eexists. split; [exact Hpc|].
  unfold frequencyResponse.
  destruct (Z.gtb_spec (zlen (bn f)) len); [lia|].
  destruct (Z.gtb_spec (zlen (an f)) len); [lia|].
  simpl orb. cbv iota. rewrite Hpc. cbn [bind fst snd].
  rewrite response_of_spectra_ok by exact Hlen.
  split; [reflexivity|]. split.
  - rewrite length_zip_with. lia.
  - intros k a b Hka Hkb. rewrite lookup_zip_with, Hka, Hkb. simpl.
    split; [|split].
    + now intros ->.
    + now intros ->.
    + intros ->. now rewrite Hirr.
Qed.

End ResponseFacts.

(** *** The exact real instance satisfies the idealisation *)

Lemma R_gtb_irrefl : gtb (zero : R) zero = false.
Proof. simpl. destruct (Rlt_dec 0 0) as [H|H]; [lra|reflexivity]. Qed.

Lemma R_cabs_pos (z : RInst.Cx) : cabs z <> (zero : R) -> gtb (cabs z) (zero : R) = true.
Proof.
  simpl. unfold RInst.Cx_abs. intros Hne.
  destruct (Rlt_dec 0 (sqrt (fst z * fst z + snd z * snd z))) as [H|H]; [reflexivity|].
  pose proof (sqrt_pos (fst z * fst z + snd z * snd z)). lra.
Qed.

Lemma R_fft_length (u v : list R) :
  length u = length v -> length (fft u) = length (fft v).
Proof.
  intros Hlen. simpl. unfold RInst.dft. rewrite !length_fmap, !length_seq.
  now rewrite Hlen.
Qed.

Lemma frequencyResponse_bins_witness :
  zlen (bn RInst.integrator) <= 2 /\ zlen (an RInst.integrator) <= 2 /\
  exists aPad bPad F,
    padded_coefficients RInst.integrator 2 = Ok (aPad, bPad) /\
    frequencyResponse RInst.integrator 2 = Ok F /\
    length F = length (fft aPad) /\
    forall k a b, fft aPad !! k = Some a -> fft bPad !! k = Some b ->
      (gtb (cabs a) (zero : R) = true -> F !! k = Some (cdiv b a)) /\
      (gtb (cabs a) (zero : R) = false -> F !! k = Some cone) /\
      (cabs a = (zero : R) -> F !! k = Some cone).
Proof.
  assert (zlen (bn RInst.integrator) <= 2) as Hb by (vm_compute; discriminate).
  assert (zlen (an RInst.integrator) <= 2) as Ha by (vm_compute; discriminate).
  split; [exact Hb|]. split; [exact Ha|].
  apply (frequencyResponse_bins RInst.integrator 2 R_gtb_irrefl R_fft_length Hb Ha).
  - vm_compute. split; discriminate.
  - reflexivity.
  - discriminate.
Defined.

(** C5 as stated fails on a modulus that is not a number: with
    [an = [NaN; 1]] and [bn = [1]] in binary64 both bins of the feedback
    spectrum are NaN, so their modulus is not zero, and the response is 1 at
    both, while [B(k)/A(k)] is NaN. *)
Lemma nan_modulus_gives_one :
  padded_coefficients FInst.nan_feedback 2
  = Ok ([PrimFloat.nan; PrimFloat.one], [PrimFloat.one; PrimFloat.zero]) /\
  frequencyResponse FInst.nan_feedback 2 = Ok [cone; cone] /\
  exists a b,
    fft [PrimFloat.nan; PrimFloat.one] !! 0%nat = Some a /\
    fft [PrimFloat.one; PrimFloat.zero] !! 0%nat = Some b /\
    cabs a <> (zero : PrimFloat.float) /\
    gtb (cabs a) (zero : PrimFloat.float) = false /\
    cdiv b a <> cone.
Proof.
  split; [reflexivity|]. split; [reflexivity|].
  exists (PrimFloat.nan, PrimFloat.nan), (PrimFloat.one, PrimFloat.zero).
  split; [reflexivity|]. split; [reflexivity|]. split; [|split; [reflexivity|]].
  - intros H. apply (f_equal PrimFloat.is_nan) in H. vm_compute in H. discriminate.
  - intros H. apply (f_equal (fun z => PrimFloat.is_nan (fst z))) in H.
    vm_compute in H. discriminate.
Qed.

(** C9 fails on the code: with [bn = [1]], [an = [1]], [backward] and
    [length = 1] the length check passes, yet the reflection loop touches
    index [k+1 = 1] of vectors whose only index is 0. *)
Theorem reflection_reads_past_the_end :
  (zlen (bn ZInst.backward_identity) >? 1) || (zlen (an ZInst.backward_identity) >? 1)
  = false /\
  reflection_indices ZInst.backward_identity 1 = [1; 0] /\
  ~ (0 <= 1 < 1) /\
  padded_coefficients ZInst.backward_identity 1 = Err (OutOfBoundsAccess 1) /\
  frequencyResponse RInst.backward_identity 1 = Err (OutOfBoundsAccess 1).
Proof.
  split; [reflexivity|]. split; [reflexivity|]. split; [lia|].
  split; reflexivity.
Qed.

(** ** The shape of the output of [filter] *)

Section ShapeFacts.

Context {T C : Type} `{!Scalar T} `{!Spectral T C}.
Implicit Types f : @DigitalFilterARMA T.
Implicit Types m input output padded : Matrix T.

Lemma same_shape_refl m : same_shape m m.
Proof. now split. Qed.

Lemma same_shape_trans m1 m2 m3 :
  same_shape m1 m2 -> same_shape m2 m3 -> same_shape m1 m3.
Proof. intros [H1 H2] [H3 H4]. split; congruence. Qed.

Lemma copy_same_shape (src dst : Matrix T) r c h w m :
  copy src dst r c h w = Ok m -> same_shape m dst.
Proof. apply copy_shape. Qed.

Lemma matMult_same_shape x (A B dst : Matrix T) r c0 h w m :
  matMult x A B dst r c0 h w = Ok m -> same_shape m dst.
Proof.
  unfold matMult. intros Hm. bind_inv Hm.
  destruct (_ && _); [|discriminate]. injection Hm as <-.
  split; [apply overwrite_rows|reflexivity].
Qed.

Lemma triangularSolve_same_shape x (L dst : Matrix T) r c0 h w m :
  triangularSolve x L dst r c0 h w = Ok m -> same_shape m dst.
Proof.
  unfold triangularSolve. intros Hm. bind_inv Hm.
  destruct (_ && _); [|discriminate]. injection Hm as <-.
  split; [apply overwrite_rows|reflexivity].
Qed.

Lemma swap_rows_same_shape m i j m' : swap_rows m i j = Ok m' -> same_shape m' m.
Proof.
  unfold swap_rows. intros Hm. do 3 bind_inv Hm.
  apply copy_same_shape in Hm, Hm_l1.
  eapply same_shape_trans; eassumption.
Qed.

Lemma reverse_rows_same_shape m m' : reverse_rows m = Ok m' -> same_shape m' m.
Proof.
  unfold reverse_rows, for_range. intros Hm.
  apply (for_from_preserved (fun x => same_shape x m)) in Hm;
    [exact Hm| |apply same_shape_refl].
  intros k s s' Hs Hsm. apply swap_rows_same_shape in Hs.
  eapply same_shape_trans; eassumption.
Qed.

Lemma wrap_eq z : exists q, UInt.wrap z = z + q * UInt.modulus.
Proof.
  exists (- (z / UInt.modulus)). unfold UInt.wrap.
  rewrite (Z.mod_eq z UInt.modulus) by (rewrite modulus_eq; lia). lia.
Qed.

Lemma wrap_shift z q : UInt.wrap (z + q * UInt.modulus) = UInt.wrap z.
Proof. unfold UInt.wrap. apply Z_mod_plus_full. Qed.

(** Adding the padding and removing it again is the identity on row
    counts, wrap-around included. *)
Lemma padded_rows_roundtrip n len ts :
  0 <= n < UInt.modulus ->
  UInt.sub (UInt.sub (UInt.add (UInt.add (UInt.mul 2 len) n) ts) (UInt.mul 2 len)) ts = n.
Proof.
  intros Hn. unfold UInt.sub, UInt.add, UInt.mul.
  destruct (wrap_eq (2 * len)) as (q1 & ->).
  destruct (wrap_eq (2 * len + q1 * UInt.modulus + n)) as (q2 & ->).
  destruct (wrap_eq (2 * len + q1 * UInt.modulus + n + q2 * UInt.modulus + ts)) as (q3 & ->).
  match goal with |- UInt.wrap (UInt.wrap ?a - ts) = n =>
    destruct (wrap_eq a) as (q4 & ->) end.
  match goal with |- UInt.wrap ?a = n =>
    replace a with (n + (q2 + q3 + q4) * UInt.modulus) by lia end.
  rewrite wrap_shift. now apply wrap_small.
Qed.

Lemma shifted_rows_roundtrip n ts :
  0 <= n < UInt.modulus -> UInt.sub (UInt.add n ts) ts = n.
Proof.
  intros Hn. unfold UInt.sub, UInt.add.
  destruct (wrap_eq (n + ts)) as (q1 & ->).
  replace (n + ts + q1 * UInt.modulus - ts) with (n + q1 * UInt.modulus) by lia.
  rewrite wrap_shift. now apply wrap_small.
Qed.

Lemma trimmed_padded_rows n len ts p :
  0 <= n < UInt.modulus -> trimmed_rows (padded_rows n len ts p) len ts p = n.
Proof.
  intros Hn. destruct p; simpl; try apply padded_rows_roundtrip; try assumption.
  destruct (0 <? ts); [now apply shifted_rows_roundtrip | reflexivity].
Qed.

Lemma Matrix_new_same input r :
  0 <= r ->
  rows (@Matrix_new T _ r (cols input)) = r /\
  columns (@Matrix_new T _ r (cols input)) = columns input.
Proof.
  intros Hr. split; [now apply Matrix_new_rows|].
  unfold cols. simpl. lia.
Qed.

Lemma pad_shape input len ts p m :
  pad input len ts p = Ok m ->
  rows m = padded_rows (rows input) len ts p /\ columns m = columns input.
Proof.
  assert (forall (body : Z -> Matrix T -> result (Matrix T)) n m0 m1 R,
            (forall k s s', body k s = Ok s' -> same_shape s' s) ->
            rows m0 = R /\ columns m0 = columns input ->
            for_range n body m0 = Ok m1 ->
            rows m1 = R /\ columns m1 = columns input) as Hloop.
  { intros body n m0 m1 R Hbody H0 Hrun. unfold for_range in Hrun.
    apply (for_from_preserved (fun x => rows x = R /\ columns x = columns input))
      in Hrun; [exact Hrun| |exact H0].
    intros k s s' Hs [? ?]. apply Hbody in Hs as [? ?]. split; congruence. }
  assert (forall r m0, 0 <= r ->
            copy input (Matrix_new r (cols input)) len 0 (rows input)
                 (cols (Matrix_new r (cols input))) = Ok m0 ->
            rows m0 = r /\ columns m0 = columns input) as Hfirst.
  { intros r m0 Hr Hc. apply copy_shape in Hc as [-> ->]. now apply Matrix_new_same. }
  assert (forall (src1 src2 : Z) k1 k2 s s',
            (let* a := row input src1 1 in
             let* s1 := copy a s k1 0 1 (cols s) in
             let* b := row input src2 1 in
             copy b s1 k2 0 1 (cols s1)) = Ok s' -> same_shape s' s) as Hbody.
  { intros src1 src2 k1 k2 s s' Hs. do 3 bind_inv Hs.
    apply copy_same_shape in Hs, Hs_l0. eapply same_shape_trans; eassumption. }
  unfold pad, padded_rows. destruct p.
  - destruct (0 <? ts).
    + intros Hc. apply copy_shape in Hc as [-> ->].
      apply Matrix_new_same, add_nonneg.
    + now intros [= <-].
  - destruct (rows input <? 1); [discriminate|]. intros Hm. bind_inv Hm.
    injection Hm as <-. eapply Hfirst; [apply add_nonneg|eassumption].
  - destruct (rows input <? 1); [discriminate|]. intros Hm. bind_inv Hm.
    eapply Hloop; [|eapply Hfirst; [apply add_nonneg|eassumption]|exact Hm].
    intros k s s'. apply Hbody.
  - destruct (rows input <? 1); [discriminate|]. intros Hm. bind_inv Hm.
    destruct (rows input <? len); [discriminate|].
    eapply Hloop; [|eapply Hfirst; [apply add_nonneg|eassumption]|exact Hm].
    intros k s s'. apply Hbody.
  - destruct (rows input <? 1); [discriminate|]. intros Hm. bind_inv Hm.
    destruct (rows input <? UInt.add len 1); [discriminate|].
    eapply Hloop; [|eapply Hfirst; [apply add_nonneg|eassumption]|exact Hm].
    intros k s s'. apply Hbody.
Qed.

Lemma trim_shape m len ts p y :
  trim m len ts p = Ok y ->
  rows y = trimmed_rows (rows m) len ts p /\ columns y = columns m.
Proof.
  unfold trim, trimmed_rows. destruct p;
    try (intros Hy; apply row_shape in Hy; [exact Hy|apply add_nonneg|apply sub_nonneg]).
  destruct (Z.ltb_spec 0 ts).
  - intros Hy. apply row_shape in Hy; [exact Hy|lia|apply sub_nonneg].
  - now intros [= <-].
Qed.

Lemma feed_forward_same_shape f bs padded output out :
  feed_forward f bs padded output = Ok out -> same_shape out output.
Proof.
  unfold feed_forward. intros Hrun. bind_inv Hrun.
  apply (for_stride_preserved (fun x => same_shape x output)) in Hrun;
    [exact Hrun| |apply same_shape_refl].
  intros k s s' Hs Hsh. do 2 bind_inv Hs. apply matMult_same_shape in Hs.
  eapply same_shape_trans; eassumption.
Qed.

Lemma feed_back_same_shape f bs output out :
  feed_back f bs output = Ok out -> same_shape out output.
Proof.
  unfold feed_back. intros Hrun. bind_inv Hrun.
  apply (for_stride_preserved (fun x => same_shape x output)) in Hrun;
    [exact Hrun| |apply same_shape_refl].
  intros k s s' Hs Hsh. do 2 bind_inv Hs.
  apply triangularSolve_same_shape in Hs.
  eapply same_shape_trans; [exact Hs|].
  eapply same_shape_trans; [|exact Hsh].
  destruct (0 <? k).
  - do 2 bind_inv Hs_l. now apply matMult_same_shape in Hs_l.
  - injection Hs_l as <-. apply same_shape_refl.
Qed.

Lemma optional_reverse_same_shape (b : bool) m m' :
  (if b then reverse_rows m else Ok m) = Ok m' -> same_shape m' m.
Proof.
  destruct b; [apply reverse_rows_same_shape|].
  intros [= <-]. apply same_shape_refl.
Qed.

Lemma filter_time_domain_shape f input out :
  rows input < UInt.modulus ->
  filter_time_domain f input = Ok out -> same_shape out input.
Proof.
  intros Hfit Hrun. unfold filter_time_domain in Hrun.
  bind_inv Hrun. rename a into padded0. apply pad_shape in Hrun_l as [Hr0 Hc0].
  bind_inv Hrun. rename a into padded.
  apply optional_reverse_same_shape in Hrun_l as [Hr1 Hc1].
  bind_inv Hrun. rename a into out1. apply feed_forward_same_shape in Hrun_l as [Hr2 Hc2].
  bind_inv Hrun. rename a into out2.
  assert (same_shape out2 out1) as [Hr3 Hc3].
  { destruct (1 <? zlen (an f)); [now apply feed_back_same_shape in Hrun_l|].
    injection Hrun_l as <-. apply same_shape_refl. }
  bind_inv Hrun. rename a into out3.
  apply optional_reverse_same_shape in Hrun_l0 as [Hr4 Hc4].
  apply trim_shape in Hrun as [Hr5 Hc5].
  rewrite Matrix_new_rows in Hr2 by apply rows_nonneg.
  assert (columns (@Matrix_new T _ (rows padded) (cols padded)) = columns padded) as Hcn
    by (unfold cols; simpl; lia).
  split.
  - rewrite Hr5, Hr4, Hr3, Hr2, Hr1, Hr0.
    apply trimmed_padded_rows. pose proof (rows_nonneg input). lia.
  - congruence.
Qed.

Lemma filter_frequency_domain_shape f input out :
  rows input < UInt.modulus ->
  filter_frequency_domain f input = Ok out -> same_shape out input.
Proof.
  intros Hfit Hrun. unfold filter_frequency_domain in Hrun.
  bind_inv Hrun. rename a into padded0. apply pad_shape in Hrun_l as [Hr0 Hc0].
  bind_inv Hrun. bind_inv Hrun. rename a0 into padded.
  assert (same_shape padded padded0) as [Hr1 Hc1].
  { unfold for_range in Hrun_l0.
    apply (for_from_preserved (fun x => same_shape x padded0)) in Hrun_l0;
      [exact Hrun_l0| |apply same_shape_refl].
    intros k s s' Hs Hsh. do 2 bind_inv Hs. apply copy_same_shape in Hs.
    eapply same_shape_trans; eassumption. }
  apply trim_shape in Hrun as [Hr2 Hc2].
  split.
  - rewrite Hr2, Hr1, Hr0. apply trimmed_padded_rows.
    pose proof (rows_nonneg input). lia.
  - congruence.
Qed.

(** C10: whenever [filter] returns a matrix, under any policy ([NONE] with
    a nonzero [bnStartIndex] included) and on either path, the result has
    the rows and the columns of the input. *)
Theorem filter_preserves_shape f input out :
  rows input < UInt.modulus ->
  filter f input = Ok out ->
  rows out = rows input /\ columns out = columns input.
Proof.
  intros Hfit. unfold filter.
  destruct (rows input <? warmup f); [discriminate|].
  destruct (inFrequencyDomain f).
  - now apply filter_frequency_domain_shape.
  - now apply filter_time_domain_shape.
Qed.

End ShapeFacts.

(** ** The identity filter *)

Section IdentityFacts.

Context {T : Type} `{!Scalar T}.
Implicit Types r : list T.
Implicit Types P : list (list T).

(** The laws of exact arithmetic the identity filter rests on. *)
Hypothesis add_zero_l : forall x : T, add zero x = x.
Hypothesis add_zero_r : forall x : T, add x zero = x.
Hypothesis mul_one_l : forall x : T, mul one x = x.
Hypothesis mul_zero_l : forall x : T, mul zero x = zero.

Lemma vscale_one r : vscale one r = r.
Proof.
  unfold vscale. induction r as [|x r IH]; [reflexivity|].
  rewrite fmap_cons, IH. now rewrite mul_one_l.
Qed.

Lemma vscale_zero r : vscale zero r = replicate (length r) zero.
Proof.
  unfold vscale. induction r as [|x r IH]; [reflexivity|].
  rewrite fmap_cons, IH. simpl. now rewrite mul_zero_l.
Qed.

Lemma vadd_zeros_l r : vadd (replicate (length r) zero) r = r.
Proof.
  unfold vadd. induction r as [|x r IH]; [reflexivity|].
  simpl. now rewrite IH, add_zero_l.
Qed.

Lemma vadd_zeros_r r : vadd r (replicate (length r) zero) = r.
Proof.
  unfold vadd. induction r as [|x r IH]; [reflexivity|].
  simpl. now rewrite IH, add_zero_r.
Qed.

Lemma vecmat_zeros n P w :
  Forall (fun r => length r = w) P ->
  vecmat (replicate n zero) P w = replicate w zero.
Proof.
  intros HP. revert n. induction HP as [|r P Hr _ IH]; intros [|n]; try reflexivity.
  simpl. rewrite IH, vscale_zero, Hr. rewrite <- (length_replicate w zero) at 1.
  apply vadd_zeros_l.
Qed.

(** A unit row selects a row of the right-hand matrix. *)
Lemma vecmat_unit P w i r :
  Forall (fun r => length r = w) P -> P !! i = Some r ->
  vecmat (unit_row (length P) i) P w = r.
Proof.
  intros HP. revert i. unfold unit_row.
  induction HP as [|r0 P Hr0 HP IH]; intros i Hi; [discriminate|].
  destruct i as [|i]; simpl in *.
  - injection Hi as ->. rewrite vecmat_zeros by assumption.
    rewrite vscale_one, <- Hr0. apply vadd_zeros_r.
  - rewrite (IH i Hi), vscale_zero, Hr0.
    assert (length r = w) as <-
      by (eapply (proj1 (Forall_lookup _ _) HP); eassumption).
    apply vadd_zeros_l.
Qed.

Lemma identity_rows_lookup n i :
  (i < n)%nat -> identity_rows n !! i = Some (unit_row n i : list T).
Proof.
  intros Hi. unfold identity_rows.
  rewrite list_lookup_fmap, lookup_seq_lt by assumption. reflexivity.
Qed.

Lemma identity_rows_length n : length (identity_rows n : list (list T)) = n.
Proof. unfold identity_rows. now rewrite length_fmap, length_seq. Qed.

Lemma unit_row_length n i : length (unit_row n i : list T) = n.
Proof. unfold unit_row. now rewrite length_insert, length_replicate. Qed.

(** The banded matrix of the single tap [1] is the identity matrix. *)
Lemma banded_identity bs :
  1 <= bs -> bs + 1 < UInt.modulus ->
  banded [one] bs = Ok (mkMatrix (Z.to_nat bs) (identity_rows (Z.to_nat bs))).
Proof.
  intros Hbs Hfit. unfold banded.
  change (zlen [one]) with 1. uint_norm.
  replace (1 + bs - 1) with bs by lia.
  set (n := Z.to_nat bs).
  assert (cols (@Matrix_new T _ bs bs) = bs) as -> by (unfold cols; simpl; lia).
  destruct (for_range_inv
    (fun k (M : Matrix T) =>
       columns M = n /\ length (data M) = n /\
       forall i, (i < n)%nat ->
         data M !! i = Some (if Z.of_nat i <? k then unit_row n i else replicate n zero))
    (fun k M => copy (as_matrix [one]) M k k 1 1) bs (Matrix_new bs bs))
    as (M & Hrun & Hc & Hl & Hrows).
  - lia.
  - split; [reflexivity|]. split; [apply length_replicate|].
    intros i Hi. destruct (Z.ltb_spec (Z.of_nat i) 0); [lia|].
    simpl. now apply lookup_replicate_2.
  - intros k M Hk (Hc & Hl & Hrows). unfold copy, in_view, rows, cols.
    rewrite Hc, Hl.
    destruct (Z.leb_spec (k + 1) (Z.of_nat n)); [|lia]. simpl.
    eexists. split; [reflexivity|].
    split; [exact Hc|]. split; [simpl; now rewrite length_imap|].
    intros i Hi. simpl. rewrite list_lookup_imap, (Hrows i Hi). simpl. f_equal.
    destruct (Z.leb_spec k (Z.of_nat i)); simpl.
    + destruct (Z.ltb_spec (Z.of_nat i) (k + 1)).
      * replace (Z.to_nat (Z.of_nat i - k)) with 0%nat by lia. simpl.
        destruct (Z.ltb_spec (Z.of_nat i) k); [lia|].
        replace (Z.to_nat k) with i by lia. reflexivity.
      * destruct (Z.ltb_spec (Z.of_nat i) k); [lia|]. reflexivity.
    + destruct (Z.ltb_spec (Z.of_nat i) (k + 1)); [|lia].
      destruct (Z.ltb_spec (Z.of_nat i) k); [|lia]. reflexivity.
  - rewrite Hrun. f_equal. destruct M as [c d]. simpl in *. f_equal; [exact Hc|].
    apply list_eq. intros i. destruct (decide (i < n)%nat) as [Hi|Hi].
    + rewrite (Hrows i Hi), identity_rows_lookup by assumption.
      destruct (Z.ltb_spec (Z.of_nat i) bs); [reflexivity|lia].
    + rewrite (proj2 (lookup_ge_None _ _)) by lia.
      symmetry. apply lookup_ge_None. rewrite identity_rows_length. lia.
Qed.

(** The leading [c] by [c] block of an identity matrix is an identity
    matrix. *)
Lemma slice_identity n c :
  0 <= c <= Z.of_nat n ->
  slice (mkMatrix n (identity_rows n : list (list T))) 0 0 c c
  = Ok (mkMatrix (Z.to_nat c) (identity_rows (Z.to_nat c))).
Proof.
  intros Hc. unfold slice, in_view, rows, cols. simpl.
  rewrite identity_rows_length, Z.add_0_l.
  destruct (Z.leb_spec c (Z.of_nat n)); [|lia]. simpl.
  f_equal. f_equal. change (Z.to_nat 0) with 0%nat. rewrite drop_0.
  apply list_eq. intros i. rewrite list_lookup_fmap.
  destruct (decide (i < Z.to_nat c)%nat) as [Hi|Hi].
  - rewrite lookup_take_lt, identity_rows_lookup by lia.
    rewrite identity_rows_lookup by lia. simpl. f_equal.
    rewrite drop_0. unfold unit_row. rewrite take_insert_lt by lia.
    rewrite take_replicate. do 2 f_equal. lia.
  - rewrite lookup_take_ge by lia. simpl.
    symmetry. apply lookup_ge_None. rewrite identity_rows_length. lia.
Qed.

(** One block of the feed-forward pass with an identity block: zero rows
    plus [1 * I * P] are the rows of [P]. *)
Lemma identity_block P w :
  Forall (fun r => length r = w) P ->
  zip_with (fun crow arow => vadd crow (vscale one (vecmat arow P w)))
           (replicate (length P) (replicate w zero)) (identity_rows (length P))
  = P.
Proof.
  intros HP. apply list_eq. intros i. rewrite lookup_zip_with.
  destruct (P !! i) as [r|] eqn:Hr.
  - assert (i < length P)%nat by (apply lookup_lt_is_Some; eauto).
    rewrite lookup_replicate_2, identity_rows_lookup by assumption. simpl.
    rewrite (vecmat_unit P w i r HP Hr), vscale_one.
    assert (length r = w) as <-
      by (eapply (proj1 (Forall_lookup _ _) HP); eassumption).
    now rewrite vadd_zeros_l.
  - apply lookup_ge_None in Hr.
    rewrite (proj2 (lookup_ge_None (replicate _ _) i))
      by (rewrite length_replicate; lia).
    reflexivity.
Qed.

Lemma copied_wf (padded : Matrix T) idx output :
  wf padded -> copied_up_to padded idx output -> wf output.
Proof.
  intros Hwf (Hc & Hl & Hrows). unfold wf. apply Forall_lookup. intros i r Hi.
  assert (i < length (data padded))%nat as Hlt
    by (rewrite <- Hl; apply lookup_lt_is_Some; eauto).
  rewrite (Hrows i Hlt) in Hi. rewrite Hc.
  destruct (Z.of_nat i <? idx).
  - eapply wf_lookup; eassumption.
  - injection Hi as <-. apply length_replicate.
Qed.

Lemma copied_all (padded : Matrix T) idx output :
  rows padded <= idx -> copied_up_to padded idx output -> output = padded.
Proof.
  intros Hidx (Hc & Hl & Hrows). destruct output as [c d], padded as [c' d'].
  unfold rows in Hidx. simpl in *. f_equal; [exact Hc|].
  apply list_eq. intros i. destruct (decide (i < length d')%nat) as [Hi|Hi].
  - rewrite (Hrows i Hi). destruct (Z.ltb_spec (Z.of_nat i) idx); [reflexivity|lia].
  - rewrite !(proj2 (lookup_ge_None _ _)) by lia. reflexivity.
Qed.

(** The feed-forward pass of a filter with the single tap [1] copies the
    padded sequence, block by block. *)
Lemma feed_forward_identity (f : @DigitalFilterARMA T) (padded : Matrix T) :
  bn f = [one] -> wf padded -> 1 <= rows padded ->
  rows padded + 64 < UInt.modulus ->
  feed_forward f (Z.min 64 (rows padded)) padded
               (Matrix_new (rows padded) (cols padded))
  = Ok padded.
Proof.
  intros Hbn Hwf Hn Hfit. unfold feed_forward.
  set (N := rows padded) in *. set (bs := Z.min 64 N).
  assert (1 <= bs <= 64) as Hbs by lia.
  rewrite Hbn, banded_identity by lia. cbn [bind].
  rewrite Matrix_new_rows by lia.
  destruct (for_stride_inv (copied_up_to padded)
    (fun idxStart output =>
       let columnCount := Z.min (UInt.sub (rows output) idxStart) bs in
       let rowCount := Z.min (UInt.sub (rows output) idxStart)
                         (rows (mkMatrix (Z.to_nat bs) (identity_rows (Z.to_nat bs)))) in
       let* Bs := slice (mkMatrix (Z.to_nat bs) (identity_rows (Z.to_nat bs)))
                        0 0 rowCount columnCount in
       let* P := row padded idxStart columnCount in
       matMult one Bs P output idxStart 0 rowCount (cols output))
    (Z.to_nat N) 0 N bs (Matrix_new N (cols padded)))
    as (out & i' & Hrun & Hi' & Hinv); try lia.
  - split; [unfold cols; simpl; lia|]. split.
    + simpl. rewrite length_replicate. unfold N, rows. lia.
    + intros i Hi. destruct (Z.ltb_spec (Z.of_nat i) 0); [lia|].
      simpl. rewrite lookup_replicate_2 by (unfold N, rows; lia).
      unfold cols. now rewrite Nat2Z.id.
  - intros idx out Hidx Hinv.
    pose proof (copied_wf padded idx out Hwf Hinv) as Hwfo.
    destruct Hinv as (Hc & Hl & Hrows).
    assert (rows out = N) as Hro by (unfold N, rows; lia).
    assert (rows (mkMatrix (Z.to_nat bs) (identity_rows (Z.to_nat bs) : list (list T)))
            = bs) as HrB
      by (unfold rows; simpl; rewrite identity_rows_length; lia).
    cbv zeta. rewrite HrB, Hro. uint_norm.
    set (c := Z.min (N - idx) bs). assert (1 <= c <= bs) as Hcb by lia.
    rewrite slice_identity by lia. cbn [bind].
    rewrite row_wf by (assumption || unfold N in *; lia). cbn [bind].
    set (P := take (Z.to_nat c) (drop (Z.to_nat idx) (data padded))).
    assert (length P = Z.to_nat c) as HlP
      by (unfold P; rewrite length_take, length_drop; unfold N, rows in *; lia).
    assert (Forall (fun r => length r = columns padded) P) as HwfP
      by (unfold P; apply Forall_take, Forall_drop, Hwf).
    unfold matMult. change (slice out idx 0 c (cols out)) with (row out idx c).
    rewrite row_wf by (assumption || lia). cbn [bind].
    unfold rows, cols. simpl. rewrite identity_rows_length, HlP, Hc.
    rewrite !Z2Nat.id by lia. rewrite !Z.eqb_refl. simpl.
    eexists. split; [reflexivity|].
    assert (take (Z.to_nat c) (drop (Z.to_nat idx) (data out))
            = replicate (length P) (replicate (columns padded) zero)) as ->.
    { apply list_eq. intros i. destruct (decide (i < Z.to_nat c)%nat) as [Hi|Hi].
      - rewrite lookup_take_lt, lookup_drop by lia.
        rewrite Hrows by (unfold N, rows in *; lia).
        destruct (Z.ltb_spec (Z.of_nat (Z.to_nat idx + i)) idx); [lia|].
        symmetry. apply lookup_replicate_2. lia.
      - rewrite lookup_take_ge by lia. symmetry.
        apply lookup_ge_None. rewrite length_replicate. lia. }
    rewrite <- HlP, identity_block by assumption.
    replace c with (Z.of_nat (length P)) by lia.
    rewrite overwrite_whole_rows; [|assumption|now rewrite Hc|lia].
    split; [exact Hc|]. split; [simpl; now rewrite length_inserts|].
    intros i Hi. simpl.
    destruct (decide (Z.of_nat i < idx)) as [Hlt|Hge].
    + rewrite list_lookup_inserts_lt by lia. rewrite (Hrows i Hi).
      destruct (Z.ltb_spec (Z.of_nat i) idx); [|lia].
      destruct (Z.ltb_spec (Z.of_nat i) (idx + bs)); [reflexivity|lia].
    + destruct (decide (Z.of_nat i < idx + c)) as [Hin|Hout].
      * rewrite list_lookup_inserts by lia.
        unfold P. rewrite lookup_take_lt, lookup_drop by lia.
        destruct (Z.ltb_spec (Z.of_nat i) (idx + bs)); [|lia].
        f_equal. lia.
      * rewrite list_lookup_inserts_ge by lia. rewrite (Hrows i Hi).
        destruct (Z.ltb_spec (Z.of_nat i) idx); [lia|].
        destruct (Z.ltb_spec (Z.of_nat i) (idx + bs)); [|reflexivity].
        unfold N, rows in *. lia.
  - transitivity (Ok out); [exact Hrun|]. f_equal. eapply copied_all; eassumption.
Qed.

End IdentityFacts.

Section IdentityClaim.

Context {T C : Type} `{!Scalar T} `{!Spectral T C}.

Hypothesis add_zero_l : forall x : T, add zero x = x.
Hypothesis add_zero_r : forall x : T, add x zero = x.
Hypothesis mul_one_l : forall x : T, mul one x = x.
Hypothesis mul_zero_l : forall x : T, mul zero x = zero.

Lemma identity_warmup p : warmup (identity_ARMA p : @DigitalFilterARMA T) = 3.
Proof. reflexivity. Qed.

(** C4 (amended): in exact arithmetic (the four laws above, which hold for
    real numbers and fail for infinities and NaN) the identity filter
    ([bn = [1]], [an = [1]], [bnStartIndex = 0], forward, time domain)
    returns the input unchanged under every policy, for every input with at
    least 3 rows (its warmup), and at least 4 under symmetric padding; an
    input of fewer than 3 rows is rejected with [InsufficientInputLength],
    and one of 3 rows under symmetric padding with [InvalidPadding]. *)
Theorem identity_filter_unchanged p (input : Matrix T) :
  wf input -> rows input + 70 < UInt.modulus ->
  (rows input < 3 -> filter (identity_ARMA p) input = Err InsufficientInputLength) /\
  (p = SYMMETRIC -> rows input = 3 ->
   filter (identity_ARMA p) input = Err InvalidPadding) /\
  (3 <= rows input -> (p = SYMMETRIC -> 4 <= rows input) ->
   filter (identity_ARMA p) input = Ok input).
Proof.
  intros Hwf Hfit. split; [|split].
  - intros Hshort. unfold filter. rewrite identity_warmup.
    now destruct (Z.ltb_spec (rows input) 3); [|lia].
  - intros -> Hn. unfold filter. rewrite identity_warmup.
    destruct (Z.ltb_spec (rows input) 3); [lia|].
    change (inFrequencyDomain (identity_ARMA SYMMETRIC)) with false. cbv iota.
    unfold filter_time_domain. rewrite identity_warmup.
    change (bnStartIndex (identity_ARMA SYMMETRIC)) with 0.
    change (padType (identity_ARMA SYMMETRIC)) with SYMMETRIC.
    unfold pad. destruct (Z.ltb_spec (rows input) 1); [lia|]. uint_norm.
    destruct (pad_initial_copy input 3 0) as (padded & ->); try lia.
    cbn [bind]. now destruct (Z.ltb_spec (rows input) (3 + 1)); [|lia].
  - intros Hn Hsym. unfold filter. rewrite identity_warmup.
    destruct (Z.ltb_spec (rows input) 3); [lia|].
    change (inFrequencyDomain (identity_ARMA p)) with false. cbv iota.
    unfold filter_time_domain. rewrite identity_warmup.
    change (bnStartIndex (identity_ARMA p)) with 0.
    change (padType (identity_ARMA p)) with p.
    change (backward (identity_ARMA p)) with false.
    change (1 <? zlen (an (identity_ARMA p))) with false. cbv iota.
    assert (exists padded,
              pad input 3 0 p = Ok padded /\ wf padded /\ 1 <= rows padded /\
              rows padded + 64 < UInt.modulus /\ trim padded 3 0 p = Ok input)
      as (padded & -> & Hwfp & Hrp & Hfp & Htrim).
    { assert (p = NONE \/ p <> NONE) as [->|Hp]
        by (destruct p; auto; right; discriminate).
      - exists input. split; [reflexivity|]. split; [assumption|].
        split; [lia|]. split; [lia|reflexivity].
      - destruct (pad_ok input 3 0 p) as (padded & Hpad & Hinv);
          try assumption; try lia.
        { destruct p; simpl; try lia. specialize (Hsym eq_refl). lia. }
        exists padded. split; [exact Hpad|].
        destruct (trim_holds_input input 3 0 p padded) as (y & Hy & _ & _ & _ & Heq);
          try assumption; try lia.
        destruct Hinv as (_ & Hwfp & Hrp & _).
        rewrite (Heq eq_refl) in Hy. repeat split; try assumption; lia. }
    cbn [bind].
    rewrite (feed_forward_identity add_zero_l add_zero_r mul_one_l mul_zero_l);
      [|reflexivity|assumption..].
    cbn [bind]. exact Htrim.
Qed.

End IdentityClaim.

(** *** Real arithmetic has the laws the identity filter rests on *)

Lemma R_add_zero_l (x : R) : add zero x = x.
Proof. simpl. lra. Qed.

Lemma R_add_zero_r (x : R) : add x zero = x.
Proof. simpl. lra. Qed.

Lemma R_mul_one_l (x : R) : mul one x = x.
Proof. simpl. lra. Qed.

Lemma R_mul_zero_l (x : R) : mul zero x = zero.
Proof. simpl. lra. Qed.

Lemma ramp4_wf : wf RInst.ramp4.
Proof. repeat constructor. Qed.

Lemma identity_filter_unchanged_witness :
  wf RInst.ramp4 /\ rows RInst.ramp4 + 70 < UInt.modulus /\
  3 <= rows RInst.ramp4 /\
  filter (identity_ARMA SYMMETRIC) RInst.ramp4 = Ok RInst.ramp4.
Proof.
  assert (rows RInst.ramp4 + 70 < UInt.modulus) as Hfit by reflexivity.
  assert (3 <= rows RInst.ramp4) as Hn by (vm_compute; discriminate).
  assert (SYMMETRIC = SYMMETRIC -> 4 <= rows RInst.ramp4) as Hsym
    by (intros _; vm_compute; discriminate).
  split; [exact ramp4_wf|]. split; [exact Hfit|]. split; [exact Hn|].
  exact (proj2 (proj2 (identity_filter_unchanged
                         R_add_zero_l R_add_zero_r R_mul_one_l R_mul_zero_l
                         SYMMETRIC RInst.ramp4 ramp4_wf Hfit)) Hn Hsym).
Defined.

(** C4 as stated fails on short inputs: two rows are fewer than the warmup
    of 3, and three rows are too few for symmetric padding by 3 rows. *)
Lemma identity_filter_rejects_short_input :
  filter (identity_ARMA ZERO) RInst.ramp2 = Err InsufficientInputLength /\
  filter (identity_ARMA ZERO) RInst.ramp2 <> Ok RInst.ramp2 /\
  filter (identity_ARMA SYMMETRIC) RInst.ramp3 = Err InvalidPadding /\
  filter (identity_ARMA SYMMETRIC) RInst.ramp3 <> Ok RInst.ramp3.
Proof.
  assert (filter (identity_ARMA ZERO) RInst.ramp2 = Err InsufficientInputLength) as H1
    by reflexivity.
  assert (filter (identity_ARMA SYMMETRIC) RInst.ramp3 = Err InvalidPadding) as H2
    by reflexivity.
  rewrite H1, H2. repeat split; discriminate.
Qed.

(** The laws of exact arithmetic are needed: in binary64 the zero entries
    of the banded product meet the infinite sample, [0 * infinity] is NaN,
    and the identity filter turns the samples 1, infinity, 3, 4 into NaN,
    infinity, NaN, NaN. *)
Lemma identity_filter_spreads_nan :
  wf FInst.spike /\ rows FInst.spike = 4 /\
  mul (zero : PrimFloat.float) PrimFloat.infinity <> zero /\
  filter (identity_ARMA ZERO) FInst.spike
  = Ok (mkMatrix 1 [[PrimFloat.nan]; [PrimFloat.infinity];
                    [PrimFloat.nan]; [PrimFloat.nan]]) /\
  filter (identity_ARMA ZERO) FInst.spike <> Ok FInst.spike.
Proof.
  split; [repeat constructor|]. split; [reflexivity|]. split; [|split].
  - intros H. apply (f_equal PrimFloat.is_nan) in H. vm_compute in H. discriminate.
  - reflexivity.
  - assert (filter (identity_ARMA ZERO) FInst.spike
            = Ok (mkMatrix 1 [[PrimFloat.nan]; [PrimFloat.infinity];
                              [PrimFloat.nan]; [PrimFloat.nan]])) as -> by reflexivity.
    intros H.
    apply (f_equal (fun r => match r with
                             | Ok (mkMatrix _ ((x :: _) :: _)) => PrimFloat.is_nan x
                             | _ => false
                             end)) in H.
    vm_compute in H. discriminate.
Qed.

Lemma lead_filter_runs : exists out, filter RInst.lead_filter RInst.ramp4 = Ok out.
Proof. eexists. vm_compute. reflexivity. Qed.

Lemma filter_preserves_shape_witness :
  rows RInst.ramp4 < UInt.modulus /\
  exists out, filter RInst.lead_filter RInst.ramp4 = Ok out /\
              rows out = rows RInst.ramp4 /\ columns out = columns RInst.ramp4.
Proof.
  assert (rows RInst.ramp4 < UInt.modulus) as Hfit by reflexivity.
  split; [exact Hfit|].
  destruct lead_filter_runs as (out & Hout). exists out. split; [exact Hout|].
  exact (filter_preserves_shape RInst.lead_filter RInst.ramp4 out Hfit Hout).
Defined.

(** ** The model at work *)

(** The end-to-end example of section 8, with integer taps: three times
    the expected output 1.333, 2, 3, ..., 9, 9.667. *)
Example moving_sum_of_ramp :
  filter_time_domain ZInst.moving_sum ZInst.ramp10
  = Ok (mkMatrix 1 [[4]; [6]; [9]; [12]; [15]; [18]; [21]; [24]; [27]; [29]]).
Proof. vm_compute. reflexivity. Qed.

(** The identity filter on a two-column input, policy by policy. *)
Example identity_on_two_columns :
  Forall (fun p => filter_time_domain (ZInst.identity_filter p) ZInst.ex4 = Ok ZInst.ex4)
         [NONE; ZERO; CONSTANT; PERIODIC; SYMMETRIC].
Proof. repeat constructor. Qed.

(** The feedback pass across two blocks of 64 rows: the running sum of 100
    ones is 1, 2, ..., 100. *)
Example running_sum_of_ones :
  filter_time_domain ZInst.running_sum (ZInst.ones 100)
  = Ok (mkMatrix 1 ((fun i => [i]) <$> seqZ 1 100)).
Proof. vm_compute. reflexivity. Qed.

(** The feedback spectrum of the running sum vanishes at frequency zero;
    there the response is one. *)
Example running_sum_response_at_zero :
  exists F, frequencyResponse RInst.integrator 2 = Ok F /\ F !! 0%nat = Some (1, 0)%R.
Proof.
  assert (padded_coefficients RInst.integrator 2 = Ok ([1; -1], [1; 0])%R) as Hpc
    by reflexivity.
  assert (forall j, RInst.twiddle 2 j 0 = (1, - 0)%R) as Htw.
  { intros j. unfold RInst.twiddle. cbv zeta.
    assert (2 * PI * INR j * INR 0 / INR 2 = 0)%R as ->
      by (simpl; unfold Rdiv; ring).
    now rewrite cos_0, sin_0. }
  assert (cabs (RInst.dft_bin [1; -1]%R 0) = (zero : R)) as Hzero.
  { change (RInst.Cx_abs
              (RInst.Cx_add (RInst.Cx_mul (1, 0) (RInst.twiddle 2 0 0))
                 (RInst.Cx_add (RInst.Cx_mul (-1, 0) (RInst.twiddle 2 1 0)) (0, 0)))
            = 0)%R.
    rewrite !Htw. unfold RInst.Cx_abs, RInst.Cx_add, RInst.Cx_mul. cbn [fst snd].
    match goal with |- sqrt ?x = _ => replace x with 0%R by ring end.
    apply sqrt_0. }
  eexists. split.
  - unfold frequencyResponse. change ((zlen (bn RInst.integrator) >? 2)
      || (zlen (an RInst.integrator) >? 2)) with false. cbv iota.
    rewrite Hpc. cbn [bind fst snd].
    apply response_of_spectra_ok. now apply R_fft_length.
  - rewrite lookup_zip_with.
    change (fft [1; -1]%R !! 0%nat) with (Some (RInst.dft_bin [1; -1]%R 0)).
    change (fft [1; 0]%R !! 0%nat) with (Some (RInst.dft_bin [1; 0]%R 0)).
    cbn [mbind option_bind]. rewrite Hzero, R_gtb_irrefl. reflexivity.
Qed.

(** ** More about [pad]: what the padded sequence holds *)

(** Decide the comparisons of a layout function and close the cases. *)
Ltac layout_cases :=
  repeat match goal with
    | |- context [?a <? ?b] => destruct (Z.ltb_spec a b)
    | |- context [?a <=? ?b] => destruct (Z.leb_spec a b)
    end;
  try lia; try reflexivity; try (f_equal; lia).

Section PadLayout.

Context {T : Type} `{!Scalar T}.
Implicit Types m input : Matrix T.

(** One row copy of a padding loop, with the matrix it leaves. *)
Lemma row_copy_insert input m i k :
  wf input -> wf m -> columns m = columns input ->
  0 <= i < rows input -> 0 <= k < rows m ->
  exists x,
    data input !! Z.to_nat i = Some x /\
    row input i 1 = Ok (mkMatrix (columns m) [x]) /\
    copy (mkMatrix (columns m) [x]) m k 0 1 (cols m)
    = Ok (mkMatrix (columns m) (<[Z.to_nat k := x]> (data m))).
Proof.
  intros Hwf Hm Hc Hi Hk.
  destruct (data input !! Z.to_nat i) as [x|] eqn:Hx.
  2: { apply lookup_ge_None in Hx. unfold rows in Hi. lia. }
  assert (length x = columns m) as Hxl
    by (rewrite Hc; eapply wf_lookup; eassumption).
  exists x. split; [reflexivity|]. split.
  - rewrite Hc. now apply row1_lookup; [|lia|].
  - now apply copy_row1.
Qed.

(** Two row copies move the layout from [src] to [src']. *)
Lemma laid_out_step input len ts (src src' : Z -> option Z) m i1 k1 i2 k2 :
  wf input -> laid_out input len ts src m ->
  0 <= i1 < rows input -> 0 <= i2 < rows input ->
  0 <= k1 < rows m -> 0 <= k2 < rows m -> k1 <> k2 ->
  src' k1 = Some i1 -> src' k2 = Some i2 ->
  (forall i, 0 <= i < rows m -> i <> k1 -> i <> k2 -> src' i = src i) ->
  exists m',
    (let* a := row input i1 1 in
     let* m1 := copy a m k1 0 1 (cols m) in
     let* b := row input i2 1 in
     copy b m1 k2 0 1 (cols m1)) = Ok m' /\
    laid_out input len ts src' m'.
Proof.
  intros Hwf (Hc & Hm & Hrows & Hlook) Hi1 Hi2 Hk1 Hk2 Hne Hs1 Hs2 Hsame.
  destruct (row_copy_insert input m i1 k1) as (x1 & Hx1 & -> & Hc1); try assumption.
  cbn [bind]. rewrite Hc1. cbn [bind].
  set (m1 := mkMatrix (columns m) (<[Z.to_nat k1 := x1]> (data m))).
  assert (wf m1) as Hm1
    by (apply wf_insert; [assumption|rewrite Hc; eapply wf_lookup; eassumption]).
  assert (rows m1 = rows m) as Hr1 by (unfold rows, m1; simpl; now rewrite length_insert).
  destruct (row_copy_insert input m1 i2 k2) as (x2 & Hx2 & -> & Hc2);
    try assumption; try (rewrite Hr1; assumption).
  cbn [bind]. rewrite Hc2. eexists. split; [reflexivity|].
  split; [exact Hc|]. split.
  { apply (wf_insert m1); [assumption|].
    change (columns m1) with (columns m). rewrite Hc. eapply wf_lookup; eassumption. }
  split.
  { unfold rows in *. simpl. rewrite !length_insert. exact Hrows. }
  intros i Hi. unfold rows in Hi. simpl in Hi. rewrite !length_insert in Hi. simpl.
  unfold rows in *.
  destruct (decide (i = k2)) as [->|Hn2].
  - rewrite list_lookup_insert_eq by (rewrite length_insert; lia).
    now rewrite Hs2.
  - rewrite list_lookup_insert_ne by lia.
    destruct (decide (i = k1)) as [->|Hn1].
    + rewrite list_lookup_insert_eq by lia. now rewrite Hs1.
    + rewrite list_lookup_insert_ne by lia.
      rewrite Hsame by (assumption || lia). apply Hlook. lia.
Qed.

(** After the first copy the padded sequence holds the input, between zero
    rows. *)
Lemma laid_out_initial input len ts p m0 :
  wf input -> 0 <= len -> 0 <= ts -> holds_input input len ts m0 ->
  (forall i, (i < length (data m0))%nat ->
     data m0 !! i = Some (replicate (columns input) zero) \/
     (Z.to_nat len <= i < Z.to_nat len + length (data input))%nat) ->
  laid_out input len ts (pad_source_after p (rows input) len 0) m0.
Proof.
  intros Hwf Hlen Hts (Hc & Hm & Hrows & Hin) Hzero.
  split; [exact Hc|]. split; [exact Hm|]. split; [exact Hrows|].
  intros i Hi. unfold pad_source_after, rows in *.
  destruct (Z.ltb_spec i len).
  - destruct (Hzero (Z.to_nat i)) as [Hz|Hz]; [lia| |lia].
    rewrite Hz. destruct p; layout_cases.
  - destruct (Z.ltb_spec i (len + Z.of_nat (length (data input)))).
    + simpl. rewrite <- Hin by lia. f_equal. lia.
    + destruct (Hzero (Z.to_nat i)) as [Hz|Hz]; [lia| |lia].
      rewrite Hz. destruct (Z.ltb_spec i (len + Z.of_nat (length (data input)) + 0));
        [lia|reflexivity].
Qed.

Lemma pad_initial_layout input len ts p :
  wf input -> 0 <= len -> 0 <= ts ->
  exists m0,
    copy input (Matrix_new (2 * len + rows input + ts) (cols input))
         len 0 (rows input) (cols (Matrix_new (2 * len + rows input + ts) (cols input)))
    = Ok m0 /\
    laid_out input len ts (pad_source_after p (rows input) len 0) m0.
Proof.
  intros Hwf Hlen Hts.
  destruct (pad_initial input len ts Hwf Hlen Hts) as (m0 & Hcopy & Hinv).
  exists m0. split; [exact Hcopy|].
  apply laid_out_initial; try assumption.
  pose proof (rows_nonneg input) as Hn.
  rewrite copy_rows in Hcopy;
    [|assumption|apply Matrix_new_wf|unfold cols; simpl; lia|lia
     |rewrite Matrix_new_rows by lia; lia].
  injection Hcopy as <-. simpl. intros i Hi.
  rewrite length_inserts, length_replicate in Hi.
  destruct (decide (Z.to_nat len <= i < Z.to_nat len + length (data input))%nat)
    as [Hin|Hout]; [now right|left].
  assert (replicate (Z.to_nat (2 * len + rows input + ts))
            (replicate (Z.to_nat (cols input)) (zero : T)) !! i
          = Some (replicate (columns input) zero)) as Hz.
  { rewrite lookup_replicate_2 by lia. unfold cols. now rewrite Nat2Z.id. }
  destruct (decide (i < Z.to_nat len)%nat).
  - now rewrite list_lookup_inserts_lt by lia.
  - now rewrite list_lookup_inserts_ge by lia.
Qed.

(** X1: what [pad] produces, row by row: the head and the tail the policy
    prescribes around the input, and [timeShift] zero rows at the end. *)
Theorem pad_layout input len ts p :
  wf input -> p <> NONE -> 0 <= len -> 0 <= ts ->
  2 * len + rows input + ts < UInt.modulus ->
  enough_rows p input len ->
  exists m,
    pad input len ts p = Ok m /\ columns m = columns input /\
    rows m = 2 * len + rows input + ts /\
    forall i, 0 <= i < rows m ->
      data m !! Z.to_nat i = source_row input (pad_source p (rows input) len i).
Proof.
  intros Hwf Hp Hlen Hts Hfit Hrows.
  pose proof (rows_nonneg input) as Hn.
  destruct (pad_initial_layout input len ts p Hwf Hlen Hts) as (m0 & H0 & Hinv0).
  assert (1 <= rows input) as Hn1 by (destruct p; simpl in Hrows; try lia; congruence).
  assert (forall m, laid_out input len ts (pad_source_after p (rows input) len len) m ->
            columns m = columns input /\ rows m = 2 * len + rows input + ts /\
            forall i, 0 <= i < rows m ->
              data m !! Z.to_nat i = source_row input (pad_source p (rows input) len i))
    as Hdone.
  { intros m (Hc & _ & Hr & Hlook). split; [exact Hc|]. split; [exact Hr|].
    intros i Hi. rewrite (Hlook i Hi). f_equal.
    unfold pad_source_after, pad_source. destruct p; layout_cases. }
  assert (forall body,
    (forall k m, 0 <= k < len ->
       laid_out input len ts (pad_source_after p (rows input) len k) m ->
       exists m', body k m = Ok m' /\
                  laid_out input len ts (pad_source_after p (rows input) len (k + 1)) m') ->
    exists m, for_range len body m0 = Ok m /\ columns m = columns input /\
              rows m = 2 * len + rows input + ts /\
              forall i, 0 <= i < rows m ->
                data m !! Z.to_nat i = source_row input (pad_source p (rows input) len i))
    as Hloop.
  { intros body Hbody.
    destruct (for_range_inv
                (fun k m => laid_out input len ts (pad_source_after p (rows input) len k) m)
                body len m0) as (m & Hrun & Hinv); try assumption.
    exists m. split; [exact Hrun|]. now apply Hdone. }
  destruct p; [congruence|..]; unfold pad;
    (destruct (Z.ltb_spec (rows input) 1); [lia|]);
    uint_norm; rewrite H0; cbn [bind]; simpl in Hrows.
  - exists m0. split; [reflexivity|]. apply Hdone.
    destruct Hinv0 as (Hc & Hm & Hr & Hlook). repeat split; try assumption.
    intros i Hi. rewrite (Hlook i Hi). f_equal. unfold pad_source_after. layout_cases.
  - apply Hloop. intros k m Hk Hinv. uint_norm.
    assert (rows m = 2 * len + rows input + ts) as Hrm by apply Hinv.
    apply (laid_out_step input len ts
             (pad_source_after CONSTANT (rows input) len k)
             (pad_source_after CONSTANT (rows input) len (k + 1)) m 0 k (rows input - 1)
             (rows input + len + k));
      try assumption; try lia;
      try (unfold pad_source_after; layout_cases).
    intros i Hi Hne1 Hne2. unfold pad_source_after. layout_cases.
  - destruct (Z.ltb_spec (rows input) len); [lia|].
    apply Hloop. intros k m Hk Hinv. uint_norm.
    assert (rows m = 2 * len + rows input + ts) as Hrm by apply Hinv.
    apply (laid_out_step input len ts
             (pad_source_after PERIODIC (rows input) len k)
             (pad_source_after PERIODIC (rows input) len (k + 1)) m (rows input - len + k) k k
             (rows input + len + k));
      try assumption; try lia;
      try (unfold pad_source_after; layout_cases).
    intros i Hi Hne1 Hne2. unfold pad_source_after. layout_cases.
  - destruct (Z.ltb_spec (rows input) (len + 1)); [lia|].
    apply Hloop. intros k m Hk Hinv. uint_norm.
    assert (rows m = 2 * len + rows input + ts) as Hrm by apply Hinv.
    apply (laid_out_step input len ts
             (pad_source_after SYMMETRIC (rows input) len k)
             (pad_source_after SYMMETRIC (rows input) len (k + 1)) m (k + 1) (len - 1 - k)
             (rows input - 2 - k) (rows input + len + k));
      try assumption; try lia;
      try (unfold pad_source_after; layout_cases).
    intros i Hi Hne1 Hne2. unfold pad_source_after. layout_cases.
Qed.

End PadLayout.

Section PadNone.

Context {T : Type} `{!Scalar T}.
Implicit Types m input : Matrix T.

Lemma pad_none_data input len ts :
  wf input -> 0 <= ts -> rows input + ts < UInt.modulus ->
  pad input len ts NONE
  = Ok (mkMatrix (columns input)
          (data input ++ replicate (Z.to_nat ts) (replicate (columns input) zero))).
Proof.
  intros Hwf Hts Hfit. pose proof (rows_nonneg input) as Hn. unfold pad.
  destruct (Z.ltb_spec 0 ts) as [Hpos|Hzero].
  - uint_norm.
    assert (columns (@Matrix_new T _ (rows input + ts) (cols input)) = columns input)
      as Hc by (unfold cols; simpl; lia).
    rewrite copy_rows;
      [|assumption|apply Matrix_new_wf|now rewrite Hc|lia
       |rewrite Matrix_new_rows by lia; lia].
    rewrite Hc. do 2 f_equal. simpl. unfold rows, cols in *. rewrite Nat2Z.id.
    apply list_eq. intros i.
    destruct (decide (i < length (data input))%nat) as [Hi|Hi].
    + rewrite list_lookup_inserts by (rewrite ?length_replicate; lia).
      rewrite lookup_app_l by lia. f_equal. lia.
    + rewrite list_lookup_inserts_ge by (simpl; lia).
      rewrite lookup_app_r by lia.
      destruct (decide (i < length (data input) + Z.to_nat ts)%nat).
      * rewrite !lookup_replicate_2 by lia. reflexivity.
      * rewrite !(proj2 (lookup_ge_None _ _))
          by (rewrite length_replicate; lia). reflexivity.
  - replace ts with 0 by lia. simpl. rewrite app_nil_r. now destruct input.
Qed.

(** X2: without a policy, [pad] only appends [timeShift] zero rows; it takes
    any input, the empty one included, and ignores [length]. *)
Theorem pad_none_appends_zero_rows input len ts :
  wf input -> 0 <= ts -> rows input + ts < UInt.modulus ->
  pad input len ts NONE
  = Ok (mkMatrix (columns input)
          (data input ++ replicate (Z.to_nat ts) (replicate (columns input) zero))).
Proof. apply pad_none_data. Qed.

(** X3: without a policy, [trim] after [pad] does not give the input back when
    [timeShift > 0]: it drops the first [timeShift] rows and ends in zero
    rows; the shape is kept. *)
Theorem trim_pad_none_shifts input len ts :
  wf input -> 0 <= ts -> rows input + ts < UInt.modulus ->
  exists padded,
    pad input len ts NONE = Ok padded /\
    trim padded len ts NONE
    = Ok (mkMatrix (columns input)
            (drop (Z.to_nat ts) (data input)
             ++ replicate (Z.to_nat (Z.min ts (rows input)))
                          (replicate (columns input) zero))).
Proof.
  intros Hwf Hts Hfit. pose proof (rows_nonneg input) as Hn.
  eexists. split; [now apply pad_none_data|].
  set (z := replicate (columns input) (zero : T)).
  unfold trim. destruct (Z.ltb_spec 0 ts) as [Hpos|Hzero].
  - assert (rows (mkMatrix (columns input) (data input ++ replicate (Z.to_nat ts) z))
            = rows input + ts) as Hr
      by (unfold rows; simpl; rewrite length_app, length_replicate; lia).
    rewrite Hr. uint_norm. replace (rows input + ts - ts) with (rows input) by lia.
    rewrite row_wf; try lia.
    2: { unfold wf. simpl. apply Forall_app. split; [exact Hwf|].
         apply Forall_replicate. apply length_replicate. }
    simpl. do 2 f_equal. unfold rows in *.
    apply list_eq. intros i.
    destruct (decide (i < length (data input))%nat) as [Hi|Hi].
    + rewrite lookup_take_lt, lookup_drop by lia.
      destruct (decide (Z.to_nat ts + i < length (data input))%nat) as [Hj|Hj].
      * rewrite lookup_app_l by lia.
        rewrite lookup_app_l by (rewrite length_drop; lia).
        now rewrite lookup_drop.
      * rewrite lookup_app_r by lia.
        rewrite lookup_app_r by (rewrite length_drop; lia).
        rewrite length_drop. rewrite !lookup_replicate_2 by lia. reflexivity.
    + rewrite lookup_take_ge by lia. symmetry. apply lookup_ge_None.
      rewrite length_app, length_drop, length_replicate. lia.
  - replace ts with 0 by lia. simpl.
    replace (Z.to_nat (Z.min 0 (rows input))) with 0%nat by lia.
    simpl. rewrite !app_nil_r. now destruct input.
Qed.

End PadNone.

(** ** The row reversal of backward filters *)

Section Reversal.

Context {T : Type} `{!Scalar T}.
Implicit Types m : Matrix T.

Lemma swap_rows_ok m i j :
  wf m -> 0 <= i < rows m -> 0 <= j < rows m ->
  exists xi xj,
    data m !! Z.to_nat i = Some xi /\ data m !! Z.to_nat j = Some xj /\
    swap_rows m i j
    = Ok (mkMatrix (columns m) (<[Z.to_nat j := xi]> (<[Z.to_nat i := xj]> (data m)))).
Proof.
  intros Hwf Hi Hj.
  destruct (row_copy_insert m m i i) as (xi & Hxi & Hri & _); try assumption; try reflexivity.
  destruct (row_copy_insert m m j i) as (xj & Hxj & Hrj & Hcj); try assumption; try reflexivity.
  exists xi, xj. split; [exact Hxi|]. split; [exact Hxj|].
  unfold swap_rows. rewrite Hri, Hrj. cbn [bind]. rewrite Hcj. cbn [bind].
  set (m1 := mkMatrix (columns m) (<[Z.to_nat i := xj]> (data m))).
  assert (wf m1) as Hm1 by (apply wf_insert; [assumption|eapply wf_lookup; eassumption]).
  apply (copy_row1 m1 j xi); [assumption|exact (wf_lookup m _ _ Hwf Hxi)|].
  unfold rows, m1 in *. simpl. rewrite length_insert. lia.
Qed.

Lemma reverse_rows_data m :
  wf m -> rows m < UInt.modulus ->
  reverse_rows m = Ok (mkMatrix (columns m) (reverse (data m))).
Proof.
  intros Hwf Hfit. pose proof (rows_nonneg m) as Hn.
  set (N := length (data m)).
  unfold reverse_rows.
  destruct (for_range_inv
    (fun k (m' : Matrix T) =>
       columns m' = columns m /\ wf m' /\ length (data m') = N /\
       forall i, (i < N)%nat ->
         data m' !! i
         = if (Z.of_nat i <? k) || (Z.of_nat N - k <=? Z.of_nat i)
           then data m !! (N - 1 - i)%nat else data m !! i)
    (fun k m' => swap_rows m' k (UInt.sub (UInt.sub (rows m') k) 1))
    (rows m / 2) m) as (m' & Hrun & Hc & _ & Hl & Hlook).
  - apply Z.div_pos; lia.
  - repeat split; try assumption. intros i Hi.
    destruct (Z.ltb_spec (Z.of_nat i) 0); [lia|].
    destruct (Z.leb_spec (Z.of_nat N - 0) (Z.of_nat i)); [lia|]. reflexivity.
  - intros k m' Hk (Hc & Hwf' & Hl & Hlook).
    assert (rows m' = Z.of_nat N) as Hr by (unfold rows; lia).
    assert (rows m = Z.of_nat N) as HrN by reflexivity.
    assert (2 * k + 1 <= Z.of_nat N) as Hk2.
    { pose proof (Z.mul_div_le (rows m) 2). lia. }
    rewrite Hr. uint_norm.
    destruct (swap_rows_ok m' k (Z.of_nat N - k - 1)) as (xi & xj & Hxi & Hxj & ->);
      try assumption; try lia.
    eexists. split; [reflexivity|].
    split; [exact Hc|]. split.
    { apply (wf_insert (mkMatrix (columns m') (<[Z.to_nat k := xj]> (data m')))).
      - apply wf_insert; [assumption|eapply wf_lookup; eassumption].
      - simpl. eapply wf_lookup; eassumption. }
    split; [simpl; now rewrite !length_insert|].
    intros i Hi. simpl.
    rewrite Hlook in Hxi, Hxj by lia.
    destruct (Z.ltb_spec (Z.of_nat (Z.to_nat k)) k); [lia|].
    destruct (Z.leb_spec (Z.of_nat N - k) (Z.of_nat (Z.to_nat k))); [lia|].
    destruct (Z.ltb_spec (Z.of_nat (Z.to_nat (Z.of_nat N - k - 1))) k); [lia|].
    destruct (Z.leb_spec (Z.of_nat N - k) (Z.of_nat (Z.to_nat (Z.of_nat N - k - 1))));
      [lia|]. simpl in Hxi, Hxj.
    destruct (decide (i = Z.to_nat (Z.of_nat N - k - 1))) as [->|Hn2].
    + rewrite list_lookup_insert_eq by (rewrite length_insert; lia).
      destruct (Z.ltb_spec (Z.of_nat (Z.to_nat (Z.of_nat N - k - 1))) (k + 1));
        destruct (Z.leb_spec (Z.of_nat N - (k + 1))
                    (Z.of_nat (Z.to_nat (Z.of_nat N - k - 1)))); try lia;
        simpl; rewrite <- Hxi; f_equal; lia.
    + rewrite list_lookup_insert_ne by lia.
      destruct (decide (i = Z.to_nat k)) as [->|Hn1].
      * rewrite list_lookup_insert_eq by lia.
        destruct (Z.ltb_spec (Z.of_nat (Z.to_nat k)) (k + 1)); [|lia].
        simpl. rewrite <- Hxj. f_equal. lia.
      * rewrite list_lookup_insert_ne by lia. rewrite Hlook by lia.
        destruct (Z.ltb_spec (Z.of_nat i) k);
          destruct (Z.ltb_spec (Z.of_nat i) (k + 1)); try lia;
          destruct (Z.leb_spec (Z.of_nat N - k) (Z.of_nat i));
          destruct (Z.leb_spec (Z.of_nat N - (k + 1)) (Z.of_nat i)); try lia;
          reflexivity.
  - rewrite Hrun. f_equal. destruct m' as [c d]. simpl in *. f_equal; [exact Hc|].
    apply list_eq. intros i. destruct (decide (i < N)%nat) as [Hi|Hi].
    + rewrite (Hlook i Hi), reverse_lookup by (fold N; lia). fold N.
      pose proof (Z.mul_div_le (rows m) 2).
      pose proof (Z.mod_pos_bound (rows m) 2).
      pose proof (Z.div_mod (rows m) 2).
      assert (rows m = Z.of_nat N) as HrN by reflexivity.
      destruct (Z.ltb_spec (Z.of_nat i) (rows m / 2));
        destruct (Z.leb_spec (Z.of_nat N - rows m / 2) (Z.of_nat i));
        simpl; f_equal; lia.
    + rewrite !(proj2 (lookup_ge_None _ _)) by (rewrite ?length_reverse; fold N; lia).
      reflexivity.
Qed.

(** X4: the swap loop reverses the order of the rows; run twice, it gives the
    matrix back. *)
Theorem reverse_rows_reverses m :
  wf m -> rows m < UInt.modulus ->
  reverse_rows m = Ok (mkMatrix (columns m) (reverse (data m))) /\
  (let* r := reverse_rows m in reverse_rows r) = Ok m.
Proof.
  intros Hwf Hfit. split; [now apply reverse_rows_data|].
  rewrite reverse_rows_data by assumption. cbn [bind].
  rewrite reverse_rows_data.
  - simpl. rewrite reverse_involutive. now destruct m.
  - unfold wf in *. simpl. now apply Forall_reverse.
  - unfold rows in *. simpl. now rewrite length_reverse.
Qed.

End Reversal.

(** ** More about the loops: where they stop *)

Section LoopStops.

Context {St : Type}.
Implicit Types body : Z -> St -> result St.

Lemma for_from_add body a b lo s :
  for_from (a + b) lo body s
  = let* s' := for_from a lo body s in for_from b (lo + Z.of_nat a) body s'.
Proof.
  revert lo s. induction a as [|a IH]; intros lo s.
  - simpl. now replace (lo + Z.of_nat 0) with lo by lia.
  - simpl. destruct (body lo s) as [s1|e]; [|reflexivity]. cbn [bind].
    rewrite IH. replace (lo + 1 + Z.of_nat a) with (lo + Z.of_nat (S a)) by lia.
    reflexivity.
Qed.

(** A loop whose first [j] iterations keep an invariant and whose
    iteration [j] raises under that invariant raises the same error. *)
Lemma for_range_fails (Inv : Z -> St -> Prop) body n j e s :
  0 <= j < n -> Inv 0 s ->
  (forall k s, 0 <= k < j -> Inv k s -> exists s', body k s = Ok s' /\ Inv (k + 1) s') ->
  (forall s, Inv j s -> body j s = Err e) ->
  for_range n body s = Err e.
Proof.
  intros Hj H0 Hstep Hfail. unfold for_range.
  replace (Z.to_nat n) with (Z.to_nat j + S (Z.to_nat (n - j - 1)))%nat by lia.
  rewrite for_from_add.
  destruct (for_from_inv Inv body (Z.to_nat j) 0 s H0) as (s' & -> & Hinv).
  { intros k s0 Hk. apply Hstep. lia. }
  cbn [bind]. simpl. replace (0 + Z.of_nat (Z.to_nat j)) with j in * by lia.
  now rewrite (Hfail s' Hinv).
Qed.

End LoopStops.

(** ** More about the chain *)

Section ChainMore.

Context {T C : Type} `{!Scalar T} `{!Spectral T C}.
Implicit Types f : @DigitalFilterARMA T.
Implicit Types F H : list C.

(** X5: running a chain is running its first part and then its second part on
    the result; a member that raises ends the run with its error, and the
    members after it are not run. *)
Theorem chain_filter_composes (fs gs : list (@DigitalFilterBase T C)) (input : Matrix T) :
  DigitalFilter_filter (fs ++ gs) input
  = (let* y := DigitalFilter_filter fs input in DigitalFilter_filter gs y) /\
  (forall g y e, DigitalFilter_filter fs input = Ok y -> base_filter g y = Err e ->
                 DigitalFilter_filter (fs ++ g :: gs) input = Err e).
Proof.
  assert (forall (fs gs : list (@DigitalFilterBase T C)) x,
            DigitalFilter_filter (fs ++ gs) x
            = (let* y := DigitalFilter_filter fs x in DigitalFilter_filter gs y)) as Happ.
  { clear. intros fs gs. induction fs as [|f fs IH]; intros x; [reflexivity|].
    simpl. destruct (base_filter f x) as [y|e]; [|reflexivity]. cbn [bind]. apply IH. }
  split; [apply Happ|].
  intros g y e Hy Hg. rewrite Happ, Hy. cbn [bind]. simpl. now rewrite Hg.
Qed.

Lemma ARMA_filter_same_shape f (input out : Matrix T) :
  rows input < UInt.modulus -> filter f input = Ok out -> same_shape out input.
Proof.
  intros Hfit. unfold filter.
  destruct (rows input <? warmup f); [discriminate|].
  destruct (inFrequencyDomain f).
  - now apply filter_frequency_domain_shape.
  - now apply filter_time_domain_shape.
Qed.

(** X6: a chain of ARMA filters that returns a result returns one of the shape
    of its input, however many members it has. *)
Theorem ARMA_chain_preserves_shape (fl : list (@DigitalFilterARMA T)) (input out : Matrix T) :
  rows input < UInt.modulus ->
  DigitalFilter_filter (ARMA_member <$> fl) input = Ok out ->
  rows out = rows input /\ columns out = columns input.
Proof.
  revert input. induction fl as [|f fl IH]; intros input Hfit Hrun.
  - injection Hrun as <-. now split.
  - rewrite fmap_cons in Hrun. simpl in Hrun. bind_inv Hrun.
    apply ARMA_filter_same_shape in Hrun_l as [Hr Hc]; [|assumption].
    destruct (IH a) as [Hr' Hc']; [lia|assumption|]. split; congruence.
Qed.

Lemma chain_response_app (fs gs : list (@DigitalFilterBase T C)) len F :
  chain_response (fs ++ gs) len F
  = (let* F' := chain_response fs len F in chain_response gs len F').
Proof.
  revert F. induction fs as [|f fs IH]; intros F; [reflexivity|].
  simpl. destruct (base_frequencyResponse f len) as [H|e]; [|reflexivity].
  cbn [bind]. destruct (multiply_into F H) as [F'|e]; [|reflexivity].
  cbn [bind]. apply IH.
Qed.

(** A response with more values than the accumulator runs [F.at(k)] out
    of range. *)
Lemma multiply_into_too_long F H :
  (length F < length H)%nat -> multiply_into F H = Err VectorAtOutOfRange.
Proof.
  intros Hlen. unfold multiply_into.
  apply (for_range_fails (fun _ F' => length F' = length F) _ _ (zlen F)).
  - unfold zlen. lia.
  - reflexivity.
  - intros k F' Hk HF'. unfold zlen in Hk.
    destruct (F' !! Z.to_nat k) as [x|] eqn:Hx.
    2: { apply lookup_ge_None in Hx. lia. }
    destruct (H !! Z.to_nat k) as [h|] eqn:Hh.
    2: { apply lookup_ge_None in Hh. lia. }
    rewrite (vec_at_lookup F' k x), (vec_at_lookup H k h) by (lia || assumption).
    cbn [bind]. rewrite vec_set_ok by (unfold zlen; lia).
    eexists. split; [reflexivity|]. now rewrite length_insert.
  - intros F' HF'. unfold vec_at at 1. unfold zlen. rewrite Nat2Z.id.
    now rewrite (proj2 (lookup_ge_None F' (length F))) by lia.
Qed.

(** X7: what a member whose response has another size than [(length+2)/2] does
    to the chain: a shorter response multiplies the first bins only, a
    longer one raises [std::out_of_range]. *)
Theorem chain_response_size_mismatch
  (fs gs : list (@DigitalFilterBase T C)) (g : @DigitalFilterBase T C) Hs H len :
  0 <= len -> len + 2 < UInt.modulus ->
  Forall2 (fun b H => base_frequencyResponse b len = Ok H /\ zlen H = (len + 2) / 2)
          fs Hs ->
  base_frequencyResponse g len = Ok H ->
  let P := elementwise_product (Z.to_nat ((len + 2) / 2)) Hs in
  (zlen H <= (len + 2) / 2 ->
   DigitalFilter_frequencyResponse (fs ++ [g]) len
   = Ok (zip_with cmul P H ++ drop (length H) P)) /\
  ((len + 2) / 2 < zlen H ->
   DigitalFilter_frequencyResponse (fs ++ g :: gs) len = Err VectorAtOutOfRange).
Proof.
  intros Hlen Hfit Hall Hg P.
  assert (0 <= (len + 2) / 2) as Hn by (apply Z.div_pos; lia).
  destruct (chain_response_ok fs Hs len (Z.to_nat ((len + 2) / 2))
              (replicate (Z.to_nat ((len + 2) / 2)) cone)) as (Hrun & Hl).
  { apply length_replicate. }
  { eapply Forall2_impl; [exact Hall|]. intros b H0 (Hf & HH). split; [exact Hf|].
    unfold zlen in HH. lia. }
  fold (elementwise_product (Z.to_nat ((len + 2) / 2)) Hs) in Hrun, Hl. fold P in Hrun, Hl.
  unfold DigitalFilter_frequencyResponse. uint_norm. split; intros Hsize.
  - rewrite chain_response_app, Hrun. cbn [bind]. simpl. rewrite Hg. cbn [bind].
    rewrite multiply_into_ok by (unfold zlen in Hsize; lia). reflexivity.
  - rewrite chain_response_app, Hrun. cbn [bind]. simpl. rewrite Hg. cbn [bind].
    rewrite multiply_into_too_long by (unfold zlen in Hsize; lia). reflexivity.
Qed.

End ChainMore.

(** ** More about the frequency response *)

Section ResponseMore.

Context {T C : Type} `{!Scalar T} `{!Spectral T C}.
Implicit Types f : @DigitalFilterARMA T.

(** The padded vectors before the reflection. *)
Lemma padded_coefficients_unreflected f len :
  zlen (bn f) <= len -> zlen (an f) <= len ->
  0 <= bnStartIndex f <= zlen (bn f) -> len < UInt.modulus ->
  exists aPad bPad,
    zlen aPad = len /\ zlen bPad = len /\
    padded_coefficients f len
    = if backward f then reflect (Z.max (zlen (bn f)) (zlen (an f))) (aPad, bPad)
      else Ok (aPad, bPad).
Proof.
  intros Hb Ha Hs Hfit.
  pose proof (zlen_nonneg (bn f)) as Hbn. pose proof (zlen_nonneg (an f)) as Han.
  assert (zlen (Vector_new len) = len) as Hnew
    by (unfold zlen, Vector_new; rewrite length_replicate; lia).
  unfold padded_coefficients. uint_norm.
  destruct (Vector_row_ok (bn f) (bnStartIndex f) (zlen (bn f) - bnStartIndex f))
    as (-> & Hl1); try lia. cbn [bind].
  match goal with |- context [Vector_copy ?s ?d ?r ?h] =>
    destruct (Vector_copy_ok s d r h) as (-> & Hl2); try lia;
    set (b1 := list_inserts (Z.to_nat r) s d) in * end.
  cbn [bind].
  destruct (Vector_row_ok (bn f) 0 (bnStartIndex f)) as (-> & Hl3); try lia.
  cbn [bind]. rewrite Hl2, Hnew. uint_norm.
  match goal with |- context [Vector_copy ?s ?d ?r ?h] =>
    destruct (Vector_copy_ok s d r h) as (-> & Hl4); try lia;
    set (b2 := list_inserts (Z.to_nat r) s d) in * end.
  cbn [bind].
  match goal with |- context [Vector_copy ?s ?d ?r ?h] =>
    destruct (Vector_copy_ok s d r h) as (-> & Hl5); try lia;
    set (a1 := list_inserts (Z.to_nat r) s d) in * end.
  cbn [bind]. exists a1, b2. split; [lia|]. split; [lia|]. reflexivity.
Qed.

(** The two padded vectors before the reflection, entry by entry. *)
Lemma padded_coefficients_layout f len :
  zlen (bn f) <= len -> zlen (an f) <= len ->
  0 <= bnStartIndex f <= zlen (bn f) -> len < UInt.modulus ->
  padded_coefficients f len
  = let ab := (an f ++ replicate (Z.to_nat (len - zlen (an f))) zero,
               drop (Z.to_nat (bnStartIndex f)) (bn f)
               ++ replicate (Z.to_nat (len - zlen (bn f))) zero
               ++ take (Z.to_nat (bnStartIndex f)) (bn f)) in
    if backward f then reflect (Z.max (zlen (bn f)) (zlen (an f))) ab else Ok ab.
Proof.
  intros Hb Ha Hs Hfit.
  pose proof (zlen_nonneg (bn f)) as Hbn. pose proof (zlen_nonneg (an f)) as Han.
  assert (zlen (Vector_new len) = len) as Hnew
    by (unfold zlen, Vector_new; rewrite length_replicate; lia).
  unfold padded_coefficients. uint_norm.
  destruct (Vector_row_ok (bn f) (bnStartIndex f) (zlen (bn f) - bnStartIndex f))
    as (-> & Hl1); try lia. cbn [bind].
  match goal with |- context [Vector_copy ?s ?d ?r ?h] =>
    destruct (Vector_copy_ok s d r h) as (-> & Hl2); try lia end.
  cbn [bind].
  destruct (Vector_row_ok (bn f) 0 (bnStartIndex f)) as (-> & Hl3); try lia.
  cbn [bind]. rewrite Hl2, Hnew. uint_norm.
  match goal with |- context [Vector_copy ?s ?d ?r ?h] =>
    destruct (Vector_copy_ok s d r h) as (-> & Hl4); try lia end.
  cbn [bind].
  match goal with |- context [Vector_copy ?s ?d ?r ?h] =>
    destruct (Vector_copy_ok s d r h) as (-> & Hl5); try lia end.
  cbn [bind]. cbv zeta.
  match goal with
  | |- (if _ then for_range _ _ (?a, ?b) else _) = (if _ then reflect _ (?a0, ?b0) else _) =>
      assert (a = a0 /\ b = b0) as [-> ->]; [split|reflexivity]
  end.
  - unfold Vector_new, zlen in *. change (Z.to_nat 0) with 0%nat.
    apply list_eq. intros i.
    destruct (decide (i < length (an f))%nat).
    + rewrite list_lookup_inserts by (rewrite ?length_replicate; lia).
      rewrite lookup_app_l by lia. f_equal. lia.
    + rewrite list_lookup_inserts_ge by lia.
      rewrite lookup_app_r by lia.
      destruct (decide (i < Z.to_nat len)%nat).
      * rewrite !lookup_replicate_2 by lia. reflexivity.
      * rewrite !(proj2 (lookup_ge_None _ _)) by (rewrite length_replicate; lia).
        reflexivity.
  - unfold Vector_new, zlen in *. change (Z.to_nat 0) with 0%nat.
    rewrite drop_0.
    set (s := Z.to_nat (bnStartIndex f)) in *.
    set (tail := drop s (bn f)) in *.
    assert (take (Z.to_nat (Z.of_nat (length (bn f)) - bnStartIndex f)) tail = tail)
      as -> by (apply take_ge; unfold tail; rewrite length_drop; lia).
    assert (length tail = (length (bn f) - s)%nat) as Htail
      by (unfold tail; rewrite length_drop; lia).
    assert (length (take s (bn f)) = s) as Hhead by (rewrite length_take; lia).
    apply list_eq. intros i.
    destruct (decide (i < length tail)%nat).
    + rewrite list_lookup_inserts_lt by lia.
      rewrite list_lookup_inserts by (rewrite ?length_replicate; lia).
      rewrite lookup_app_l by lia. f_equal. lia.
    + rewrite lookup_app_r by lia.
      destruct (decide (i < Z.to_nat len - s)%nat).
      * rewrite list_lookup_inserts_lt by lia.
        rewrite list_lookup_inserts_ge by lia.
        rewrite lookup_app_l by (rewrite length_replicate; lia).
        rewrite !lookup_replicate_2 by lia. reflexivity.
      * rewrite lookup_app_r by (rewrite length_replicate; lia).
        rewrite length_replicate.
        destruct (decide (i < Z.to_nat len)%nat).
        -- rewrite list_lookup_inserts
             by (rewrite ?length_inserts, ?length_replicate; lia).
           f_equal. lia.
        -- rewrite list_lookup_inserts_ge by lia.
           rewrite list_lookup_inserts_ge by lia.
           rewrite !(proj2 (lookup_ge_None _ _))
             by (rewrite ?length_replicate, ?length_take; lia).
           reflexivity.
Qed.

(** X8: the padded vectors of a forward filter: [an] followed by zeros, and
    [bn] from [bnStartIndex] on at the start, its first [bnStartIndex]
    taps wrapped to the end, zeros in between. *)
Theorem forward_coefficients_layout f len :
  backward f = false ->
  zlen (bn f) <= len -> zlen (an f) <= len ->
  0 <= bnStartIndex f <= zlen (bn f) -> len < UInt.modulus ->
  padded_coefficients f len
  = Ok (an f ++ replicate (Z.to_nat (len - zlen (an f))) zero,
        drop (Z.to_nat (bnStartIndex f)) (bn f)
        ++ replicate (Z.to_nat (len - zlen (bn f))) zero
        ++ take (Z.to_nat (bnStartIndex f)) (bn f)).
Proof.
  intros Hbw Hb Ha Hs Hfit.
  rewrite padded_coefficients_layout by assumption. cbv zeta. now rewrite Hbw.
Qed.

Lemma mirrored_length n (v : list T) : length (mirrored n v) = length v.
Proof. unfold mirrored. apply length_imap. Qed.

Lemma mirrored_zero (v : list T) : mirrored 0 v = v.
Proof.
  unfold mirrored. apply list_eq. intros i. rewrite list_lookup_imap.
  destruct (v !! i) as [x|] eqn:Hx; [|reflexivity]. simpl.
  assert (i < length v)%nat by (apply lookup_lt_is_Some; eauto).
  unfold zlen.
  destruct (Z.leb_spec 1 (Z.of_nat i)); [|reflexivity].
  destruct (Z.leb_spec (Z.of_nat i) 0); [lia|].
  destruct (Z.leb_spec (Z.of_nat (length v) - Z.of_nat i) 0); [lia|]. reflexivity.
Qed.

Lemma mirrored_lookup n (v : list T) i x :
  v !! i = Some x ->
  mirrored n v !! i
  = if (1 <=? Z.of_nat i) && xorb (Z.of_nat i <=? n) (zlen v - Z.of_nat i <=? n)
    then v !! (length v - i)%nat else Some x.
Proof.
  intros Hx. unfold mirrored. rewrite list_lookup_imap, Hx. simpl.
  assert (i < length v)%nat by (apply lookup_lt_is_Some; eauto).
  destruct (Z.leb_spec 1 (Z.of_nat i)); [|reflexivity]. simpl.
  destruct (xorb _ _); [|reflexivity].
  destruct (lookup_lt_is_Some_2 v (length v - i)) as [y Hy]; [lia|].
  now rewrite Hy.
Qed.

(** One round of the loop on one vector. *)
Lemma mirrored_step k (v : list T) :
  0 <= k -> k + 1 < zlen v ->
  swap_elems (mirrored k v) (k + 1) (zlen v - 1 - k) = Ok (mirrored (k + 1) v).
Proof.
  intros Hk Hlen. unfold swap_elems, elem, zlen in *.
  set (len := length v) in *.
  set (p := Z.to_nat (k + 1)). set (q := Z.to_nat (Z.of_nat len - 1 - k)).
  destruct (lookup_lt_is_Some_2 v p) as [vp Hvp]; [lia|].
  destruct (lookup_lt_is_Some_2 v q) as [vq Hvq]; [lia|].
  assert (len - p = q)%nat as Hpq by lia.
  assert (len - q = p)%nat as Hqp by lia.
  assert (forall i x, v !! i = Some x ->
            mirrored k v !! i
            = if (1 <=? Z.of_nat i)
                 && xorb (Z.of_nat i <=? k) (Z.of_nat len - Z.of_nat i <=? k)
              then v !! (len - i)%nat else Some x) as Hm
    by (intros; now apply mirrored_lookup).
  assert (forall i x, v !! i = Some x ->
            mirrored (k + 1) v !! i
            = if (1 <=? Z.of_nat i)
                 && xorb (Z.of_nat i <=? k + 1) (Z.of_nat len - Z.of_nat i <=? k + 1)
              then v !! (len - i)%nat else Some x) as Hm1
    by (intros; now apply mirrored_lookup).
  pose proof (Hm p vp Hvp) as Hp. pose proof (Hm q vq Hvq) as Hq.
  rewrite Hpq in Hp. rewrite Hqp in Hq.
  assert (exists xp, mirrored k v !! p = Some xp) as (xp & Hxp)
    by (apply lookup_lt_is_Some_2; rewrite mirrored_length; lia).
  assert (exists xq, mirrored k v !! q = Some xq) as (xq & Hxq)
    by (apply lookup_lt_is_Some_2; rewrite mirrored_length; lia).
  rewrite Hxp, Hxq. cbn [bind]. f_equal.
  apply list_eq. intros i.
  destruct (decide (i < len)%nat) as [Hi|Hi].
  2: { rewrite !(proj2 (lookup_ge_None _ _))
         by (rewrite ?length_insert, mirrored_length; fold len; lia).
       reflexivity. }
  destruct (lookup_lt_is_Some_2 v i) as [vi Hvi]; [fold len; lia|].
  rewrite (Hm1 i vi Hvi).
  destruct (decide (i = q)) as [->|Hnq].
  - rewrite list_lookup_insert_eq by (rewrite length_insert, mirrored_length; fold len; lia).
    rewrite <- Hxp, Hp, Hqp.
    rewrite Hvq in Hvi. injection Hvi as <-.
    destruct (Z.leb_spec 1 (Z.of_nat p)); [|lia].
    destruct (Z.leb_spec 1 (Z.of_nat q)); [|lia].
    destruct (Z.leb_spec (Z.of_nat p) k); [lia|].
    destruct (Z.leb_spec (Z.of_nat len - Z.of_nat p) k);
      destruct (Z.leb_spec (Z.of_nat q) (k + 1));
      destruct (Z.leb_spec (Z.of_nat len - Z.of_nat q) (k + 1));
      simpl; try lia; try reflexivity; try congruence.
    + replace p with q in * by lia. congruence.
  - rewrite list_lookup_insert_ne by lia.
    destruct (decide (i = p)) as [->|Hnp].
    + rewrite list_lookup_insert_eq by (rewrite mirrored_length; fold len; lia).
      rewrite <- Hxq, Hq, Hpq.
      rewrite Hvp in Hvi. injection Hvi as <-.
      destruct (Z.leb_spec 1 (Z.of_nat p)); [|lia].
      destruct (Z.leb_spec 1 (Z.of_nat q)); [|lia].
      destruct (Z.leb_spec (Z.of_nat len - Z.of_nat q) k); [lia|].
      destruct (Z.leb_spec (Z.of_nat q) k);
        destruct (Z.leb_spec (Z.of_nat p) (k + 1));
        destruct (Z.leb_spec (Z.of_nat len - Z.of_nat p) (k + 1));
        simpl; try lia; try reflexivity; try congruence.
    + rewrite list_lookup_insert_ne by lia.
      rewrite (Hm i vi Hvi).
      destruct (Z.leb_spec 1 (Z.of_nat i)); [|reflexivity].
      destruct (Z.leb_spec (Z.of_nat i) k);
        destruct (Z.leb_spec (Z.of_nat i) (k + 1));
        destruct (Z.leb_spec (Z.of_nat len - Z.of_nat i) k);
        destruct (Z.leb_spec (Z.of_nat len - Z.of_nat i) (k + 1));
        simpl; try lia; reflexivity.
Qed.

(** The reflection loop on the two vectors. *)
Lemma reflect_mirrors n (a b : list T) :
  0 <= n -> n < zlen a -> zlen b = zlen a -> zlen a < UInt.modulus ->
  reflect n (a, b) = Ok (mirrored n a, mirrored n b).
Proof.
  intros Hn Hlen Hab Hfit. unfold reflect.
  destruct (for_range_inv
              (fun k (ab : list T * list T) => ab = (mirrored k a, mirrored k b))
              (fun k ab =>
                 let* aPad := swap_elems (fst ab) (UInt.add k 1)
                                (UInt.sub (UInt.sub (zlen (fst ab)) 1) k) in
                 let* bPad := swap_elems (snd ab) (UInt.add k 1)
                                (UInt.sub (UInt.sub (zlen (snd ab)) 1) k) in
                 Ok (aPad, bPad))
              n (a, b)) as (ab & Hrun & ->); [assumption| | |exact Hrun].
  - now rewrite !mirrored_zero.
  - intros k ab Hk ->. cbn [fst snd].
    assert (zlen (mirrored k a) = zlen a) as ->
      by (unfold zlen; now rewrite mirrored_length).
    assert (zlen (mirrored k b) = zlen b) as ->
      by (unfold zlen; now rewrite mirrored_length).
    rewrite Hab. uint_norm.
    rewrite mirrored_step by lia. cbn [bind].
    rewrite <- Hab. rewrite mirrored_step by lia. cbn [bind].
    eexists. split; reflexivity.
Qed.

(** X20: the padded vectors of a backward filter, when the requested length
    exceeds the coefficient support [n = max(bn.rows(), an.rows())]: the
    reflection loop exchanges entry [i >= 1] of the forward vectors with
    entry [len - i] when exactly one of the two lies within [n] of its end;
    a pair where both do is swapped twice and stays in place. *)
Theorem backward_coefficients_mirrored f len :
  backward f = true ->
  zlen (bn f) <= len -> zlen (an f) <= len ->
  0 <= bnStartIndex f <= zlen (bn f) ->
  Z.max (zlen (bn f)) (zlen (an f)) < len -> len < UInt.modulus ->
  padded_coefficients f len
  = Ok (mirrored (Z.max (zlen (bn f)) (zlen (an f)))
          (an f ++ replicate (Z.to_nat (len - zlen (an f))) zero),
        mirrored (Z.max (zlen (bn f)) (zlen (an f)))
          (drop (Z.to_nat (bnStartIndex f)) (bn f)
           ++ replicate (Z.to_nat (len - zlen (bn f))) zero
           ++ take (Z.to_nat (bnStartIndex f)) (bn f))).
Proof.
  intros Hbw Hb Ha Hs Hmax Hfit.
  pose proof (zlen_nonneg (bn f)) as Hbn. pose proof (zlen_nonneg (an f)) as Han.
  rewrite padded_coefficients_layout by assumption. cbv zeta. rewrite Hbw.
  assert (zlen (an f ++ replicate (Z.to_nat (len - zlen (an f))) zero) = len) as Hla
    by (unfold zlen in *; rewrite length_app, length_replicate; lia).
  apply reflect_mirrors; try lia.
  rewrite Hla. unfold zlen in *.
  rewrite !length_app, length_replicate, length_drop, length_take. lia.
Qed.

(** [frequencyResponse] on a length it can serve returns one value per bin
    of the transform of a vector of that length. *)
Lemma frequencyResponse_ok f len :
  (forall u v : list T, length u = length v -> length (fft u) = length (fft v)) ->
  response_defined f len -> len < UInt.modulus ->
  exists aPad F,
    frequencyResponse f len = Ok F /\ zlen aPad = len /\ length F = length (fft aPad).
Proof.
  intros Hfft (Hb & Ha & Hs & Hback) Hfit.
  destruct (padded_coefficients_ok f len) as (aPad & bPad & Hpc & Hla & Hlb);
    try assumption.
  exists aPad. eexists. unfold frequencyResponse.
  destruct (Z.gtb_spec (zlen (bn f)) len); [lia|].
  destruct (Z.gtb_spec (zlen (an f)) len); [lia|].
  simpl orb. cbv iota. rewrite Hpc. cbn [bind fst snd].
  rewrite response_of_spectra_ok by (apply Hfft; unfold zlen in *; lia).
  split; [reflexivity|]. split; [exact Hla|].
  rewrite length_zip_with. rewrite (Hfft bPad aPad); unfold zlen in *; lia.
Qed.

(** X9: the response of a chain of ARMA filters: with a transform of
    [n/2 + 1] bins, every member that can serve [len] answers with
    [(len+2)/2] values, so the chain never leaves its accumulator and
    returns the element-wise product of the members' responses. *)
Theorem ARMA_chain_response (fl : list (@DigitalFilterARMA T)) len :
  (forall v : list T, length (fft v) = (length v / 2 + 1)%nat) ->
  0 <= len -> len + 2 < UInt.modulus ->
  Forall (fun f => response_defined f len) fl ->
  exists Hs,
    Forall2 (fun f H => frequencyResponse f len = Ok H /\ zlen H = (len + 2) / 2) fl Hs /\
    DigitalFilter_frequencyResponse (ARMA_member <$> fl) len
    = Ok (elementwise_product (Z.to_nat ((len + 2) / 2)) Hs).
Proof.
  intros Hfft Hlen Hfit Hall.
  assert (exists Hs,
            Forall2 (fun f H => frequencyResponse f len = Ok H /\ zlen H = (len + 2) / 2)
                    fl Hs) as (Hs & HHs).
  { induction Hall as [|f fl Hf _ (Hs & IH)]; [exists []; constructor|].
    destruct (frequencyResponse_ok f len) as (aPad & F & HF & Hla & HlF);
      try assumption; try lia.
    { intros u v Huv. now rewrite !Hfft, Huv. }
    exists (F :: Hs). constructor; [|exact IH]. split; [exact HF|].
    rewrite Hfft in HlF. unfold zlen in *. rewrite HlF.
    rewrite Nat2Z.inj_add, Nat2Z.inj_div, Hla. simpl (Z.of_nat 2). simpl (Z.of_nat 1).
    replace (len + 2) with (1 * 2 + len) by lia.
    rewrite Z.div_add_l by lia. lia. }
  exists Hs. split; [exact HHs|].
  unfold DigitalFilter_frequencyResponse, elementwise_product. uint_norm.
  apply (chain_response_ok (ARMA_member <$> fl) Hs len (Z.to_nat ((len + 2) / 2))).
  - apply length_replicate.
  - apply Forall2_fmap_l. eapply Forall2_impl; [exact HHs|].
    intros f H (Hf & HH). split; [exact Hf|].
    assert (0 <= (len + 2) / 2) by (apply Z.div_pos; lia).
    unfold zlen in HH. lia.
Qed.

(** The last round of the reflection loop leaves the padded vectors when
    the requested length is the coefficient support. *)
Lemma reflection_overruns f len :
  backward f = true ->
  zlen (bn f) <= len -> zlen (an f) <= len -> 0 <= bnStartIndex f <= zlen (bn f) ->
  Z.max (zlen (bn f)) (zlen (an f)) = len -> 1 <= len < UInt.modulus ->
  padded_coefficients f len = Err (OutOfBoundsAccess len).
Proof.
  intros Hbw Hb Ha Hs Hmax Hlen.
  destruct (padded_coefficients_unreflected f len) as (a0 & b0 & Hla & Hlb & ->);
    try assumption; try lia.
  rewrite Hbw, Hmax. unfold reflect.
  apply (for_range_fails
           (fun _ (ab : list T * list T) => zlen (fst ab) = len /\ zlen (snd ab) = len)
           _ _ (len - 1)).
  - lia.
  - now split.
  - intros k [a b] Hk (Ha' & Hb'). simpl in *. rewrite Ha', Hb'. uint_norm.
    destruct (swap_elems_ok a (k + 1) (len - 1 - k)) as (a' & -> & Hla'); try lia.
    cbn [bind].
    destruct (swap_elems_ok b (k + 1) (len - 1 - k)) as (b' & -> & Hlb'); try lia.
    cbn [bind]. eexists. split; [reflexivity|]. simpl. lia.
  - intros [a b] (Ha' & Hb'). simpl in *. uint_norm.
    replace (len - 1 + 1) with len by lia.
    unfold swap_elems, elem. unfold zlen in Ha'.
    now rewrite (proj2 (lookup_ge_None a (Z.to_nat len))) by lia.
Qed.

(** X10: a backward filter asked for a response as long as its coefficient
    support reads index [len] of vectors of [len] entries. *)
Theorem backward_response_reads_past_the_end f len :
  backward f = true ->
  zlen (bn f) <= len -> zlen (an f) <= len -> 0 <= bnStartIndex f <= zlen (bn f) ->
  Z.max (zlen (bn f)) (zlen (an f)) = len -> 1 <= len < UInt.modulus ->
  padded_coefficients f len = Err (OutOfBoundsAccess len) /\
  frequencyResponse f len = Err (OutOfBoundsAccess len).
Proof.
  intros Hbw Hb Ha Hs Hmax Hlen.
  pose proof (reflection_overruns f len Hbw Hb Ha Hs Hmax Hlen) as Hpc.
  split; [exact Hpc|]. unfold frequencyResponse.
  destruct (Z.gtb_spec (zlen (bn f)) len); [lia|].
  destruct (Z.gtb_spec (zlen (an f)) len); [lia|].
  simpl orb. cbv iota. now rewrite Hpc.
Qed.

Lemma Vector_row_error (v : list T) r h e :
  Vector_row v r h = Err e -> e = SliceOutOfRange.
Proof. unfold Vector_row. destruct (_ <=? _); [discriminate|now intros [= <-]]. Qed.

Lemma Vector_copy_error (src dst : list T) r h e :
  Vector_copy src dst r h = Err e -> library_error e.
Proof.
  unfold Vector_copy, library_error. destruct (_ <=? _); [|intros [= <-]; auto].
  destruct (_ =? _); [discriminate|intros [= <-]; auto].
Qed.

Lemma swap_elems_error (v : list T) i j e :
  swap_elems v i j = Err e -> exists k, e = OutOfBoundsAccess k.
Proof.
  unfold swap_elems, elem. intros He.
  destruct (v !! Z.to_nat i); [|injection He as <-; eauto]. cbn [bind] in He.
  destruct (v !! Z.to_nat j); [discriminate|injection He as <-; eauto].
Qed.

Lemma vec_at_error {A} (v : list A) k e : vec_at v k = Err e -> e = VectorAtOutOfRange.
Proof. unfold vec_at. destruct (v !! _); [discriminate|now intros [= <-]]. Qed.

Lemma vec_set_error {A} (v : list A) k x e :
  vec_set v k x = Err e -> e = VectorAtOutOfRange.
Proof. unfold vec_set. destruct (_ <? _)%nat; [discriminate|now intros [= <-]]. Qed.

(** Below its length check, [frequencyResponse] raises no
    [ResponseLengthTooShort]. *)
Lemma padded_coefficients_error f len e :
  padded_coefficients f len = Err e -> e <> ResponseLengthTooShort.
Proof.
  unfold padded_coefficients. intros He.
  apply bind_Err in He as [He | (? & _ & He)].
  { apply Vector_row_error in He as ->. discriminate. }
  apply bind_Err in He as [He | (? & _ & He)].
  { apply Vector_copy_error in He as [-> | ->]; discriminate. }
  apply bind_Err in He as [He | (? & _ & He)].
  { apply Vector_row_error in He as ->. discriminate. }
  apply bind_Err in He as [He | (? & _ & He)].
  { apply Vector_copy_error in He as [-> | ->]; discriminate. }
  apply bind_Err in He as [He | (? & _ & He)].
  { apply Vector_copy_error in He as [-> | ->]; discriminate. }
  destruct (backward f); [|discriminate].
  apply (for_from_error (fun e => e <> ResponseLengthTooShort)) in He; [exact He|].
  intros k ab e0 Hb.
  apply bind_Err in Hb as [Hb | (? & _ & Hb)].
  { apply swap_elems_error in Hb as (i & ->). discriminate. }
  apply bind_Err in Hb as [Hb | (? & _ & Hb)]; [|discriminate].
  apply swap_elems_error in Hb as (i & ->). discriminate.
Qed.

Lemma response_of_spectra_error (A B : list C) e :
  response_of_spectra A B = Err e -> e = VectorAtOutOfRange.
Proof.
  unfold response_of_spectra, for_range. intros He.
  apply (for_from_error (fun e => e = VectorAtOutOfRange)) in He; [exact He|].
  intros k F e0 Hb.
  apply bind_Err in Hb as [Hb | (a & _ & Hb)]; [now apply vec_at_error in Hb|].
  apply bind_Err in Hb as [Hb | (v & _ & Hb)]; [|now apply vec_set_error in Hb].
  destruct (gtb (cabs a) zero); [|discriminate].
  apply bind_Err in Hb as [Hb | (b & _ & Hb)]; [now apply vec_at_error in Hb|].
  apply bind_Err in Hb as [Hb | (a' & _ & Hb)]; [now apply vec_at_error in Hb|].
  discriminate.
Qed.

(** X11: [frequencyResponse] raises [ResponseLengthTooShort] exactly when the
    requested length is shorter than a coefficient vector. *)
Theorem frequencyResponse_length_error f len :
  frequencyResponse f len = Err ResponseLengthTooShort
  <-> len < Z.max (zlen (bn f)) (zlen (an f)).
Proof.
  unfold frequencyResponse.
  destruct (Z.gtb_spec (zlen (bn f)) len) as [Hb|Hb]; simpl orb.
  { split; [lia|reflexivity]. }
  destruct (Z.gtb_spec (zlen (an f)) len) as [Ha|Ha]; cbv iota.
  { split; [lia|reflexivity]. }
  split; [|lia]. intros He. exfalso.
  apply bind_Err in He as [He | (ab & _ & He)].
  - now apply padded_coefficients_error in He.
  - apply response_of_spectra_error in He. discriminate.
Qed.

End ResponseMore.

(** ** Feed-forward filters: the block algorithm is one banded product *)

Section FeedForward.

Context {T : Type} `{!Scalar T}.
Implicit Types P : list (list T).

(** The laws of exact arithmetic the block algorithm rests on. *)
Hypothesis add_assoc : forall x y z : T, add x (add y z) = add (add x y) z.
Hypothesis add_zero_l : forall x : T, add zero x = x.
Hypothesis add_zero_r : forall x : T, add x zero = x.
Hypothesis mul_one_l : forall x : T, mul one x = x.
Hypothesis mul_zero_l : forall x : T, mul zero x = zero.

Lemma vadd_assoc (u v w : list T) : vadd u (vadd v w) = vadd (vadd u v) w.
Proof.
  unfold vadd. revert v w. induction u as [|x u IH]; intros [|y v] [|z w];
    try reflexivity.
  simpl. now rewrite IH, add_assoc.
Qed.

Lemma vecmat_length (a : list T) P w :
  Forall (fun r => length r = w) P -> length (vecmat a P w) = w.
Proof.
  intros HP. revert a. induction HP as [|r P Hr _ IH]; intros [|x a]; simpl;
    try apply length_replicate.
  unfold vadd, vscale. rewrite length_zip_with, length_fmap, IH. lia.
Qed.

(** A vector-matrix product splits along the rows. *)
Lemma vecmat_app (a1 a2 : list T) P1 P2 w :
  length a1 = length P1 ->
  Forall (fun r => length r = w) P1 -> Forall (fun r => length r = w) P2 ->
  vecmat (a1 ++ a2) (P1 ++ P2) w = vadd (vecmat a1 P1 w) (vecmat a2 P2 w).
Proof.
  intros Hlen HP1 HP2. revert a1 Hlen.
  induction HP1 as [|r P1 Hr _ IH]; intros [|x a1] Hlen; try discriminate.
  - simpl. pose proof (vadd_zeros_l add_zero_l (vecmat a2 P2 w)) as Hz.
    rewrite (vecmat_length a2 P2 w HP2) in Hz. now rewrite Hz.
  - simpl. rewrite IH by (simpl in Hlen; lia). apply vadd_assoc.
Qed.

Lemma band_row_length coef r w : length (band_row coef r w) = w.
Proof. unfold band_row. now rewrite length_fmap, length_seq. Qed.

Lemma band_row_lookup coef r w c :
  (c < w)%nat -> band_row coef r w !! c = Some (band_entry coef r c).
Proof.
  intros Hc. unfold band_row.
  rewrite list_lookup_fmap, lookup_seq_lt by assumption. reflexivity.
Qed.

Lemma band_row_app coef m J c :
  band_row coef m (J + c)
  = band_row coef m J ++ ((fun j => band_entry coef m (J + j)) <$> seq 0 c).
Proof.
  unfold band_row. rewrite seq_app, fmap_app. f_equal.
  replace (0 + J)%nat with (J + 0)%nat by lia.
  rewrite <- (fmap_add_seq J 0 c), <- list_fmap_compose. reflexivity.
Qed.

Lemma take_split {A} (l : list A) J c :
  take (J + c) l = take J l ++ take c (drop J l).
Proof.
  revert l. induction J as [|J IH]; intros [|x l]; simpl; try reflexivity.
  - now rewrite take_nil.
  - now rewrite IH.
Qed.

(** Extending the sum by the rows of a block adds the block's
    contribution. *)
Lemma partial_row_extend coef P w m J c :
  Forall (fun r => length r = w) P -> (J + c <= length P)%nat ->
  partial_row coef P w m (J + c)
  = vadd (partial_row coef P w m J)
         (vecmat ((fun j => band_entry coef m (J + j)) <$> seq 0 c)
                 (take c (drop J P)) w).
Proof.
  intros HP Hlen. unfold partial_row.
  rewrite band_row_app, take_split.
  apply vecmat_app.
  - rewrite band_row_length, length_take. lia.
  - now apply Forall_take.
  - now apply Forall_take, Forall_drop.
Qed.

(** The matrix the source builds from [coef], copied down every column
    from the diagonal, is the banded matrix of [coef]. *)
Lemma banded_rows (coef : list T) bs :
  1 <= zlen coef -> 1 <= bs -> zlen coef + bs < UInt.modulus ->
  banded coef bs
  = Ok (mkMatrix (Z.to_nat bs)
          ((fun r => band_row coef r (Z.to_nat bs))
             <$> seq 0 (Z.to_nat (zlen coef + bs - 1)))).
Proof.
  intros Hcoef Hbs Hfit. unfold banded. uint_norm.
  set (n := Z.to_nat bs). set (R := Z.to_nat (zlen coef + bs - 1)).
  assert (cols (@Matrix_new T _ (zlen coef + bs - 1) bs) = bs) as ->
    by (unfold cols; simpl; lia).
  assert (rows (as_matrix coef) = zlen coef) as Hrc
    by (unfold rows, as_matrix, zlen; simpl; now rewrite length_fmap).
  destruct (for_range_inv
    (fun k (M : Matrix T) =>
       columns M = n /\ length (data M) = R /\
       forall r, (r < R)%nat ->
         data M !! r
         = Some ((fun c => if Z.of_nat c <? k then band_entry coef r c else zero)
                   <$> seq 0 n))
    (fun k M => copy (as_matrix coef) M k k (zlen coef) 1) bs
    (Matrix_new (zlen coef + bs - 1) bs)) as (M & Hrun & Hc & Hl & Hrows).
  - lia.
  - split; [reflexivity|]. split; [apply length_replicate|].
    intros r Hr. simpl. rewrite lookup_replicate_2 by assumption. f_equal.
    apply list_eq. intros c. rewrite list_lookup_fmap.
    destruct (decide (c < n)%nat) as [Hcn|Hcn].
    + rewrite lookup_replicate_2, lookup_seq_lt by (fold n; lia). simpl.
      destruct (Z.ltb_spec (Z.of_nat c) 0); [lia|reflexivity].
    + rewrite (proj2 (lookup_ge_None (replicate _ _) c))
        by (rewrite length_replicate; fold n; lia).
      rewrite (proj2 (lookup_ge_None (seq 0 n) c)) by (rewrite length_seq; lia).
      reflexivity.
  - intros k M Hk (Hc & Hl & Hrows). unfold copy, in_view. rewrite Hrc.
    unfold rows at 1. unfold cols at 1. rewrite Hc, Hl.
    destruct (Z.leb_spec (k + zlen coef) (Z.of_nat R)); [|lia].
    destruct (Z.leb_spec (k + 1) (Z.of_nat n)); [|lia].
    rewrite Z.eqb_refl. simpl.
    eexists. split; [reflexivity|].
    split; [exact Hc|]. split; [simpl; now rewrite length_imap|].
    intros r Hr. simpl. rewrite list_lookup_imap, (Hrows r Hr). simpl. f_equal.
    assert (forall x, coef !! (r - Z.to_nat k)%nat = x ->
              (Z.to_nat k <= r)%nat -> default zero x = band_entry coef r (Z.to_nat k))
      as Hband.
    { intros x <- Hkr. unfold band_entry.
      destruct (Nat.leb_spec (Z.to_nat k) r); [reflexivity|lia]. }
    destruct (Z.leb_spec k (Z.of_nat r)) as [Hkr|Hkr]; simpl.
    + destruct (Z.ltb_spec (Z.of_nat r) (k + zlen coef)) as [Hin|Hout].
      * replace (Z.to_nat (Z.of_nat r - k)) with (r - Z.to_nat k)%nat by lia.
        rewrite list_lookup_fmap.
        destruct (coef !! (r - Z.to_nat k)%nat) as [x|] eqn:Hx.
        2: { apply lookup_ge_None in Hx. unfold zlen in Hin. lia. }
        simpl. apply list_eq. intros c.
        destruct (decide (c = Z.to_nat k)) as [->|Hne].
        -- rewrite list_lookup_insert_eq by (rewrite length_fmap, length_seq; lia).
           rewrite list_lookup_fmap, lookup_seq_lt by lia. simpl.
           destruct (Z.ltb_spec (Z.of_nat (Z.to_nat k)) (k + 1)); [|lia].
           f_equal. now apply (Hband (Some x)); [|lia].
        -- rewrite list_lookup_insert_ne by lia. rewrite !list_lookup_fmap.
           destruct (seq 0 n !! c) as [c'|] eqn:Hc'; [|reflexivity]. simpl.
           apply lookup_seq in Hc' as [-> _]. simpl.
           destruct (Z.ltb_spec (Z.of_nat c) k);
             destruct (Z.ltb_spec (Z.of_nat c) (k + 1)); try lia; reflexivity.
      * apply list_fmap_ext. intros _ c _.
        destruct (Z.ltb_spec (Z.of_nat c) k);
          destruct (Z.ltb_spec (Z.of_nat c) (k + 1)); try lia; try reflexivity.
        assert (c = Z.to_nat k) as -> by lia.
        rewrite <- (Hband None); [reflexivity| |lia].
        apply lookup_ge_None. unfold zlen in Hout. lia.
    + apply list_fmap_ext. intros _ c _.
      destruct (Z.ltb_spec (Z.of_nat c) k);
        destruct (Z.ltb_spec (Z.of_nat c) (k + 1)); try lia; try reflexivity.
      unfold band_entry. destruct (Nat.leb_spec c r); [lia|reflexivity].
  - rewrite Hrun. f_equal. destruct M as [c d]. simpl in *. f_equal; [exact Hc|].
    apply list_eq. intros r. rewrite list_lookup_fmap.
    destruct (decide (r < R)%nat) as [Hr|Hr].
    + rewrite (Hrows r Hr), lookup_seq_lt by assumption. simpl. f_equal.
      apply list_fmap_ext. intros i j Hij. apply lookup_seq in Hij as [-> Hjn].
      destruct (Z.ltb_spec (Z.of_nat (0 + i)) bs); [reflexivity|lia].
    + rewrite (proj2 (lookup_ge_None d r)) by lia.
      rewrite (proj2 (lookup_ge_None (seq 0 R) r)) by (rewrite length_seq; lia).
      reflexivity.
Qed.

Lemma take_band_row (coef : list T) r n c :
  (c <= n)%nat -> take c (band_row coef r n) = band_row coef r c.
Proof.
  intros Hc. unfold band_row. rewrite <- fmap_take, take_seq.
  now replace (c `min` n)%nat with c by lia.
Qed.

(** The leading block of a banded matrix. *)
Lemma slice_band (coef : list T) n R rc cc :
  0 <= rc <= Z.of_nat R -> 0 <= cc <= Z.of_nat n ->
  slice (mkMatrix n ((fun r => band_row coef r n) <$> seq 0 R)) 0 0 rc cc
  = Ok (mkMatrix (Z.to_nat cc)
          ((fun r => band_row coef r (Z.to_nat cc)) <$> seq 0 (Z.to_nat rc))).
Proof.
  intros Hrc Hcc. unfold slice, in_view, rows, cols. simpl.
  rewrite length_fmap, length_seq, !Z.add_0_l.
  destruct (Z.leb_spec rc (Z.of_nat R)); [|lia].
  destruct (Z.leb_spec cc (Z.of_nat n)); [|lia]. simpl.
  do 2 f_equal. change (Z.to_nat 0) with 0%nat. rewrite drop_0.
  rewrite <- fmap_take, take_seq, <- list_fmap_compose.
  replace (Z.to_nat rc `min` R)%nat with (Z.to_nat rc) by lia.
  apply list_fmap_ext. intros _ r _. simpl. rewrite drop_0.
  apply take_band_row. lia.
Qed.

Lemma band_entry_shift (coef : list T) m idx j :
  (idx <= m)%nat -> band_entry coef (m - idx) j = band_entry coef m (idx + j).
Proof.
  intros Hm. unfold band_entry.
  destruct (Nat.leb_spec j (m - idx)); destruct (Nat.leb_spec (idx + j) m);
    try lia; [|reflexivity].
  do 2 f_equal. lia.
Qed.

Lemma partial_row_length (coef : list T) P w m J :
  Forall (fun r => length r = w) P -> length (partial_row coef P w m J) = w.
Proof. intros HP. apply vecmat_length. now apply Forall_take. Qed.

(** Rows of a block that lie off the band contribute nothing. *)
Lemma partial_row_off_band (coef : list T) P w m J c :
  Forall (fun r => length r = w) P -> (J + c <= length P)%nat ->
  (forall j, (j < c)%nat -> band_entry coef m (J + j) = zero) ->
  partial_row coef P w m (J + c) = partial_row coef P w m J.
Proof.
  intros HP Hlen Hoff. rewrite partial_row_extend by assumption.
  assert ((fun j => band_entry coef m (J + j)) <$> seq 0 c = replicate c zero) as ->.
  { apply list_eq. intros j. rewrite list_lookup_fmap.
    destruct (decide (j < c)%nat) as [Hj|Hj].
    - rewrite lookup_seq_lt, lookup_replicate_2 by assumption. simpl.
      now rewrite Hoff.
    - rewrite (proj2 (lookup_ge_None (seq 0 c) j)) by (rewrite length_seq; lia).
      rewrite (proj2 (lookup_ge_None (replicate c zero) j))
        by (rewrite length_replicate; lia).
      reflexivity. }
  rewrite (vecmat_zeros add_zero_l mul_zero_l)
    by (now apply Forall_take, Forall_drop).
  rewrite <- (partial_row_length coef P w m J HP) at 2.
  apply (vadd_zeros_r add_zero_r).
Qed.

Lemma convolved_wf (coef : list T) (padded : Matrix T) idx output :
  wf padded -> convolved_up_to coef padded idx output -> wf output.
Proof.
  intros Hwf (Hc & Hl & Hrows). unfold wf. apply Forall_lookup. intros m r Hm.
  assert (m < length (data padded))%nat as Hlt
    by (rewrite <- Hl; apply lookup_lt_is_Some; eauto).
  rewrite (Hrows m Hlt) in Hm. injection Hm as <-. rewrite Hc.
  now apply partial_row_length.
Qed.

Lemma feed_forward_rows (f : @DigitalFilterARMA T) (padded : Matrix T) :
  1 <= zlen (bn f) -> wf padded -> 1 <= rows padded ->
  rows padded + zlen (bn f) + 64 < UInt.modulus ->
  feed_forward f (Z.min 64 (rows padded)) padded
               (Matrix_new (rows padded) (cols padded))
  = Ok (mkMatrix (columns padded)
          (convolved_row (bn f) (data padded) (columns padded)
             <$> seq 0 (length (data padded)))).
Proof.
  intros Hbn Hwf Hn Hfit. unfold feed_forward.
  assert (Z.of_nat (length (data padded)) = rows padded) as HrN0 by reflexivity.
  set (coef := bn f) in *. set (P := data padded). set (w := columns padded).
  set (N := length P). set (bs := Z.min 64 (rows padded)).
  assert (rows padded = Z.of_nat N) as HrN by reflexivity.
  assert (1 <= bs <= 64) as Hbs by lia.
  rewrite banded_rows by lia. cbn [bind].
  rewrite Matrix_new_rows by lia.
  set (RB := Z.to_nat (zlen coef + bs - 1)).
  set (B := mkMatrix (Z.to_nat bs) ((fun r => band_row coef r (Z.to_nat bs)) <$> seq 0 RB)).
  assert (rows B = zlen coef + bs - 1) as HrB
    by (unfold rows, B; simpl; rewrite length_fmap, length_seq; lia).
  destruct (for_stride_inv (convolved_up_to coef padded)
    (fun idxStart output =>
       let columnCount := Z.min (UInt.sub (rows output) idxStart) bs in
       let rowCount := Z.min (UInt.sub (rows output) idxStart) (rows B) in
       let* Bs := slice B 0 0 rowCount columnCount in
       let* Pb := row padded idxStart columnCount in
       matMult one Bs Pb output idxStart 0 rowCount (cols output))
    (Z.to_nat (rows padded)) 0 (rows padded) bs (Matrix_new (rows padded) (cols padded)))
    as (out & i' & Hrun & Hi' & Hinv); try lia.
  - split; [unfold cols; simpl; lia|]. split.
    + simpl. rewrite length_replicate. lia.
    + intros m Hm. simpl. rewrite lookup_replicate_2 by lia.
      replace (Z.to_nat (Z.min 0 (rows padded))) with 0%nat by lia.
      unfold cols. now rewrite Nat2Z.id.
  - intros idx out Hidx Hinv.
    pose proof (convolved_wf coef padded idx out Hwf Hinv) as Hwfo.
    destruct Hinv as (Hc & Hl & Hrows). fold P w N in Hc, Hl, Hrows.
    replace (Z.to_nat (Z.min idx (rows padded))) with (Z.to_nat idx) in Hrows by lia.
    assert (rows out = Z.of_nat N) as Hro by (unfold rows; lia).
    cbv zeta. rewrite HrB, Hro. uint_norm.
    set (cc := Z.min (Z.of_nat N - idx) bs).
    set (rc := Z.min (Z.of_nat N - idx) (zlen coef + bs - 1)).
    assert (1 <= cc <= bs /\ cc <= rc) as Hcc by lia.
    unfold B. rewrite slice_band by lia. cbn [bind].
    rewrite row_wf by (assumption || lia). cbn [bind]. fold P.
    set (Pb := take (Z.to_nat cc) (drop (Z.to_nat idx) P)).
    assert (length Pb = Z.to_nat cc) as HlPb
      by (unfold Pb; rewrite length_take, length_drop; fold N; lia).
    assert (Forall (fun r => length r = w) P) as HwfP by exact Hwf.
    unfold matMult. change (slice out idx 0 rc (cols out)) with (row out idx rc).
    rewrite row_wf by (assumption || lia). cbn [bind].
    unfold rows, cols. simpl. rewrite length_fmap, length_seq, HlPb, Hc.
    rewrite !Z2Nat.id by lia. rewrite !Z.eqb_refl. simpl.
    eexists. split; [reflexivity|].
    set (blk := zip_with _ _ _).
    assert (forall i, (i < Z.to_nat rc)%nat ->
              blk !! i = Some (partial_row coef P w (Z.to_nat idx + i)
                                 (Z.to_nat idx + Z.to_nat cc)))
      as Hblk.
    { intros i Hi. unfold blk. rewrite lookup_zip_with.
      rewrite lookup_take_lt, lookup_drop by lia.
      rewrite Hrows by lia. simpl.
      rewrite list_lookup_fmap, lookup_seq_lt by lia. simpl. f_equal.
      rewrite (vscale_one mul_one_l).
      rewrite partial_row_extend by (assumption || fold N; lia).
      fold Pb. f_equal. f_equal. unfold band_row.
      apply list_fmap_ext. intros _ j _.
      rewrite <- band_entry_shift by lia. f_equal. lia. }
    assert (length blk = Z.to_nat rc) as Hlblk.
    { unfold blk. rewrite length_zip_with, length_take, length_drop,
        length_fmap, length_seq. lia. }
    assert (Forall (fun r => length r = columns out) blk) as Hwblk.
    { apply Forall_lookup. intros i r Hi.
      assert (i < Z.to_nat rc)%nat as Hlt
        by (rewrite <- Hlblk; apply lookup_lt_is_Some; eauto).
      rewrite (Hblk i Hlt) in Hi. injection Hi as <-. rewrite Hc.
      now apply partial_row_length. }
    replace rc with (Z.of_nat (length blk)) by lia.
    rewrite overwrite_whole_rows; [|assumption..|lia].
    split; [exact Hc|]. split; [simpl; rewrite length_inserts; exact Hl|].
    intros m Hm. simpl. fold P w N in Hm |- *.
    replace (Z.to_nat (Z.min (idx + bs) (rows padded)))
      with (Z.to_nat idx + Z.to_nat cc)%nat by lia.
    destruct (decide (Z.to_nat idx <= m < Z.to_nat idx + Z.to_nat rc)%nat) as [Hin|Hout].
    + rewrite list_lookup_inserts by lia. rewrite Hblk by lia.
      do 2 f_equal. lia.
    + assert (list_inserts (Z.to_nat idx) blk (data out) !! m = data out !! m) as Hsame.
      { destruct (decide (m < Z.to_nat idx)%nat).
        - now apply list_lookup_inserts_lt.
        - apply list_lookup_inserts_ge. lia. }
      rewrite Hsame, Hrows by lia. f_equal.
      symmetry. apply partial_row_off_band; [assumption|fold N; lia|].
      intros j Hj. unfold band_entry.
      destruct (Nat.leb_spec (Z.to_nat idx + j) m); [|reflexivity].
      rewrite (proj2 (lookup_ge_None coef _)); [reflexivity|].
      unfold zlen in *. lia.
  - transitivity (Ok out); [exact Hrun|]. f_equal.
    destruct Hinv as (Hc & Hl & Hrows). destruct out as [c d]. simpl in *.
    f_equal; [exact Hc|]. apply list_eq. intros m. rewrite list_lookup_fmap.
    fold P w N in Hl, Hrows |- *.
    destruct (decide (m < N)%nat) as [Hm|Hm].
    + rewrite (Hrows m Hm), lookup_seq_lt by assumption. simpl. f_equal.
      unfold partial_row, convolved_row. fold N.
      replace (Z.to_nat (Z.min i' (rows padded))) with N by lia.
      now rewrite take_ge by (fold N; lia).
    + rewrite (proj2 (lookup_ge_None d m)) by lia.
      rewrite (proj2 (lookup_ge_None (seq 0 N) m)) by (rewrite length_seq; lia).
      reflexivity.
Qed.

(** X12: the feed-forward pass, block by block with its overlapping row ranges,
    computes the product of the banded matrix of [bn] with the padded
    sequence. *)
Theorem feed_forward_convolves (f : @DigitalFilterARMA T) (padded : Matrix T) :
  1 <= zlen (bn f) -> wf padded -> 1 <= rows padded ->
  rows padded + zlen (bn f) + 64 < UInt.modulus ->
  feed_forward f (Z.min 64 (rows padded)) padded
               (Matrix_new (rows padded) (cols padded))
  = Ok (mkMatrix (columns padded)
          (convolved_row (bn f) (data padded) (columns padded)
             <$> seq 0 (length (data padded)))).
Proof. apply feed_forward_rows. Qed.

End FeedForward.

Section WellFormedness.

Context {T : Type} `{!Scalar T}.
Implicit Types m input : Matrix T.

(** Writing through a slice keeps the rows as wide as they are. *)
Lemma overwrite_wf m r c h (blk : list (list T)) : wf m -> wf (overwrite m r c h blk).
Proof.
  unfold wf, overwrite. simpl. intros Hm.
  apply Forall_lookup. intros i x Hx.
  rewrite list_lookup_imap in Hx.
  destruct (data m !! i) as [old|] eqn:Hold; [|discriminate]. simpl in Hx.
  injection Hx as <-.
  assert (length old = columns m) as Hl
    by (eapply (proj1 (Forall_lookup _ _) Hm); eassumption).
  destruct (_ && _); [now rewrite length_inserts|assumption].
Qed.

Lemma copy_wf (src dst : Matrix T) r c h w m :
  wf dst -> copy src dst r c h w = Ok m -> wf m.
Proof.
  intros Hd. unfold copy. destruct (in_view dst r c h w); [|discriminate].
  destruct (_ && _); [|discriminate]. intros [= <-]. now apply overwrite_wf.
Qed.

(** [pad] returns well-formed matrices. *)
Lemma pad_wf input len ts p m : wf input -> pad input len ts p = Ok m -> wf m.
Proof.
  intros Hwf.
  assert (forall (body : Z -> Matrix T -> result (Matrix T)) n m0 m1,
            (forall k s s', body k s = Ok s' -> wf s -> wf s') ->
            wf m0 -> for_range n body m0 = Ok m1 -> wf m1) as Hloop.
  { intros body n m0 m1 Hbody H0 Hrun. unfold for_range in Hrun.
    eapply (for_from_preserved wf); eassumption. }
  assert (forall (src1 src2 : Z) k1 k2 s s',
            (let* a := row input src1 1 in
             let* s1 := copy a s k1 0 1 (cols s) in
             let* b := row input src2 1 in
             copy b s1 k2 0 1 (cols s1)) = Ok s' -> wf s -> wf s') as Hbody.
  { intros src1 src2 k1 k2 s s' Hs Hws. do 3 bind_inv Hs.
    eapply copy_wf; [|exact Hs]. eapply copy_wf; [exact Hws|exact Hs_l0]. }
  unfold pad. destruct p.
  - destruct (0 <? ts); [|now intros [= <-]].
    apply copy_wf, Matrix_new_wf.
  - destruct (rows input <? 1); [discriminate|]. intros Hm. bind_inv Hm.
    injection Hm as <-. eapply copy_wf; [apply Matrix_new_wf|eassumption].
  - destruct (rows input <? 1); [discriminate|]. intros Hm. bind_inv Hm.
    eapply Hloop; [|eapply copy_wf; [apply Matrix_new_wf|eassumption]|exact Hm].
    intros k s s'. apply Hbody.
  - destruct (rows input <? 1); [discriminate|]. intros Hm. bind_inv Hm.
    destruct (rows input <? len); [discriminate|].
    eapply Hloop; [|eapply copy_wf; [apply Matrix_new_wf|eassumption]|exact Hm].
    intros k s s'. apply Hbody.
  - destruct (rows input <? 1); [discriminate|]. intros Hm. bind_inv Hm.
    destruct (rows input <? UInt.add len 1); [discriminate|].
    eapply Hloop; [|eapply copy_wf; [apply Matrix_new_wf|eassumption]|exact Hm].
    intros k s s'. apply Hbody.
Qed.

End WellFormedness.

Section FeedForwardFilter.

Context {T C : Type} `{!Scalar T} `{!Spectral T C}.

Hypothesis add_assoc : forall x y z : T, add x (add y z) = add (add x y) z.
Hypothesis add_zero_l : forall x : T, add zero x = x.
Hypothesis add_zero_r : forall x : T, add x zero = x.
Hypothesis mul_one_l : forall x : T, mul one x = x.
Hypothesis mul_zero_l : forall x : T, mul zero x = zero.

Lemma warmup_nonneg (f : @DigitalFilterARMA T) : 0 <= warmup f.
Proof.
  unfold warmup. pose proof (wrap_range (3 * zlen (an f))). unfold UInt.mul. lia.
Qed.

(** X13: a forward filter without feedback taps, run in the time domain: in
    exact arithmetic output row [k] is the sum of [bn(i)] times row
    [k + offset - i] of the padded input, where [offset] is the first row
    [trim] keeps.  The single tap of [an] is never used. *)
Theorem fir_filter_convolves (f : @DigitalFilterARMA T) (input padded : Matrix T) :
  backward f = false -> inFrequencyDomain f = false ->
  zlen (an f) <= 1 -> 1 <= zlen (bn f) -> 0 <= bnStartIndex f ->
  wf input -> 1 <= rows input -> warmup f <= rows input ->
  2 * warmup f + rows input + bnStartIndex f + zlen (bn f) + 64 < UInt.modulus ->
  pad input (warmup f) (bnStartIndex f) (padType f) = Ok padded ->
  filter f input
  = Ok (mkMatrix (columns input)
          ((fun k => convolved_row (bn f) (data padded) (columns input)
                       (Z.to_nat (trim_offset (padType f) (warmup f) (bnStartIndex f)) + k))
             <$> seq 0 (length (data input)))).
Proof.
  intros Hbw Hfd Han Hbn Hs Hwf Hn Hw Hfit Hpad.
  pose proof (warmup_nonneg f) as Hw0.
  pose proof (pad_wf _ _ _ _ _ Hwf Hpad) as Hwfp.
  destruct (pad_shape _ _ _ _ _ Hpad) as [Hrp Hcp].
  assert (rows padded
          = rows input + trim_offset (padType f) (warmup f) (bnStartIndex f)
            + match padType f with NONE => 0 | _ => warmup f end) as Hrows.
  { rewrite Hrp. unfold padded_rows, trim_offset. destruct (padType f);
      uint_norm; try lia.
    destruct (Z.ltb_spec 0 (bnStartIndex f)); uint_norm; lia. }
  assert (0 <= trim_offset (padType f) (warmup f) (bnStartIndex f)
          <= warmup f + bnStartIndex f) as Hoff
    by (unfold trim_offset; destruct (padType f); lia).
  assert (0 <= match padType f with NONE => 0 | _ => warmup f end <= warmup f) as Hextra
    by (destruct (padType f); lia).
  set (extra := match padType f with NONE => 0 | _ => warmup f end) in *.
  unfold filter. destruct (Z.ltb_spec (rows input) (warmup f)); [lia|].
  rewrite Hfd. unfold filter_time_domain. rewrite Hpad, Hbw. cbn [bind].
  rewrite (feed_forward_rows add_assoc add_zero_l add_zero_r mul_one_l mul_zero_l)
    by (assumption || lia).
  cbn [bind]. destruct (Z.ltb_spec 1 (zlen (an f))); [lia|]. cbn [bind].
  set (conv := convolved_row (bn f) (data padded) (columns padded)).
  set (M := mkMatrix (columns padded) (conv <$> seq 0 (length (data padded)))).
  assert (wf M) as HwfM.
  { unfold wf, M. simpl. apply Forall_fmap, Forall_forall. intros m _. simpl.
    unfold conv, convolved_row. apply vecmat_length. exact Hwfp. }
  assert (rows M = rows padded) as HrM
    by (unfold rows, M; simpl; now rewrite length_fmap, length_seq).
  set (off := trim_offset (padType f) (warmup f) (bnStartIndex f)) in *.
  assert (trim M (warmup f) (bnStartIndex f) (padType f)
          = row M off (rows input)) as Htrim.
  { unfold trim, off, trim_offset. rewrite HrM, Hrows. unfold off, trim_offset.
    destruct (padType f); uint_norm; try (f_equal; lia).
    destruct (Z.ltb_spec 0 (bnStartIndex f)).
    - uint_norm. f_equal. lia.
    - replace (bnStartIndex f) with 0 in * by lia.
      rewrite row_wf by (assumption || lia).
      f_equal. destruct M as [c d]. unfold rows in *. simpl in *. f_equal.
      subst off extra. change (Z.to_nat 0) with 0%nat.
      rewrite drop_0. symmetry. apply take_ge. lia. }
  rewrite Htrim, row_wf by (assumption || lia).
  unfold M. simpl. rewrite Hcp. do 2 f_equal.
  rewrite <- fmap_drop, <- fmap_take, drop_seq, take_seq.
  unfold rows in *.
  replace (Z.to_nat (Z.of_nat (length (data input)))
             `min` (length (data padded) - Z.to_nat off))%nat
    with (length (data input)) by lia.
  replace (0 + Z.to_nat off)%nat with (Z.to_nat off + 0)%nat by lia.
  rewrite <- (fmap_add_seq (Z.to_nat off) 0), <- list_fmap_compose.
  apply list_fmap_ext. intros _ k _. simpl. unfold conv. now rewrite Hcp.
Qed.

(** X14: a filter without feedback taps run backward in the time domain:
    the rows are reversed before and after the feed-forward pass, so that in
    exact arithmetic output row [k] is the sum of [bn(i)] times row
    [k + offset + i] of the padded input. *)
Theorem backward_fir_filter_convolves (f : @DigitalFilterARMA T) (input padded : Matrix T) :
  backward f = true -> inFrequencyDomain f = false ->
  zlen (an f) <= 1 -> 1 <= zlen (bn f) -> 0 <= bnStartIndex f ->
  wf input -> 1 <= rows input -> warmup f <= rows input ->
  2 * warmup f + rows input + bnStartIndex f + zlen (bn f) + 64 < UInt.modulus ->
  pad input (warmup f) (bnStartIndex f) (padType f) = Ok padded ->
  filter f input
  = Ok (mkMatrix (columns input)
          ((fun k => convolved_row (bn f) (reverse (data padded)) (columns input)
                       (length (data padded) - 1
                        - (Z.to_nat (trim_offset (padType f) (warmup f) (bnStartIndex f))
                           + k)))
             <$> seq 0 (length (data input)))).
Proof.
  intros Hbw Hfd Han Hbn Hs Hwf Hn Hw Hfit Hpad.
  pose proof (warmup_nonneg f) as Hw0.
  pose proof (pad_wf _ _ _ _ _ Hwf Hpad) as Hwfp.
  destruct (pad_shape _ _ _ _ _ Hpad) as [Hrp Hcp].
  assert (rows padded
          = rows input + trim_offset (padType f) (warmup f) (bnStartIndex f)
            + match padType f with NONE => 0 | _ => warmup f end) as Hrows.
  { rewrite Hrp. unfold padded_rows, trim_offset. destruct (padType f);
      uint_norm; try lia.
    destruct (Z.ltb_spec 0 (bnStartIndex f)); uint_norm; lia. }
  assert (0 <= trim_offset (padType f) (warmup f) (bnStartIndex f)
          <= warmup f + bnStartIndex f) as Hoff
    by (unfold trim_offset; destruct (padType f); lia).
  assert (0 <= match padType f with NONE => 0 | _ => warmup f end <= warmup f) as Hextra
    by (destruct (padType f); lia).
  set (extra := match padType f with NONE => 0 | _ => warmup f end) in *.
  unfold filter. destruct (Z.ltb_spec (rows input) (warmup f)); [lia|].
  rewrite Hfd. unfold filter_time_domain. rewrite Hpad, Hbw. cbn [bind].
  rewrite reverse_rows_data by (assumption || lia). cbn [bind].
  set (rp := mkMatrix (columns padded) (reverse (data padded))).
  assert (wf rp) as Hwfr by (unfold wf in *; simpl; now apply Forall_reverse).
  assert (rows rp = rows padded) as Hrr
    by (unfold rows; simpl; now rewrite length_reverse).
  rewrite (feed_forward_rows add_assoc add_zero_l add_zero_r mul_one_l mul_zero_l)
    by (assumption || lia).
  cbn [bind]. destruct (Z.ltb_spec 1 (zlen (an f))); [lia|]. cbn [bind].
  set (conv := convolved_row (bn f) (data rp) (columns rp)).
  set (M := mkMatrix (columns rp) (conv <$> seq 0 (length (data rp)))).
  assert (wf M) as HwfM.
  { unfold wf, M. simpl. apply Forall_fmap, Forall_forall. intros m _. simpl.
    unfold conv, convolved_row. apply vecmat_length. exact Hwfr. }
  assert (rows M = rows padded) as HrM
    by (unfold rows, M; simpl; now rewrite length_fmap, length_seq, length_reverse).
  rewrite reverse_rows_data by (assumption || lia). cbn [bind].
  set (R := mkMatrix (columns M) (reverse (data M))).
  assert (wf R) as HwfR by (unfold wf in *; simpl; now apply Forall_reverse).
  assert (rows R = rows padded) as HrR
    by (unfold rows in *; simpl; now rewrite length_reverse).
  set (off := trim_offset (padType f) (warmup f) (bnStartIndex f)) in *.
  assert (trim R (warmup f) (bnStartIndex f) (padType f)
          = row R off (rows input)) as Htrim.
  { unfold trim, off, trim_offset. rewrite HrR, Hrows. unfold off, trim_offset.
    destruct (padType f); uint_norm; try (f_equal; lia).
    destruct (Z.ltb_spec 0 (bnStartIndex f)).
    - uint_norm. f_equal. lia.
    - replace (bnStartIndex f) with 0 in * by lia.
      rewrite row_wf by (assumption || lia).
      f_equal. destruct R as [c d]. unfold rows in *. simpl in *. f_equal.
      subst off extra. change (Z.to_nat 0) with 0%nat.
      rewrite drop_0. symmetry. apply take_ge. lia. }
  rewrite Htrim, row_wf by (assumption || lia).
  unfold R, M, rp. simpl. rewrite Hcp. do 2 f_equal.
  unfold conv, rp. simpl. rewrite Hcp, length_reverse.
  set (g := convolved_row (bn f) (reverse (data padded)) (columns input)).
  unfold rows in *. apply list_eq. intros i.
  destruct (decide (i < length (data input))%nat) as [Hi|Hi].
  - rewrite lookup_take_lt, lookup_drop by lia.
    rewrite reverse_lookup by (rewrite length_fmap, length_seq; lia).
    rewrite length_fmap, length_seq, !list_lookup_fmap.
    rewrite !lookup_seq_lt by lia. simpl. do 2 f_equal. lia.
  - rewrite lookup_take_ge by lia. symmetry. apply lookup_ge_None.
    rewrite length_fmap, length_seq. lia.
Qed.


End FeedForwardFilter.

(** ** The feedback pass *)

Section FeedBack.

Context {T : Type} `{!Scalar T}.

Hypothesis add_assoc : forall x y z : T, add x (add y z) = add (add x y) z.
Hypothesis add_comm : forall x y : T, add x y = add y x.
Hypothesis add_zero_l : forall x : T, add zero x = x.
Hypothesis add_zero_r : forall x : T, add x zero = x.
Hypothesis mul_one_l : forall x : T, mul one x = x.
Hypothesis mul_zero_l : forall x : T, mul zero x = zero.
Hypothesis add_opp : forall x : T, add x (mul (opp one) x) = zero.
Hypothesis sub_add : forall b s : T, add s (sub b s) = b.
Hypothesis mul_div : forall a x : T, a <> zero -> mul a (div x a) = x.

(** Taking the carry of the block before off a row and adding it again
    gives the row back. *)
Lemma carry_cancels (c u : list T) :
  length c = length u -> vadd c (vadd u (vscale (opp one) c)) = u.
Proof.
  unfold vadd, vscale. revert u.
  induction c as [|x c IH]; intros [|y u] Hl; try discriminate; [reflexivity|].
  simpl. f_equal; [|apply IH; simpl in Hl; lia].
  rewrite (add_comm y), add_assoc, add_opp. apply add_zero_l.
Qed.

(** One step of the forward substitution, undone. *)
Lemma solve_cancels a (b s : list T) :
  a <> zero -> length s = length b ->
  vadd s (vscale a ((fun v => div v a) <$> vsub (vscale one b) s)) = b.
Proof.
  intros Ha. unfold vadd, vscale, vsub. revert b.
  induction s as [|x s IH]; intros [|y b] Hl; try discriminate; [reflexivity|].
  simpl. f_equal; [|apply IH; simpl in Hl; lia].
  rewrite mul_div by assumption. rewrite mul_one_l. apply sub_add.
Qed.

Lemma band_entry_diagonal (coef : list T) i :
  band_entry coef i i = default zero (coef !! 0%nat).
Proof. unfold band_entry. now rewrite Nat.leb_refl, Nat.sub_diag. Qed.

Lemma band_row_diagonal (coef : list T) i n :
  (i < n)%nat -> nth i (band_row coef i n) zero = default zero (coef !! 0%nat).
Proof.
  intros Hi. rewrite nth_lookup, band_row_lookup by assumption. simpl.
  apply band_entry_diagonal.
Qed.

(** Forward substitution with the leading block of the banded matrix of
    [coef] solves the triangular system row by row. *)
Lemma forward_subst_solves coef n w k : forall i solved B,
  default zero (coef !! 0%nat) <> zero ->
  length solved = i -> length B = k -> (i + k <= n)%nat ->
  Forall (fun r => length r = w) solved -> Forall (fun r => length r = w) B ->
  let R := forward_subst one ((fun r => band_row coef r n) <$> seq i k) B i solved w in
  length R = (i + k)%nat /\ take i R = solved /\ Forall (fun r => length r = w) R /\
  forall t b, B !! t = Some b ->
    vecmat (band_row coef (i + t) (S (i + t))) (take (S (i + t)) R) w = b.
Proof.
  induction k as [|k IH]; intros i solved B Ha Hi HB Hn Hws HwB.
  - destruct B; [|discriminate]. simpl. repeat split.
    + lia.
    + apply take_ge. lia.
    + assumption.
    + intros t b Hb. discriminate.
  - destruct B as [|b0 B]; [discriminate|].
    cbn [seq fmap list_fmap forward_subst]. 
    rewrite take_band_row by lia. rewrite band_row_diagonal by lia.
    set (a := default zero (coef !! 0%nat)) in *.
    set (s := vecmat (band_row coef i i) solved w).
    set (x := (fun v => div v a) <$> vsub (vscale one b0) s).
    apply Forall_cons in HwB as [Hb0 HwB].
    assert (length s = w) as Hs by (apply vecmat_length; assumption).
    assert (length x = w) as Hx.
    { unfold x, vsub, vscale. rewrite length_fmap, length_zip_with, length_fmap. lia. }
    destruct (IH (S i) (solved ++ [x]) B) as (Hl & Htake & Hw & Hrows);
      try assumption.
    + rewrite length_app. simpl. lia.
    + simpl in HB. lia.
    + lia.
    + apply Forall_app. split; [assumption|]. now constructor.
    + set (R := forward_subst one _ B (S i) (solved ++ [x]) w) in *.
      repeat split.
      * lia.
      * assert (take i R = take i (take (S i) R)) as ->
          by (rewrite take_take; f_equal; lia).
        rewrite Htake. now apply take_app_length'.
      * assumption.
      * intros [|t] b Hb.
        -- injection Hb as <-. rewrite Nat.add_0_r, Htake.
           replace (S i) with (i + 1)%nat by lia.
           rewrite band_row_app. simpl. rewrite Nat.add_0_r.
           rewrite (vecmat_app add_assoc add_zero_l)
             by (rewrite ?band_row_length; auto).
           fold s. simpl. rewrite band_entry_diagonal. fold a.
           assert (length (vscale a x) = w) as Hax
             by (unfold vscale; now rewrite length_fmap).
           rewrite <- Hax at 1. rewrite (vadd_zeros_r add_zero_r).
           apply solve_cancels; [assumption|lia].
        -- simpl in Hb. replace (i + S t)%nat with (S i + t)%nat by lia.
           now apply Hrows.
Qed.


Lemma take_inserts_before {A} (k l : list A) i J :
  (J <= i)%nat -> take J (list_inserts i k l) = take J l.
Proof.
  intros HJ. apply list_eq. intros j.
  destruct (decide (j < J)%nat).
  - rewrite !lookup_take_lt by assumption. apply list_lookup_inserts_lt. lia.
  - now rewrite !lookup_take_ge by lia.
Qed.

Lemma take_drop_inserts {A} (k l : list A) i :
  (i + length k <= length l)%nat ->
  take (length k) (drop i (list_inserts i k l)) = k.
Proof.
  intros Hl. apply list_eq. intros j.
  destruct (decide (j < length k)%nat).
  - rewrite lookup_take_lt, lookup_drop by assumption.
    rewrite list_lookup_inserts by lia. f_equal. lia.
  - rewrite lookup_take_ge by lia. symmetry. apply lookup_ge_None. lia.
Qed.

Lemma inserts_wf {A} (P : A -> Prop) (k l : list A) i :
  Forall P k -> Forall P l -> Forall P (list_inserts i k l).
Proof.
  intros Hk Hl. apply Forall_lookup. intros j x Hx.
  destruct (decide (i <= j < i + length k)%nat) as [Hin|Hout].
  - assert (j < length l)%nat
      by (rewrite <- (length_inserts l i k); apply lookup_lt_is_Some; eauto).
    rewrite list_lookup_inserts in Hx by lia.
    eapply (proj1 (Forall_lookup _ _) Hk); eassumption.
  - assert (list_inserts i k l !! j = l !! j) as Hsame.
    { destruct (decide (j < i)%nat).
      - now apply list_lookup_inserts_lt.
      - apply list_lookup_inserts_ge. lia. }
    rewrite Hsame in Hx. eapply (proj1 (Forall_lookup _ _) Hl); eassumption.
Qed.

(** The sum over the rows of a full-length product stops at the diagonal. *)
Lemma convolved_row_diagonal (coef : list T) P w m :
  Forall (fun r => length r = w) P -> (m < length P)%nat ->
  convolved_row coef P w m = partial_row coef P w m (S m).
Proof.
  intros HP Hm.
  assert (convolved_row coef P w m = partial_row coef P w m (length P)) as ->
    by (unfold convolved_row, partial_row; now rewrite firstn_all).
  pose proof (partial_row_off_band add_assoc add_zero_l add_zero_r mul_zero_l
                coef P w m (S m) (length P - S m) HP) as Hoff.
  replace (S m + (length P - S m))%nat with (length P) in Hoff by lia.
  apply Hoff; [lia|].
  intros j _. unfold band_entry.
  destruct (Nat.leb_spec (S m + j) m); [lia|reflexivity].
Qed.

Section Block.

Variable coef : list T.
Variable U : Matrix T.
Variable bs : Z.

Hypothesis U_wf : wf U.
Hypothesis bs_pos : 1 <= bs.
Hypothesis coef_two : 2 <= zlen coef.
Hypothesis order_fits : zlen coef - 1 <= bs.
Hypothesis head_invertible : default zero (coef !! 0%nat) <> zero.
Hypothesis sizes_fit : rows U + zlen coef + bs < UInt.modulus.

Local Notation "'A'" :=
  (mkMatrix (Z.to_nat bs)
     ((fun r => band_row coef r (Z.to_nat bs)) <$> seq 0 (Z.to_nat (zlen coef + bs - 1)))).

Lemma partial_row_start (P : list (list T)) w m : partial_row coef P w m 0 = replicate w zero.
Proof. reflexivity. Qed.

(** Rows that the band does not reach contribute nothing to a row sum. *)
Lemma partial_row_before_band (P : list (list T)) w m J :
  Forall (fun r => length r = w) P -> (J <= length P)%nat ->
  (J + length coef <= S m)%nat ->
  partial_row coef P w m J = replicate w zero.
Proof.
  intros HP HJ Hband.
  pose proof (partial_row_off_band add_assoc add_zero_l add_zero_r mul_zero_l
                coef P w m 0 J HP) as Hoff.
  simpl in Hoff. rewrite Hoff; [reflexivity|lia|].
  intros j Hj. unfold band_entry.
  destruct (Nat.leb_spec j m); [|reflexivity].
  rewrite (proj2 (lookup_ge_None coef _)); [reflexivity|lia].
Qed.

Lemma carry_step idx (out : Matrix T) :
  0 <= idx < rows U -> idx = 0 \/ bs <= idx ->
  solved_up_to coef U idx out -> wf out ->
  exists out1,
    (if 0 <? idx then
       let* Ar := row A bs (Z.min (UInt.sub (zlen coef) 1)
                                  (Z.min (UInt.sub (rows out) idx) bs)) in
       let* prev := row out (UInt.sub idx bs) bs in
       matMult (opp one) Ar prev out idx 0
               (Z.min (UInt.sub (zlen coef) 1) (Z.min (UInt.sub (rows out) idx) bs))
               (cols out)
     else Ok out) = Ok out1 /\
    carried coef U (Z.to_nat idx) (Z.to_nat (Z.min (rows U - idx) bs)) out out1.
Proof.
  intros Hidx Hdisj (Hc & Hl & Hsolved & Hrest) Hwfo.
  set (w := columns U) in *. set (N := length (data U)) in *.
  assert (rows U = Z.of_nat N) as HrU by reflexivity.
  assert (rows out = rows U) as Hro by (unfold rows; lia).
  assert (Forall (fun r => length r = w) (data out)) as HwP
    by (unfold wf in Hwfo; now rewrite Hc in Hwfo).
  set (cc := Z.min (rows U - idx) bs).
  destruct (Z.ltb_spec 0 idx) as [Hpos|Hzero].
  - assert (bs <= idx) as Hge by lia.
    rewrite Hro. uint_norm. fold cc.
    set (m' := Z.min (zlen coef - 1) cc).
    assert (0 <= m' <= cc) as Hm' by lia.
    assert (wf A) as HwfA.
    { unfold wf. simpl. apply Forall_fmap, Forall_forall. intros r _. simpl.
      apply band_row_length. }
    assert (rows A = zlen coef + bs - 1) as HrA
      by (unfold rows; simpl; rewrite length_fmap, length_seq; lia).
    rewrite (row_wf A) by (assumption || lia). cbn [bind].
    rewrite (row_wf out) by (assumption || lia). cbn [bind].
    unfold matMult. change (slice out idx 0 m' (cols out)) with (row out idx m').
    rewrite (row_wf out) by (assumption || lia). cbn [bind].
    set (prevrows := take (Z.to_nat bs) (drop (Z.to_nat (idx - bs)) (data out))).
    assert (length prevrows = Z.to_nat bs) as Hlprev
      by (unfold prevrows; rewrite length_take, length_drop; lia).
    assert (take (Z.to_nat m') (drop (Z.to_nat bs) (data A))
            = (fun r => band_row coef r (Z.to_nat bs))
                <$> seq (Z.to_nat bs) (Z.to_nat m')) as HAr.
    { simpl. rewrite <- fmap_drop, <- fmap_take, drop_seq, take_seq. simpl.
      do 2 f_equal. unfold zlen in *. lia. }
    rewrite HAr.
    unfold rows, cols. simpl. fold prevrows.
    rewrite length_fmap, length_seq, Hlprev.
    rewrite (Z2Nat.id m') by lia. rewrite !Z.eqb_refl. simpl.
    eexists. split; [reflexivity|].
    set (blk := zip_with _ _ _).
    assert (forall t r, (t < Z.to_nat m')%nat ->
              data U !! (Z.to_nat idx + t)%nat = Some r ->
              blk !! t
              = Some (vadd r (vscale (opp one)
                                (vecmat (band_row coef (Z.to_nat bs + t) (Z.to_nat bs))
                                        prevrows (columns out))))) as Hblk.
    { intros t r Ht Hr. unfold blk. rewrite lookup_zip_with.
      rewrite lookup_take_lt, lookup_drop by lia.
      rewrite Hrest, Hr by lia. simpl.
      rewrite list_lookup_fmap, lookup_seq_lt by lia. reflexivity. }
    assert (length blk = Z.to_nat m') as Hlblk.
    { unfold blk. rewrite length_zip_with, length_take, length_drop,
        length_fmap, length_seq. lia. }
    assert (Forall (fun r => length r = columns out) blk) as Hwblk.
    { apply Forall_lookup. intros t r Ht.
      assert (t < Z.to_nat m')%nat as Hlt
        by (rewrite <- Hlblk; apply lookup_lt_is_Some; eauto).
      destruct (lookup_lt_is_Some_2 (data U) (Z.to_nat idx + t)) as [u Hu]; [lia|].
      rewrite (Hblk t u Hlt Hu) in Ht. injection Ht as <-.
      unfold vadd, vscale. rewrite length_zip_with, length_fmap, vecmat_length.
      - rewrite (wf_lookup U _ _ U_wf Hu). fold w. lia.
      - unfold prevrows. apply Forall_take, Forall_drop. exact Hwfo. }
    replace m' with (Z.of_nat (length blk)) by lia.
    rewrite overwrite_whole_rows; [|assumption..|lia].
    split; [|split; [exact Hc|split; [simpl; rewrite length_inserts; exact Hl|]]].
    { unfold wf. simpl. now apply inserts_wf. }
    simpl. split; [|split].
    + intros j Hj. apply list_lookup_inserts_lt. lia.
    + intros j Hj. rewrite list_lookup_inserts_ge by lia. apply Hrest. lia.
    + intros t r Ht Hr.
      assert (length r = w) as Hlr by exact (wf_lookup U _ _ U_wf Hr).
      destruct (decide (t < Z.to_nat m')%nat) as [Hcarry|Hnone].
      * eexists. split.
        { rewrite list_lookup_inserts by lia.
          replace (Z.to_nat idx + t - Z.to_nat idx)%nat with t by lia.
          exact (Hblk t r Hcarry Hr). }
        rewrite Hc. fold w.
        set (carry := vecmat (band_row coef (Z.to_nat bs + t) (Z.to_nat bs)) prevrows w).
        assert (length carry = w) as Hlc.
        { apply vecmat_length. unfold prevrows. now apply Forall_take, Forall_drop. }
        assert (partial_row coef (data out) w (Z.to_nat idx + t) (Z.to_nat idx) = carry)
          as ->.
        { replace (Z.to_nat idx) with (Z.to_nat (idx - bs) + Z.to_nat bs)%nat at 2 by lia.
          rewrite (partial_row_extend add_assoc add_zero_l) by (assumption || lia).
          rewrite partial_row_before_band
            by (try assumption; unfold zlen in *; lia).
          fold prevrows.
          assert ((fun j => band_entry coef (Z.to_nat idx + t) (Z.to_nat (idx - bs) + j))
                    <$> seq 0 (Z.to_nat bs)
                  = band_row coef (Z.to_nat bs + t) (Z.to_nat bs)) as ->.
          { unfold band_row. apply list_fmap_ext. intros _ j _.
            rewrite <- band_entry_shift by lia. f_equal. lia. }
          fold carry. rewrite <- Hlc at 1. apply (vadd_zeros_l add_zero_l). }
        apply carry_cancels. lia.
      * exists r. split.
        { rewrite list_lookup_inserts_ge by lia. rewrite Hrest by lia. exact Hr. }
        fold w. rewrite partial_row_before_band
          by (try assumption; unfold zlen in *; lia).
        rewrite <- Hlr. apply (vadd_zeros_l add_zero_l).
  - exists out. split; [reflexivity|].
    replace (Z.to_nat idx) with 0%nat in * by lia.
    split; [assumption|]. split; [assumption|]. split; [assumption|].
    split; [reflexivity|]. split.
    + intros j _. apply Hrest. lia.
    + intros t r Ht Hr. exists r. split.
      * rewrite Hrest by lia. exact Hr.
      * rewrite partial_row_start. rewrite <- (wf_lookup U _ _ U_wf Hr).
        apply (vadd_zeros_l add_zero_l).
Qed.

Lemma solve_step idx (out out1 : Matrix T) :
  0 <= idx < rows U ->
  solved_up_to coef U idx out -> wf out ->
  carried coef U (Z.to_nat idx) (Z.to_nat (Z.min (rows U - idx) bs)) out out1 ->
  exists out2,
    (let* A1 := slice A 0 0 (Z.min (UInt.sub (rows out) idx) bs)
                      (Z.min (UInt.sub (rows out) idx) bs) in
     triangularSolve one A1 out1 idx 0 (Z.min (UInt.sub (rows out) idx) bs) (cols out1))
    = Ok out2 /\
    solved_up_to coef U (idx + bs) out2 /\ wf out2.
Proof.
  intros Hidx (Hc & Hl & Hsolved & Hrest) Hwfo
         (Hwf1 & Hc1 & Hl1 & Hbefore & Hafter & Hblock).
  set (w := columns U) in *. set (N := length (data U)) in *.
  assert (rows U = Z.of_nat N) as HrU by reflexivity.
  assert (rows out = rows U) as Hro by (unfold rows; lia).
  assert (rows out1 = rows U) as Hro1 by (unfold rows; lia).
  assert (Forall (fun r => length r = w) (data out)) as HwP
    by (unfold wf in Hwfo; now rewrite Hc in Hwfo).
  assert (Forall (fun r => length r = w) (data out1)) as HwP1
    by (unfold wf in Hwf1; now rewrite Hc1 in Hwf1).
  rewrite Hro. uint_norm.
  set (cc := Z.min (rows U - idx) bs) in *.
  assert (1 <= cc <= bs) as Hcc by lia.
  rewrite slice_band by (unfold zlen in *; lia). cbn [bind].
  unfold triangularSolve. change (slice out1 idx 0 cc (cols out1)) with (row out1 idx cc).
  rewrite row_wf by (assumption || lia). cbn [bind].
  unfold rows at 1, cols at 1. simpl.
  rewrite length_fmap, length_seq, Z2Nat.id, Z.eqb_refl by lia. simpl.
  set (B := take (Z.to_nat cc) (drop (Z.to_nat idx) (data out1))).
  assert (length B = Z.to_nat cc) as HlB
    by (unfold B; rewrite length_take, length_drop; lia).
  unfold cols. rewrite Nat2Z.id, Hc1. fold w.
  destruct (forward_subst_solves coef (Z.to_nat cc) w (Z.to_nat cc) 0 [] B)
    as (HlR & _ & HwR & Hsol); try assumption; try lia; try reflexivity.
  { constructor. }
  { unfold B. now apply Forall_take, Forall_drop. }
  set (R := forward_subst one _ B 0 [] w) in *. cbn [Nat.add] in HlR, Hsol.
  eexists. split; [reflexivity|].
  replace cc with (Z.of_nat (length R)) by lia.
  rewrite overwrite_whole_rows; [|assumption|now rewrite Hc1|lia].
  split; [|unfold wf; simpl; rewrite Hc1; now apply inserts_wf].
  split; [exact Hc1|]. split; [simpl; now rewrite length_inserts|]. simpl. split.
  - intros m r Hm Hr.
    assert (m < N)%nat as HmN by (apply lookup_lt_is_Some; eauto).
    fold w.
    destruct (decide (m < Z.to_nat idx)%nat) as [Hold|Hnew].
    + rewrite <- (Hsolved m r Hold Hr). unfold partial_row. f_equal.
      rewrite take_inserts_before by lia.
      apply list_eq. intros j. destruct (decide (j < S m)%nat).
      * rewrite !lookup_take_lt by assumption. apply Hbefore. lia.
      * now rewrite !lookup_take_ge by lia.
    + set (t := (m - Z.to_nat idx)%nat).
      assert (t < Z.to_nat cc)%nat as Ht by (unfold t; lia).
      replace m with (Z.to_nat idx + t)%nat in Hr |- * by (unfold t; lia).
      destruct (Hblock t r Ht Hr) as (b & Hb & Hsum).
      replace (S (Z.to_nat idx + t)) with (Z.to_nat idx + S t)%nat by lia.
      rewrite (partial_row_extend add_assoc add_zero_l).
      2: { now apply inserts_wf. }
      2: { rewrite length_inserts. lia. }
      assert (partial_row coef (list_inserts (Z.to_nat idx) R (data out1)) w
                (Z.to_nat idx + t) (Z.to_nat idx)
              = partial_row coef (data out) w (Z.to_nat idx + t) (Z.to_nat idx)) as ->.
      { unfold partial_row. f_equal. rewrite take_inserts_before by lia.
        apply list_eq. intros j. destruct (decide (j < Z.to_nat idx)%nat).
        - rewrite !lookup_take_lt by assumption. now apply Hbefore.
        - now rewrite !lookup_take_ge by lia. }
      assert ((fun j => band_entry coef (Z.to_nat idx + t) (Z.to_nat idx + j))
                <$> seq 0 (S t)
              = band_row coef t (S t)) as ->.
      { unfold band_row. apply list_fmap_ext. intros _ j _.
        rewrite <- band_entry_shift by lia. f_equal. lia. }
      assert (take (S t) (drop (Z.to_nat idx) (list_inserts (Z.to_nat idx) R (data out1)))
              = take (S t) R) as ->.
      { rewrite <- (take_drop_inserts R (data out1) (Z.to_nat idx)) at 2 by lia.
        rewrite take_take. f_equal. lia. }
      rewrite (Hsol t b); [exact Hsum|].
      unfold B. rewrite lookup_take_lt, lookup_drop by lia. exact Hb.
  - intros m Hm. rewrite list_lookup_inserts_ge by lia. apply Hafter. lia.
Qed.

End Block.

(** The feedback pass solves the banded system of [an]: with the output
    [U] of the feed-forward pass, the rows [Y] it returns satisfy
    [sum over j of an(j) * Y(m-j) = U(m)] for every row [m]. *)
Lemma feed_back_rows (f : @DigitalFilterARMA T) (U : Matrix T) :
  default zero (an f !! 0%nat) <> zero ->
  2 <= zlen (an f) -> zlen (an f) - 1 <= Z.min 64 (rows U) ->
  wf U -> 1 <= rows U -> rows U + zlen (an f) + 64 < UInt.modulus ->
  exists Y,
    feed_back f (Z.min 64 (rows U)) U = Ok Y /\ wf Y /\
    columns Y = columns U /\ length (data Y) = length (data U) /\
    forall m r, data U !! m = Some r ->
                convolved_row (an f) (data Y) (columns U) m = r.
Proof.
  intros Ha Han Horder Hwf Hn Hfit. unfold feed_back.
  set (coef := an f) in *. set (bs := Z.min 64 (rows U)) in *.
  assert (1 <= bs <= 64) as Hbs by lia.
  rewrite banded_rows by lia. cbn [bind].
  match goal with
  | |- context [for_stride ?fuel ?lo ?hi ?step ?body ?s] =>
      destruct (for_stride_inv
                  (fun idx out => solved_up_to coef U idx out /\ wf out /\
                                  (idx = 0 \/ bs <= idx))
                  body fuel lo hi step s)
        as (Y & i' & Hrun & Hi' & (Hc & Hl & Hsolved & _) & HwfY & _)
  end; try lia.
  - split; [|split; [assumption|now left]].
    split; [reflexivity|]. split; [reflexivity|]. split; [intros; lia|reflexivity].
  - intros idx out Hidx (Hinv & Hwfo & Hdisj). cbv beta zeta.
    destruct (carry_step coef U bs Hwf ltac:(lia) Han Horder ltac:(lia) idx out)
      as (out1 & -> & Hcar); try assumption; try lia.
    cbn [bind].
    destruct (solve_step coef U bs ltac:(lia) Han Ha ltac:(lia) idx out out1)
      as (out2 & -> & Hsol & Hwf2); try assumption; try lia.
    exists out2. split; [reflexivity|]. split; [assumption|].
    split; [assumption|right; lia].
  - exists Y. split; [exact Hrun|]. split; [assumption|].
    split; [assumption|]. split; [assumption|].
    intros m r Hr.
    assert (m < length (data U))%nat as Hm by (apply lookup_lt_is_Some; eauto).
    rewrite convolved_row_diagonal.
    + apply Hsolved; [unfold rows in *; lia|assumption].
    + unfold wf in HwfY. now rewrite Hc in HwfY.
    + lia.
Qed.

(** X18: the feedback pass, block by block, solves the banded system of [an]:
    with the output [U] of the feed-forward pass, the rows [Y] it returns
    satisfy [sum over j of an(j) * Y(m-j) = U(m)] for every row [m], as long
    as the order [an.rows()-1] does not exceed the block size. *)
Theorem feed_back_solves (f : @DigitalFilterARMA T) (U : Matrix T) :
  default zero (an f !! 0%nat) <> zero ->
  2 <= zlen (an f) -> zlen (an f) - 1 <= Z.min 64 (rows U) ->
  wf U -> 1 <= rows U -> rows U + zlen (an f) + 64 < UInt.modulus ->
  exists Y,
    feed_back f (Z.min 64 (rows U)) U = Ok Y /\ wf Y /\
    columns Y = columns U /\ length (data Y) = length (data U) /\
    forall m r, data U !! m = Some r ->
                convolved_row (an f) (data Y) (columns U) m = r.
Proof. apply feed_back_rows. Qed.

End FeedBack.

(** ** The difference equation *)

Section DifferenceEquation.

Context {T C : Type} `{!Scalar T} `{!Spectral T C}.

Hypothesis add_assoc : forall x y z : T, add x (add y z) = add (add x y) z.
Hypothesis add_comm : forall x y : T, add x y = add y x.
Hypothesis add_zero_l : forall x : T, add zero x = x.
Hypothesis add_zero_r : forall x : T, add x zero = x.
Hypothesis mul_one_l : forall x : T, mul one x = x.
Hypothesis mul_zero_l : forall x : T, mul zero x = zero.
Hypothesis add_opp : forall x : T, add x (mul (opp one) x) = zero.
Hypothesis sub_add : forall b s : T, add s (sub b s) = b.
Hypothesis mul_div : forall a x : T, a <> zero -> mul a (div x a) = x.

(** [trim] on a matrix with the row count of the padded input keeps the
    rows of the input's positions. *)
Lemma trim_after_pad (input padded R : Matrix T) len ts p :
  pad input len ts p = Ok padded -> 0 <= len -> 0 <= ts ->
  2 * len + rows input + ts < UInt.modulus ->
  wf R -> rows R = rows padded ->
  trim R len ts p
  = Ok (mkMatrix (columns R)
          (take (length (data input)) (drop (Z.to_nat (trim_offset p len ts)) (data R)))).
Proof.
  intros Hpad Hlen Hts Hfit HwfR HrR.
  pose proof (rows_nonneg input) as Hn.
  destruct (pad_shape _ _ _ _ _ Hpad) as [Hrp _].
  assert (rows R = rows input + trim_offset p len ts
                   + match p with NONE => 0 | _ => len end) as Hrows.
  { rewrite HrR, Hrp. unfold padded_rows, trim_offset. destruct p; uint_norm; try lia.
    destruct (Z.ltb_spec 0 ts); uint_norm; lia. }
  assert (0 <= trim_offset p len ts <= len + ts) as Hoff
    by (unfold trim_offset; destruct p; lia).
  assert (0 <= match p with NONE => 0 | _ => len end <= len) as Hextra
    by (destruct p; lia).
  set (extra := match p with NONE => 0 | _ => len end) in *.
  assert (row R (trim_offset p len ts) (rows input)
          = Ok (mkMatrix (columns R)
                  (take (length (data input))
                     (drop (Z.to_nat (trim_offset p len ts)) (data R))))) as Hrow.
  { rewrite row_wf by (assumption || lia). unfold rows. now rewrite Nat2Z.id. }
  rewrite <- Hrow. unfold trim. rewrite Hrows. unfold trim_offset in *.
  destruct p; uint_norm; try (f_equal; lia).
  destruct (Z.ltb_spec 0 ts).
  - uint_norm. f_equal. lia.
  - replace ts with 0 in * by lia. rewrite row_wf by (assumption || lia).
    f_equal. destruct R as [c d]. unfold rows in *. simpl in *. f_equal.
    subst extra. change (Z.to_nat 0) with 0%nat.
    rewrite drop_0. symmetry. apply take_ge. lia.
Qed.

(** The two passes on a sequence [P]: the feedback pass solves the banded
    system of [an] for the banded product of [bn] with [P]. *)
Lemma time_domain_passes (f : @DigitalFilterARMA T) (Pm : Matrix T) :
  default zero (an f !! 0%nat) <> zero ->
  2 <= zlen (an f) -> zlen (an f) - 1 <= Z.min 64 (rows Pm) ->
  1 <= zlen (bn f) -> wf Pm -> 1 <= rows Pm ->
  rows Pm + zlen (bn f) + zlen (an f) + 64 < UInt.modulus ->
  exists U Y,
    feed_forward f (Z.min 64 (rows Pm)) Pm (Matrix_new (rows Pm) (cols Pm)) = Ok U /\
    feed_back f (Z.min 64 (rows Pm)) U = Ok Y /\
    wf Y /\ columns Y = columns Pm /\ length (data Y) = length (data Pm) /\
    forall m, (m < length (data Pm))%nat ->
      convolved_row (an f) (data Y) (columns Pm) m
      = convolved_row (bn f) (data Pm) (columns Pm) m.
Proof.
  intros Ha Han Horder Hbn Hwf Hn Hfit.
  set (conv := convolved_row (bn f) (data Pm) (columns Pm)).
  set (U := mkMatrix (columns Pm) (conv <$> seq 0 (length (data Pm)))).
  assert (wf U) as HwfU.
  { unfold wf, U. simpl. apply Forall_fmap, Forall_forall. intros m _. simpl.
    unfold conv, convolved_row. apply vecmat_length. exact Hwf. }
  assert (rows U = rows Pm) as HrU
    by (unfold rows, U; simpl; now rewrite length_fmap, length_seq).
  destruct (feed_back_rows add_assoc add_comm add_zero_l add_zero_r mul_one_l
              mul_zero_l add_opp sub_add mul_div f U)
    as (Y & HY & HwfY & HcY & HlY & Hsol); try assumption; try lia.
  exists U, Y. split.
  { apply (feed_forward_rows add_assoc add_zero_l add_zero_r mul_one_l mul_zero_l);
      assumption || lia. }
  rewrite <- HrU. split; [exact HY|]. split; [exact HwfY|].
  split; [exact HcY|]. split.
  { rewrite HlY. unfold U. simpl. now rewrite length_fmap, length_seq. }
  intros m Hm. apply Hsol. unfold U. simpl.
  rewrite list_lookup_fmap, lookup_seq_lt by assumption. reflexivity.
Qed.

(** X19: a time-domain filter with feedback taps ([2 <= an.rows() <= 65],
    [an(0)] invertible) returns, in exact arithmetic, the rows of the
    input's positions of a sequence [Y] that satisfies the difference
    equation on the padded input [P]: for every row [m],
    [sum over j of an(j) * Y(m-j) = sum over i of bn(i) * P(m-i)].  A
    backward filter does so on the reversed sequence and reverses [Y]. *)
Theorem arma_filter_solves (f : @DigitalFilterARMA T) (input padded : Matrix T) :
  inFrequencyDomain f = false ->
  2 <= zlen (an f) <= 65 -> default zero (an f !! 0%nat) <> zero ->
  1 <= zlen (bn f) -> 0 <= bnStartIndex f ->
  wf input -> warmup f <= rows input ->
  2 * warmup f + rows input + bnStartIndex f + zlen (bn f) + zlen (an f) + 64
  < UInt.modulus ->
  pad input (warmup f) (bnStartIndex f) (padType f) = Ok padded ->
  let P := if backward f then reverse (data padded) else data padded in
  exists Y,
    length Y = length P /\
    (forall m, (m < length P)%nat ->
       convolved_row (an f) Y (columns input) m
       = convolved_row (bn f) P (columns input) m) /\
    filter f input
    = Ok (mkMatrix (columns input)
            (take (length (data input))
               (drop (Z.to_nat (trim_offset (padType f) (warmup f) (bnStartIndex f)))
                  (if backward f then reverse Y else Y)))).
Proof.
  intros Hfd Han Ha Hbn Hs Hwf Hw Hfit Hpad P.
  pose proof (warmup_nonneg f) as Hw0.
  assert (3 * zlen (an f) <= warmup f) as Hw3.
  { pose proof modulus_eq as Hmod. unfold warmup. rewrite (mul_small 3) by lia. lia. }
  pose proof (pad_wf _ _ _ _ _ Hwf Hpad) as Hwfp.
  destruct (pad_shape _ _ _ _ _ Hpad) as [Hrp Hcp].
  assert (rows input <= rows padded <= 2 * warmup f + rows input + bnStartIndex f)
    as Hrows.
  { rewrite Hrp. unfold padded_rows. destruct (padType f); uint_norm; try lia.
    destruct (Z.ltb_spec 0 (bnStartIndex f)); uint_norm; lia. }
  set (Pm := mkMatrix (columns padded) P).
  assert (wf Pm) as HwfPm.
  { unfold wf, Pm, P. simpl. destruct (backward f); [now apply Forall_reverse|exact Hwfp]. }
  assert (rows Pm = rows padded) as HrPm.
  { unfold rows, Pm, P. simpl. destruct (backward f); [now rewrite length_reverse|reflexivity]. }
  assert ((if backward f then reverse_rows padded else Ok padded) = Ok Pm) as Hrev.
  { unfold Pm, P. destruct (backward f).
    - apply reverse_rows_data; [assumption|lia].
    - now destruct padded. }
  destruct (time_domain_passes f Pm) as (U & Y & HU & HY & HwfY & HcY & HlY & Hsol);
    try assumption; try lia.
  exists (data Y). split; [exact HlY|]. split.
  { intros m Hm. rewrite <- Hcp. now apply Hsol. }
  unfold filter. destruct (Z.ltb_spec (rows input) (warmup f)); [lia|].
  rewrite Hfd. unfold filter_time_domain. rewrite Hpad. cbn [bind].
  rewrite Hrev. cbn [bind]. rewrite HU. cbn [bind].
  destruct (Z.ltb_spec 1 (zlen (an f))); [|lia]. rewrite HY. cbn [bind].
  set (R := mkMatrix (columns Y) (if backward f then reverse (data Y) else data Y)).
  assert (wf R) as HwfR.
  { unfold wf, R. simpl. destruct (backward f); [now apply Forall_reverse|exact HwfY]. }
  assert (rows R = rows padded) as HrR.
  { rewrite <- HrPm. unfold rows, R. simpl.
    destruct (backward f); [rewrite length_reverse|]; now rewrite HlY. }
  assert ((if backward f then reverse_rows Y else Ok Y) = Ok R) as ->.
  { unfold R. destruct (backward f).
    - apply reverse_rows_data; [assumption|]. unfold rows in *. lia.
    - now destruct Y. }
  cbn [bind].
  rewrite (trim_after_pad input padded R) by (assumption || lia).
  unfold R. simpl. rewrite HcY. unfold Pm. simpl. now rewrite Hcp.
Qed.

End DifferenceEquation.

(** ** A misplaced [bnStartIndex] *)

Section WarmupEdge.

Context {T C : Type} `{!Scalar T} `{!Spectral T C}.

(** X15: [bnStartIndex] at or past the end of [bn] makes the unsigned
    [bn.rows()-bnStartIndex-1] of [warmup] wrap around: the filter rejects
    every input of fewer than [2^64 - 1 - (bnStartIndex - bn.rows())]
    rows. *)
Theorem misplaced_start_rejects (f : @DigitalFilterARMA T) (input : Matrix T) :
  zlen (bn f) <= bnStartIndex f < UInt.modulus ->
  rows input < UInt.modulus - 1 - (bnStartIndex f - zlen (bn f)) ->
  filter f input = Err InsufficientInputLength.
Proof.
  intros Hs Hn. pose proof (zlen_nonneg (bn f)) as Hb.
  assert (UInt.modulus - 1 - (bnStartIndex f - zlen (bn f)) <= warmup f) as Hw.
  { unfold warmup, UInt.sub.
    destruct (wrap_eq (zlen (bn f) - bnStartIndex f)) as [q Hq]. rewrite Hq.
    replace (zlen (bn f) - bnStartIndex f + q * UInt.modulus - 1)
      with ((zlen (bn f) - bnStartIndex f - 1 + UInt.modulus) + (q - 1) * UInt.modulus)
      by ring.
    rewrite wrap_shift, wrap_small by lia. lia. }
  unfold filter. destruct (Z.ltb_spec (rows input) (warmup f)); [reflexivity|lia].
Qed.

(** X17: under symmetric padding an input of exactly [warmup] rows passes
    the length check of [filter] and is then rejected by [pad], on either
    path: mirroring [warmup] rows around the first one needs [warmup + 1]
    rows. *)
Theorem symmetric_needs_one_more_row (f : @DigitalFilterARMA T) (input : Matrix T) :
  padType f = SYMMETRIC -> rows input = warmup f -> 1 <= rows input ->
  0 <= bnStartIndex f -> 3 * rows input + bnStartIndex f < UInt.modulus ->
  filter f input = Err InvalidPadding.
Proof.
  intros Hp Hr Hn Hs Hfit.
  assert (pad input (warmup f) (bnStartIndex f) (padType f) = Err InvalidPadding)
    as Hpad.
  { rewrite Hp. unfold pad. destruct (Z.ltb_spec (rows input) 1); [lia|]. uint_norm.
    destruct (pad_initial_copy input (warmup f) (bnStartIndex f)) as (padded & ->);
      try lia.
    cbn [bind]. destruct (Z.ltb_spec (rows input) (warmup f + 1)); [reflexivity|lia]. }
  unfold filter. destruct (Z.ltb_spec (rows input) (warmup f)); [lia|].
  destruct (inFrequencyDomain f);
    [unfold filter_frequency_domain | unfold filter_time_domain]; now rewrite Hpad.
Qed.

End WarmupEdge.

(** ** The frequency-domain path *)

Section FrequencyPath.

Context {T C : Type} `{!Scalar T} `{!Spectral T C}.

Hypothesis fft_length : forall v : list T, length (fft v) = (length v / 2 + 1)%nat.
Hypothesis synthesis_length : forall (F : list C) (even : bool),
  length (synthesis F even)
  = (if even then 2 * (length F - 1) else 2 * length F - 1)%nat.

(** The loop [F.at(i) *= H.at(i)] over the bins of [F] goes through when
    [H] has a value for each of them. *)
Lemma scale_bins_ok (F H : list C) :
  (length F <= length H)%nat ->
  exists F',
    for_range (zlen F)
      (fun i F => let* x := vec_at F i in
                  let* h := vec_at H i in
                  vec_set F i (cmul x h)) F = Ok F' /\
    length F' = length F.
Proof.
  intros Hlen.
  apply (for_range_inv (fun _ F' => length F' = length F)).
  - apply zlen_nonneg.
  - reflexivity.
  - intros k F0 Hk HF0. unfold zlen in Hk.
    destruct (lookup_lt_is_Some_2 F0 (Z.to_nat k)) as [x Hx]; [lia|].
    destruct (lookup_lt_is_Some_2 H (Z.to_nat k)) as [h Hh]; [lia|].
    rewrite (vec_at_lookup F0 k x), (vec_at_lookup H k h) by (lia || assumption).
    cbn [bind]. rewrite vec_set_ok by (unfold zlen; lia).
    eexists. split; [reflexivity|]. now rewrite length_insert.
Qed.

(** A column of a well-formed matrix has one entry per row. *)
Lemma column_entries (m : Matrix T) k :
  wf m -> 0 <= k < cols m ->
  exists col, column m k = Ok col /\ length (as_vector col) = length (data m).
Proof.
  intros Hwf Hk. unfold column, slice, in_view.
  destruct (Z.leb_spec (0 + rows m) (rows m)); [|lia].
  destruct (Z.leb_spec (k + 1) (cols m)); [|lia]. simpl.
  eexists. split; [reflexivity|]. unfold as_vector. simpl.
  rewrite drop_0, take_ge by (unfold rows; lia).
  unfold wf in Hwf. unfold cols in Hk.
  induction Hwf as [|r l Hr _ IH]; [reflexivity|].
  rewrite fmap_cons. cbn [concat]. rewrite length_app, IH.
  change (Z.to_nat 1) with 1%nat.
  rewrite length_take, length_drop. cbn [length]. lia.
Qed.

(** X16: with a padding policy, a filter in the frequency domain returns a
    result for every input that passes the warmup check and that [pad]
    accepts: the response length [padded.rows()] is always long enough for
    the coefficient vectors, also for the reflection of a backward filter,
    and every [at], slice and copy stays in range. *)
Theorem frequency_filter_returns (f : @DigitalFilterARMA T) (input : Matrix T) :
  inFrequencyDomain f = true -> padType f <> NONE ->
  an f <> [] -> 0 <= bnStartIndex f < zlen (bn f) ->
  zlen (bn f) < UInt.modulus -> 3 * zlen (an f) < UInt.modulus ->
  wf input -> warmup f <= rows input ->
  enough_rows (padType f) input (warmup f) ->
  2 * warmup f + rows input + bnStartIndex f < UInt.modulus ->
  exists out,
    filter f input = Ok out /\ rows out = rows input /\ columns out = columns input.
Proof.
  intros Hfd Hp Han Hs Hbfit Hafit Hwf Hw Hrows Hfit.
  apply zlen_pos in Han.
  assert (warmup f
          = Z.max (Z.max (zlen (bn f) - bnStartIndex f - 1) (bnStartIndex f))
                  (3 * zlen (an f))) as Hweq
    by (unfold warmup; uint_norm; reflexivity).
  destruct (pad_ok input (warmup f) (bnStartIndex f) (padType f))
    as (padded & Hpad & Hc & Hwfp & Hr & _); try assumption; try lia.
  set (N := 2 * warmup f + rows input + bnStartIndex f) in *.
  assert (response_defined f N) as Hdef.
  { unfold response_defined, N. repeat split; try lia. }
  destruct (frequencyResponse_ok f N) as (aPad & H & HH & HaPad & HlH);
    [intros u v Huv; now rewrite !fft_length, Huv | exact Hdef | lia |].
  rewrite fft_length in HlH.
  assert (length aPad = length (data padded)) as HaL
    by (unfold zlen, rows in *; lia).
  rewrite HaL in HlH.
  unfold filter. destruct (Z.ltb_spec (rows input) (warmup f)); [lia|].
  rewrite Hfd. unfold filter_frequency_domain. rewrite Hpad. cbn [bind].
  rewrite Hr, HH. cbn [bind].
  match goal with
  | |- context [for_range ?n ?body ?s] =>
      destruct (for_range_inv
                  (fun _ m => wf m /\ rows m = N /\ columns m = columns padded)
                  body n s) as (m' & Hrun & Hwf' & Hr' & Hc')
  end.
  - unfold cols. lia.
  - auto.
  - intros k m Hk (Hwfm & Hrm & Hcm).
    destruct (column_entries m k) as (col & Hcol & Hlcol);
      [assumption | unfold cols in *; lia |].
    rewrite Hcol. cbn [bind].
    destruct (scale_bins_ok (fft (as_vector col)) H) as (F' & HF' & HlF').
    { assert (length (data m) = length (data padded)) as Hmp
        by (unfold rows in *; lia).
      rewrite fft_length, Hlcol, HlH, Hmp. lia. }
    rewrite HF'. cbn [bind].
    assert (zlen (synthesis F' (rows m mod 2 =? 0)) = rows m) as Hsyn.
    { unfold zlen. rewrite synthesis_length, HlF', fft_length, Hlcol.
      unfold rows. set (L := length (data m)).
      pose proof (Nat.div_mod_eq L 2) as Hdm.
      pose proof (Nat.mod_upper_bound L 2) as Hub.
      assert (Z.of_nat L mod 2 = Z.of_nat (L mod 2)) as ->
        by (now rewrite Nat2Z.inj_mod).
      generalize dependent (L mod 2)%nat. generalize (L / 2)%nat.
      intros q r Hdm Hub.
      destruct (Z.eqb_spec (Z.of_nat r) 0); lia. }
    unfold copy, in_view.
    destruct (Z.leb_spec (0 + rows m) (rows m)); [|lia].
    destruct (Z.leb_spec (k + 1) (cols m)); [|unfold cols in *; lia].
    assert (rows (as_matrix (synthesis F' (rows m mod 2 =? 0))) = rows m) as ->.
    { unfold rows at 1, as_matrix. simpl. rewrite length_fmap. exact Hsyn. }
    rewrite Z.eqb_refl. simpl. eexists. split; [reflexivity|].
    split; [now apply overwrite_wf|]. split; [now rewrite overwrite_rows|exact Hcm].
  - rewrite Hrun. cbn [bind]. unfold trim.
    pose proof (rows_nonneg input) as Hn0.
    assert (row m' (UInt.add (warmup f) (bnStartIndex f))
                (UInt.sub (UInt.sub (rows m') (UInt.mul 2 (warmup f))) (bnStartIndex f))
            = Ok (mkMatrix (columns m')
                    (take (Z.to_nat (rows input))
                       (drop (Z.to_nat (warmup f + bnStartIndex f)) (data m'))))) as Hrow.
    { rewrite Hr'. unfold N. uint_norm.
      replace (2 * warmup f + rows input + bnStartIndex f - 2 * warmup f - bnStartIndex f)
        with (rows input) by lia.
      apply row_wf; [assumption|lia|lia|rewrite Hr'; unfold N; lia]. }
    exists (mkMatrix (columns m')
              (take (Z.to_nat (rows input))
                 (drop (Z.to_nat (warmup f + bnStartIndex f)) (data m')))).
    split; [destruct (padType f); [congruence|exact Hrow..]|].
    split; [|simpl; congruence].
    unfold rows in *. simpl. rewrite length_take, length_drop. unfold N in Hr'. lia.
Qed.

(** The padded input of a filter without a padding policy. *)
Lemma unpadded_rows (f : @DigitalFilterARMA T) (input : Matrix T) :
  padType f = NONE -> wf input -> 0 <= bnStartIndex f ->
  rows input + bnStartIndex f < UInt.modulus ->
  exists padded,
    pad input (warmup f) (bnStartIndex f) (padType f) = Ok padded /\
    rows padded = rows input + bnStartIndex f.
Proof.
  intros Hp Hwf Hs Hfit. rewrite Hp. eexists. split.
  - now apply pad_none_data.
  - unfold rows. simpl. rewrite length_app, length_replicate. lia.
Qed.

(** X21: without a padding policy the frequency-domain path asks for a
    response of [rows + bnStartIndex] values: an input that passes the
    warmup check is still rejected, by [frequencyResponse], when that is
    less than the length of a coefficient vector. *)
Theorem unpadded_frequency_filter_too_short (f : @DigitalFilterARMA T) (input : Matrix T) :
  padType f = NONE -> inFrequencyDomain f = true ->
  wf input -> warmup f <= rows input -> 0 <= bnStartIndex f ->
  rows input + bnStartIndex f < UInt.modulus ->
  rows input + bnStartIndex f < Z.max (zlen (bn f)) (zlen (an f)) ->
  filter f input = Err ResponseLengthTooShort.
Proof.
  intros Hp Hfd Hwf Hw Hs Hfit Hshort.
  destruct (unpadded_rows f input) as (padded & Hpad & Hr); try assumption.
  unfold filter. destruct (Z.ltb_spec (rows input) (warmup f)); [lia|].
  rewrite Hfd. unfold filter_frequency_domain. rewrite Hpad. cbn [bind].
  rewrite Hr. unfold frequencyResponse.
  destruct (Z.gtb_spec (zlen (bn f)) (rows input + bnStartIndex f));
    destruct (Z.gtb_spec (zlen (an f)) (rows input + bnStartIndex f));
    try reflexivity. lia.
Qed.

(** X22: without a padding policy a backward filter in the frequency domain
    whose input has exactly [max(bn.rows(), an.rows()) - bnStartIndex] rows
    passes both length checks and then reads past the end of the padded
    coefficient vectors. *)
Theorem unpadded_backward_filter_overruns (f : @DigitalFilterARMA T) (input : Matrix T) :
  padType f = NONE -> inFrequencyDomain f = true -> backward f = true ->
  wf input -> warmup f <= rows input -> 0 <= bnStartIndex f <= zlen (bn f) ->
  1 <= rows input + bnStartIndex f < UInt.modulus ->
  rows input + bnStartIndex f = Z.max (zlen (bn f)) (zlen (an f)) ->
  filter f input = Err (OutOfBoundsAccess (rows input + bnStartIndex f)).
Proof.
  intros Hp Hfd Hbw Hwf Hw Hs Hfit Hmax.
  destruct (unpadded_rows f input) as (padded & Hpad & Hr); try assumption; try lia.
  unfold filter. destruct (Z.ltb_spec (rows input) (warmup f)); [lia|].
  rewrite Hfd. unfold filter_frequency_domain. rewrite Hpad. cbn [bind].
  rewrite Hr. unfold frequencyResponse.
  destruct (Z.gtb_spec (zlen (bn f)) (rows input + bnStartIndex f)); [lia|].
  destruct (Z.gtb_spec (zlen (an f)) (rows input + bnStartIndex f)); [lia|].
  simpl orb. cbv iota.
  rewrite reflection_overruns by (assumption || lia). reflexivity.
Qed.







End FrequencyPath.

(** ** The boundary handling, the chain and the two paths at work *)

Lemma R_add_assoc (x y z : R) : add x (add y z) = add (add x y) z.
Proof. simpl. lra. Qed.

Lemma R_fft_size (v : list R) : length (fft v) = (length v / 2 + 1)%nat.
Proof. simpl. unfold RInst.dft. now rewrite length_fmap, length_seq. Qed.

Lemma R_synthesis_length (F : list RInst.Cx) (even : bool) :
  length (synthesis F even)
  = (if even then 2 * (length F - 1) else 2 * length F - 1)%nat.
Proof. simpl. unfold RInst.idft. now rewrite length_fmap, length_seq. Qed.

Lemma ex4_wf : wf ZInst.ex4.
Proof. repeat constructor. Qed.

Lemma Z_add_assoc (x y z : Z) : add x (add y z) = add (add x y) z.
Proof. simpl. lia. Qed.

Lemma Z_add_zero_l (x : Z) : add zero x = x.
Proof. simpl. lia. Qed.

Lemma Z_add_zero_r (x : Z) : add x zero = x.
Proof. simpl. lia. Qed.

Lemma Z_mul_one_l (x : Z) : mul one x = x.
Proof. simpl. lia. Qed.

Lemma Z_mul_zero_l (x : Z) : mul zero x = zero.
Proof. simpl. lia. Qed.

Lemma pad_layout_witness :
  exists m,
    pad ZInst.ex4 3 1 SYMMETRIC = Ok m /\ columns m = columns ZInst.ex4 /\
    rows m = 2 * 3 + rows ZInst.ex4 + 1 /\
    forall i, 0 <= i < rows m ->
      data m !! Z.to_nat i
      = source_row ZInst.ex4 (pad_source SYMMETRIC (rows ZInst.ex4) 3 i).
Proof.
  apply (pad_layout ZInst.ex4 3 1 SYMMETRIC);
    [exact ex4_wf | discriminate | lia | lia | reflexivity | vm_compute; discriminate].
Defined.

Lemma pad_none_appends_zero_rows_witness :
  pad ZInst.ex3 7 2 NONE
  = Ok (mkMatrix (columns ZInst.ex3)
          (data ZInst.ex3 ++ replicate (Z.to_nat 2) (replicate (columns ZInst.ex3) zero))).
Proof.
  apply (pad_none_appends_zero_rows ZInst.ex3 7 2);
    [repeat constructor | lia | reflexivity].
Defined.

Lemma trim_pad_none_shifts_witness :
  exists padded,
    pad ZInst.ex4 0 1 NONE = Ok padded /\
    trim padded 0 1 NONE
    = Ok (mkMatrix (columns ZInst.ex4)
            (drop (Z.to_nat 1) (data ZInst.ex4)
             ++ replicate (Z.to_nat (Z.min 1 (rows ZInst.ex4)))
                          (replicate (columns ZInst.ex4) zero))).
Proof.
  apply (trim_pad_none_shifts ZInst.ex4 0 1); [exact ex4_wf | lia | reflexivity].
Defined.

Lemma reverse_rows_reverses_witness :
  reverse_rows ZInst.ex4
  = Ok (mkMatrix (columns ZInst.ex4) (reverse (data ZInst.ex4))) /\
  (let* r := reverse_rows ZInst.ex4 in reverse_rows r) = Ok ZInst.ex4.
Proof.
  apply (reverse_rows_reverses ZInst.ex4); [exact ex4_wf | reflexivity].
Defined.

Lemma chain_filter_composes_witness :
  exists y,
    DigitalFilter_filter [ARMA_member RInst.lead_filter] RInst.ramp4 = Ok y /\
    base_filter (ARMA_member RInst.integrator) y = Err InsufficientInputLength /\
    DigitalFilter_filter
      ([ARMA_member RInst.lead_filter] ++ ARMA_member RInst.integrator :: [])
      RInst.ramp4
    = Err InsufficientInputLength.
Proof.
  assert (exists y,
            DigitalFilter_filter [ARMA_member RInst.lead_filter] RInst.ramp4 = Ok y /\
            base_filter (ARMA_member RInst.integrator) y = Err InsufficientInputLength)
    as (y & Hy & He).
  { eexists. split; [vm_compute; reflexivity|]. reflexivity. }
  exists y. split; [exact Hy|]. split; [exact He|].
  exact (proj2 (chain_filter_composes [ARMA_member RInst.lead_filter] [] RInst.ramp4)
               _ _ _ Hy He).
Defined.

Lemma ARMA_chain_preserves_shape_witness :
  exists out,
    DigitalFilter_filter
      (ARMA_member <$> [RInst.lead_filter; RInst.identity_filter ZERO]) RInst.ramp4
    = Ok out /\
    rows out = rows RInst.ramp4 /\ columns out = columns RInst.ramp4.
Proof.
  assert (exists out,
            DigitalFilter_filter
              (ARMA_member <$> [RInst.lead_filter; RInst.identity_filter ZERO])
              RInst.ramp4 = Ok out) as (out & Hout)
    by (eexists; vm_compute; reflexivity).
  exists out. split; [exact Hout|].
  apply (ARMA_chain_preserves_shape
           [RInst.lead_filter; RInst.identity_filter ZERO] RInst.ramp4 out);
    [reflexivity | exact Hout].
Defined.

Lemma chain_response_size_mismatch_witness :
  DigitalFilter_frequencyResponse
    (RInst.chain2 ++ [RInst.fixed_member [(5, 0)%R]]) 2
  = Ok (zip_with cmul
          (elementwise_product (Z.to_nat ((2 + 2) / 2))
             [[(2, 0); (0, 1)]; [(1, 1); (3, 0)]]%R)
          [(5, 0)%R]
        ++ drop (length [(5, 0)%R])
             (elementwise_product (Z.to_nat ((2 + 2) / 2))
                [[(2, 0); (0, 1)]; [(1, 1); (3, 0)]]%R)).
Proof.
  apply (proj1 (chain_response_size_mismatch
                  RInst.chain2 [] (RInst.fixed_member [(5, 0)%R])
                  [[(2, 0); (0, 1)]; [(1, 1); (3, 0)]]%R [(5, 0)%R] 2
                  ltac:(lia) eq_refl ltac:(repeat constructor) eq_refl)).
  vm_compute. discriminate.
Defined.

Lemma ARMA_chain_response_witness :
  exists Hs,
    Forall2 (fun f H => frequencyResponse f 2 = Ok H /\ zlen H = (2 + 2) / 2)
            [RInst.integrator; RInst.lead_filter] Hs /\
    DigitalFilter_frequencyResponse
      (ARMA_member <$> [RInst.integrator; RInst.lead_filter]) 2
    = Ok (elementwise_product (Z.to_nat ((2 + 2) / 2)) Hs).
Proof.
  apply (ARMA_chain_response [RInst.integrator; RInst.lead_filter] 2 R_fft_size);
    [lia | reflexivity |].
  repeat constructor; try (vm_compute; discriminate); discriminate.
Defined.

Lemma backward_response_reads_past_the_end_witness :
  padded_coefficients RInst.backward_pair 2 = Err (OutOfBoundsAccess 2) /\
  frequencyResponse RInst.backward_pair 2 = Err (OutOfBoundsAccess 2).
Proof.
  apply (backward_response_reads_past_the_end RInst.backward_pair 2).
  - reflexivity.
  - vm_compute. discriminate.
  - vm_compute. discriminate.
  - vm_compute. split; discriminate.
  - reflexivity.
  - split; [lia | reflexivity].
Defined.

Lemma frequencyResponse_length_error_witness :
  frequencyResponse RInst.integrator 1 = Err ResponseLengthTooShort.
Proof.
  apply (proj2 (frequencyResponse_length_error RInst.integrator 1)). reflexivity.
Defined.

Lemma feed_forward_convolves_witness :
  feed_forward ZInst.moving_sum (Z.min 64 (rows ZInst.ramp10)) ZInst.ramp10
               (Matrix_new (rows ZInst.ramp10) (cols ZInst.ramp10))
  = Ok (mkMatrix (columns ZInst.ramp10)
          (convolved_row (bn ZInst.moving_sum) (data ZInst.ramp10)
                         (columns ZInst.ramp10)
             <$> seq 0 (length (data ZInst.ramp10)))).
Proof.
  apply (feed_forward_convolves Z_add_assoc Z_add_zero_l Z_add_zero_r Z_mul_one_l Z_mul_zero_l
           ZInst.moving_sum ZInst.ramp10).
  - vm_compute. discriminate.
  - vm_compute. repeat constructor.
  - vm_compute. discriminate.
  - reflexivity.
Defined.

Lemma fir_filter_convolves_witness :
  exists padded,
    pad RInst.ramp4 (warmup RInst.sum3) (bnStartIndex RInst.sum3) (padType RInst.sum3)
    = Ok padded /\
    filter RInst.sum3 RInst.ramp4
    = Ok (mkMatrix (columns RInst.ramp4)
            ((fun k => convolved_row (bn RInst.sum3) (data padded) (columns RInst.ramp4)
                         (Z.to_nat (trim_offset (padType RInst.sum3) (warmup RInst.sum3)
                                      (bnStartIndex RInst.sum3)) + k))
               <$> seq 0 (length (data RInst.ramp4)))).
Proof.
  assert (exists padded,
            pad RInst.ramp4 (warmup RInst.sum3) (bnStartIndex RInst.sum3)
                (padType RInst.sum3) = Ok padded) as (padded & Hpad)
    by (eexists; vm_compute; reflexivity).
  exists padded. split; [exact Hpad|].
  apply (fir_filter_convolves R_add_assoc R_add_zero_l R_add_zero_r R_mul_one_l
           R_mul_zero_l RInst.sum3 RInst.ramp4 padded).
  - reflexivity.
  - reflexivity.
  - vm_compute. discriminate.
  - vm_compute. discriminate.
  - vm_compute. discriminate.
  - exact ramp4_wf.
  - vm_compute. discriminate.
  - vm_compute. discriminate.
  - reflexivity.
  - exact Hpad.
Defined.

Lemma misplaced_start_rejects_witness :
  filter RInst.misplaced RInst.ramp4 = Err InsufficientInputLength.
Proof.
  apply (misplaced_start_rejects RInst.misplaced RInst.ramp4).
  - split; [vm_compute; discriminate | reflexivity].
  - reflexivity.
Defined.

Lemma frequency_filter_returns_witness :
  exists out,
    filter RInst.spectral_sum3 RInst.ramp4 = Ok out /\
    rows out = rows RInst.ramp4 /\ columns out = columns RInst.ramp4.
Proof.
  apply (frequency_filter_returns R_fft_size R_synthesis_length
           RInst.spectral_sum3 RInst.ramp4).
  - reflexivity.
  - discriminate.
  - discriminate.
  - split; [vm_compute; discriminate | reflexivity].
  - reflexivity.
  - reflexivity.
  - exact ramp4_wf.
  - vm_compute. discriminate.
  - vm_compute. discriminate.
  - reflexivity.
Defined.

Lemma backward_fir_filter_convolves_witness :
  exists padded,
    pad RInst.ramp4 (warmup RInst.backward_taps) (bnStartIndex RInst.backward_taps)
        (padType RInst.backward_taps) = Ok padded /\
    filter RInst.backward_taps RInst.ramp4
    = Ok (mkMatrix (columns RInst.ramp4)
            ((fun k => convolved_row (bn RInst.backward_taps) (reverse (data padded))
                         (columns RInst.ramp4)
                         (length (data padded) - 1
                          - (Z.to_nat (trim_offset (padType RInst.backward_taps)
                                         (warmup RInst.backward_taps)
                                         (bnStartIndex RInst.backward_taps))
                             + k)))
               <$> seq 0 (length (data RInst.ramp4)))).
Proof.
  assert (exists padded,
            pad RInst.ramp4 (warmup RInst.backward_taps)
                (bnStartIndex RInst.backward_taps) (padType RInst.backward_taps)
            = Ok padded) as (padded & Hpad)
    by (eexists; vm_compute; reflexivity).
  exists padded. split; [exact Hpad|].
  apply (backward_fir_filter_convolves R_add_assoc R_add_zero_l R_add_zero_r R_mul_one_l
           R_mul_zero_l RInst.backward_taps RInst.ramp4 padded).
  - reflexivity.
  - reflexivity.
  - vm_compute. discriminate.
  - vm_compute. discriminate.
  - vm_compute. discriminate.
  - exact ramp4_wf.
  - vm_compute. discriminate.
  - vm_compute. discriminate.
  - reflexivity.
  - exact Hpad.
Defined.

Lemma forward_coefficients_layout_witness :
  padded_coefficients RInst.sum3 5
  = Ok (an RInst.sum3 ++ replicate (Z.to_nat (5 - zlen (an RInst.sum3))) zero,
        drop (Z.to_nat (bnStartIndex RInst.sum3)) (bn RInst.sum3)
        ++ replicate (Z.to_nat (5 - zlen (bn RInst.sum3))) zero
        ++ take (Z.to_nat (bnStartIndex RInst.sum3)) (bn RInst.sum3)).
Proof.
  apply (forward_coefficients_layout RInst.sum3 5).
  - reflexivity.
  - vm_compute. discriminate.
  - vm_compute. discriminate.
  - vm_compute. split; discriminate.
  - reflexivity.
Defined.

Lemma symmetric_needs_one_more_row_witness :
  filter RInst.spectral_sum3 RInst.ramp3 = Err InvalidPadding.
Proof.
  apply (symmetric_needs_one_more_row RInst.spectral_sum3 RInst.ramp3).
  - reflexivity.
  - reflexivity.
  - vm_compute. discriminate.
  - vm_compute. discriminate.
  - reflexivity.
Defined.

Lemma R_add_comm (x y : R) : add x y = add y x.
Proof. simpl. lra. Qed.

Lemma R_add_opp (x : R) : add x (mul (opp one) x) = zero.
Proof. simpl. lra. Qed.

Lemma R_sub_add (b s : R) : add s (sub b s) = b.
Proof. simpl. lra. Qed.

Lemma R_mul_div (a x : R) : a <> zero -> mul a (div x a) = x.
Proof. simpl. intros Ha. field. exact Ha. Qed.

Lemma integrator_head : default zero (an RInst.integrator !! 0%nat) <> (zero : R).
Proof. simpl. lra. Qed.

Lemma feed_back_solves_witness :
  exists Y,
    feed_back RInst.integrator (Z.min 64 (rows RInst.ramp4)) RInst.ramp4 = Ok Y /\ wf Y /\
    columns Y = columns RInst.ramp4 /\ length (data Y) = length (data RInst.ramp4) /\
    forall m r, data RInst.ramp4 !! m = Some r ->
                convolved_row (an RInst.integrator) (data Y) (columns RInst.ramp4) m = r.
Proof.
  apply (feed_back_solves R_add_assoc R_add_comm R_add_zero_l R_add_zero_r R_mul_one_l
           R_mul_zero_l R_add_opp R_sub_add R_mul_div RInst.integrator RInst.ramp4).
  - exact integrator_head.
  - vm_compute. discriminate.
  - vm_compute. discriminate.
  - exact ramp4_wf.
  - vm_compute. discriminate.
  - reflexivity.
Defined.

Lemma arma_filter_solves_witness :
  exists padded,
    pad RInst.ramp6 (warmup RInst.integrator) (bnStartIndex RInst.integrator)
        (padType RInst.integrator) = Ok padded /\
    let P := if backward RInst.integrator then reverse (data padded) else data padded in
    exists Y,
      length Y = length P /\
      (forall m, (m < length P)%nat ->
         convolved_row (an RInst.integrator) Y (columns RInst.ramp6) m
         = convolved_row (bn RInst.integrator) P (columns RInst.ramp6) m) /\
      filter RInst.integrator RInst.ramp6
      = Ok (mkMatrix (columns RInst.ramp6)
              (take (length (data RInst.ramp6))
                 (drop (Z.to_nat (trim_offset (padType RInst.integrator)
                                    (warmup RInst.integrator)
                                    (bnStartIndex RInst.integrator)))
                    (if backward RInst.integrator then reverse Y else Y)))).
Proof.
  assert (exists padded,
            pad RInst.ramp6 (warmup RInst.integrator) (bnStartIndex RInst.integrator)
                (padType RInst.integrator) = Ok padded) as (padded & Hpad)
    by (eexists; vm_compute; reflexivity).
  exists padded. split; [exact Hpad|].
  apply (arma_filter_solves R_add_assoc R_add_comm R_add_zero_l R_add_zero_r R_mul_one_l
           R_mul_zero_l R_add_opp R_sub_add R_mul_div RInst.integrator RInst.ramp6 padded).
  - reflexivity.
  - vm_compute. split; discriminate.
  - exact integrator_head.
  - vm_compute. discriminate.
  - vm_compute. discriminate.
  - repeat constructor.
  - vm_compute. discriminate.
  - reflexivity.
  - exact Hpad.
Defined.

Lemma backward_coefficients_mirrored_witness :
  padded_coefficients RInst.backward_pair 5
  = Ok (mirrored (Z.max (zlen (bn RInst.backward_pair)) (zlen (an RInst.backward_pair)))
          (an RInst.backward_pair
           ++ replicate (Z.to_nat (5 - zlen (an RInst.backward_pair))) zero),
        mirrored (Z.max (zlen (bn RInst.backward_pair)) (zlen (an RInst.backward_pair)))
          (drop (Z.to_nat (bnStartIndex RInst.backward_pair)) (bn RInst.backward_pair)
           ++ replicate (Z.to_nat (5 - zlen (bn RInst.backward_pair))) zero
           ++ take (Z.to_nat (bnStartIndex RInst.backward_pair))
                   (bn RInst.backward_pair))).
Proof.
  apply (backward_coefficients_mirrored RInst.backward_pair 5).
  - reflexivity.
  - vm_compute. discriminate.
  - vm_compute. discriminate.
  - vm_compute. split; discriminate.
  - reflexivity.
  - reflexivity.
Defined.

Lemma unpadded_frequency_filter_too_short_witness :
  filter (RInst.unpadded [1; 1; 1; 1; 1]%R) RInst.ramp4 = Err ResponseLengthTooShort.
Proof.
  apply (unpadded_frequency_filter_too_short
           (RInst.unpadded [1; 1; 1; 1; 1]%R) RInst.ramp4).
  - reflexivity.
  - reflexivity.
  - exact ramp4_wf.
  - vm_compute. discriminate.
  - vm_compute. discriminate.
  - reflexivity.
  - reflexivity.
Defined.

Lemma unpadded_backward_filter_overruns_witness :
  filter (RInst.unpadded [1; 1; 1; 1; 1; 1]%R) RInst.ramp6
  = Err (OutOfBoundsAccess
           (rows RInst.ramp6 + bnStartIndex (RInst.unpadded [1; 1; 1; 1; 1; 1]%R))).
Proof.
  apply (unpadded_backward_filter_overruns
           (RInst.unpadded [1; 1; 1; 1; 1; 1]%R) RInst.ramp6).
  - reflexivity.
  - reflexivity.
  - reflexivity.
  - repeat constructor.
  - vm_compute. discriminate.
  - vm_compute. split; discriminate.
  - split; [vm_compute; discriminate | reflexivity].
  - reflexivity.
Defined.

